(** * Verification of the job-feed pipeline of [scripts/fetch-jobs.mjs]

    The repository holds three revisions of the script.  Each one is embedded
    in a module of its own:

    - [Curated]: the revision with the beginner-friendly filter, category
      inference, [generateTags], [dedupe] on title, company and link, and
      [sortAndLimit];
    - [Simple]: the revision whose [strip] decodes nine entities, that tags
      inline, cuts the excerpt at 150 code units and keys [dedupe] on title
      and link;
    - [Hybrid]: the revision with [parseGenericRSS], [fetchText] (manual
      redirects, one retry on 403) and the [toTs] sort.

    Module [JS] models the part of the ECMAScript runtime the script relies
    on: strings as sequences of UTF-16 code units, the backtracking regular
    expression matcher, [Array.prototype.sort], and MD5 of node:crypto. *)

From Stdlib Require Import ZArith NArith List String Ascii Lia Bool.
From stdpp Require Import base tactics option list gmap sets sorting.
From Equations Require Import Equations.
Import ListNotations.

#[local] Open Scope string_scope.
#[local] Open Scope N_scope.
#[local] Open Scope nat_scope.
#[local] Open Scope list_scope.

(** ** The runtime *)

Module JS.

(** A string is a sequence of UTF-16 code units. *)
Abbreviation char := N (only parsing).
Abbreviation jsstring := (list N) (only parsing).

(** ASCII literals of the script. *)
Fixpoint js (s : string) : jsstring :=
  match s with
  | EmptyString => []
  | String a s' => N_of_ascii a :: js s'
  end.

Definition in_range (lo hi c : N) : bool := (lo <=? c)%N && (c <=? hi)%N.

(** WhiteSpace and LineTerminator of ECMA-262: the class [\s], and what
    [trim] removes. *)
Definition is_space (c : N) : bool :=
  in_range 9 13 c || (c =? 32)%N || (c =? 160)%N || (c =? 5760)%N
  || in_range 8192 8202 c || (c =? 8232)%N || (c =? 8233)%N
  || (c =? 8239)%N || (c =? 8287)%N || (c =? 12288)%N || (c =? 65279)%N.

(** LineTerminator: what [.] does not match. *)
Definition is_newline (c : N) : bool :=
  (c =? 10)%N || (c =? 13)%N || (c =? 8232)%N || (c =? 8233)%N.

Definition is_upper (c : N) : bool := in_range 65 90 c.
Definition is_lower (c : N) : bool := in_range 97 122 c.
Definition is_alpha (c : N) : bool := is_upper c || is_lower c.
Definition is_digit (c : N) : bool := in_range 48 57 c.

(** The word characters of [\b]. *)
Definition is_word (c : N) : bool := is_alpha c || is_digit c || (c =? 95)%N.

(** Canonicalize of ECMA-262 without the [u] flag, on the ASCII range: a
    lower-case ASCII letter is compared as its upper-case form, and no code
    unit above 127 is ever mapped into the ASCII range. *)
Definition canon (c : N) : N := if is_lower c then (c - 32)%N else c.

Definition string_eqb (s t : jsstring) : bool := bool_decide (s = t).

Fixpoint startsWith (s p : jsstring) : bool :=
  match p, s with
  | [], _ => true
  | a :: p', b :: s' => (a =? b)%N && startsWith s' p'
  | _ :: _, [] => false
  end.

(** [String.prototype.includes]. *)
Fixpoint includes (s p : jsstring) : bool :=
  startsWith s p || match s with [] => false | _ :: s' => includes s' p end.

(** [String.prototype.indexOf], [None] for -1. *)
Fixpoint indexOf (s p : jsstring) : option nat :=
  if startsWith s p then Some 0
  else match s with [] => None | _ :: s' => S <$> indexOf s' p end.

(** [String.prototype.trim]. *)
Fixpoint trimStart (s : jsstring) : jsstring :=
  match s with
  | c :: s' => if is_space c then trimStart s' else s
  | [] => []
  end.

Definition trimEnd (s : jsstring) : jsstring := rev (trimStart (rev s)).
Definition trim (s : jsstring) : jsstring := trimEnd (trimStart s).

(** [s.slice(0, n)] and [s.substring(0, n)] for a constant [n >= 0]. *)
Definition slice0 {A} (n : nat) (l : list A) : list A := take n l.

(** *** Regular expressions

    The patterns of the script use literals, classes, [.], sequence,
    alternation, greedy and lazy repetition, one capturing group, [$] and
    [\b].  [rmatch] is the backtracking matcher of ECMA-262 in
    continuation-passing style: [rmatch r st k] matches [r] at state [st]
    and hands every way of matching it, in priority order, to [k] until
    [k] accepts. *)

Inductive regex : Type :=
| Eps                                (* the empty pattern *)
| Chr (p : N -> bool)                (* one code unit: literal, class, [.] *)
| Seq (r1 r2 : regex)
| Alt (r1 r2 : regex)                (* r1|r2, r1 tried first *)
| Star (greedy : bool) (r : regex)   (* r* and r*? *)
| Grp (r : regex)                    (* the capturing group *)
| Eol                                (* $, no m flag *)
| Wordb.                             (* \b *)

Record mstate : Type := MState {
  m_prev : option N;       (* the code unit before the current position *)
  m_rest : jsstring;       (* the input from the current position on *)
  m_cap : option jsstring  (* what the group captured, if it took part *)
}.

Definition word_at (c : option N) : bool :=
  match c with Some x => is_word x | None => false end.

Fixpoint rmatch {A} (r : regex) (st : mstate) (k : mstate -> option A)
  {struct r} : option A :=
  match r with
  | Eps => k st
  | Chr p =>
      match m_rest st with
      | c :: s' => if p c then k (MState (Some c) s' (m_cap st)) else None
      | [] => None
      end
  | Seq r1 r2 => rmatch r1 st (fun st1 => rmatch r2 st1 k)
  | Alt r1 r2 =>
      match rmatch r1 st k with
      | Some a => Some a
      | None => rmatch r2 st k
      end
  | Star g r1 =>
      (fix loop (n : nat) (st : mstate) {struct n} : option A :=
         let more :=
           match n with
           | O => None
           | S n' =>
               rmatch r1 st (fun st' =>
                 (* an iteration that consumes nothing is rejected *)
                 if length (m_rest st') <? length (m_rest st)
                 then loop n' st' else None)
           end in
         if g
         then match more with Some a => Some a | None => k st end
         else match k st with Some a => Some a | None => more end)
        (length (m_rest st)) st
  | Grp r1 =>
      rmatch r1 st (fun st' =>
        k (MState (m_prev st') (m_rest st')
             (Some (take (length (m_rest st) - length (m_rest st'))
                      (m_rest st)))))
  | Eol => match m_rest st with [] => k st | _ :: _ => None end
  | Wordb =>
      if xorb (word_at (m_prev st)) (word_at (head (m_rest st)))
      then k st else None
  end.

(** Pattern builders. *)
Definition any : regex := Chr (fun _ => true).                (* [\s\S] *)
Definition dot : regex := Chr (fun c => negb (is_newline c)). (* . *)
Definition space : regex := Chr is_space.                     (* \s *)
Definition ch (c : N) : regex := Chr (N.eqb c).
Definition chi (c : N) : regex := Chr (fun x => (canon x =? canon c)%N).
Definition notch (c : N) : regex := Chr (fun x => negb (x =? c)%N).
Definition plus (g : bool) (r : regex) : regex := Seq r (Star g r).
Definition opt (r : regex) : regex := Alt r Eps.              (* r? *)

Fixpoint seqs (rs : list regex) : regex :=
  match rs with
  | [] => Eps
  | [r] => r
  | r :: rs' => Seq r (seqs rs')
  end.

Fixpoint alts (rs : list regex) : regex :=
  match rs with
  | [] => Eps
  | [r] => r
  | r :: rs' => Alt r (alts rs')
  end.

(** A literal, and a literal under the [i] flag. *)
Definition lit (s : jsstring) : regex := seqs (map ch s).
Definition liti (s : jsstring) : regex := seqs (map chi s).

(** One match: where it starts, how many code units it spans, the group. *)
Record rmatch_result : Type := Match {
  m_index : nat;
  m_length : nat;
  m_group : option jsstring
}.

(** The match of [r] that starts exactly at the current position. *)
Definition match_here (r : regex) (prev : option N) (s : jsstring)
  : option (nat * option jsstring) :=
  match rmatch r (MState prev s None) Some with
  | Some st' => Some (length s - length (m_rest st'), m_cap st')
  | None => None
  end.

(** [RegExp.prototype.exec] without the [g] flag: the leftmost match. *)
Fixpoint search (r : regex) (prev : option N) (s : jsstring) (i : nat)
  : option rmatch_result :=
  match match_here r prev s with
  | Some (n, g) => Some (Match i n g)
  | None =>
      match s with
      | [] => None
      | c :: s' => search r (Some c) s' (S i)
      end
  end.

Definition exec (r : regex) (s : jsstring) : option rmatch_result :=
  search r None s 0.

(** [re.test(s)]. *)
Definition test (r : regex) (s : jsstring) : bool :=
  match exec r s with Some _ => true | None => false end.

(** [(s.match(re) || [])[1]] for a pattern without the [g] flag. *)
Definition match1 (r : regex) (s : jsstring) : option jsstring :=
  match exec r s with Some m => m_group m | None => None end.

(** [s.replace(re, rep)] with the [g] flag, [rep] free of [$]: the input is
    scanned once from the left; [skip] counts the code units still covered
    by the match in progress.  After an empty match the scan moves on by
    one code unit. *)
Fixpoint replace_scan (r : regex) (rep : jsstring) (prev : option N)
  (s : jsstring) (skip : nat) : jsstring :=
  match s with
  | [] =>
      match skip, match_here r prev [] with
      | O, Some _ => rep
      | _, _ => []
      end
  | c :: s' =>
      match skip with
      | S n => replace_scan r rep (Some c) s' n
      | O =>
          match match_here r prev s with
          | Some (O, _) => rep ++ c :: replace_scan r rep (Some c) s' 0
          | Some (S n, _) => rep ++ replace_scan r rep (Some c) s' n
          | None => c :: replace_scan r rep (Some c) s' 0
          end
      end
  end.

Definition replace_all (r : regex) (rep : jsstring) (s : jsstring) : jsstring :=
  replace_scan r rep None s 0.

(** [s.replace(re, rep)] without the [g] flag: the leftmost match only. *)
Definition replace_first (r : regex) (rep : jsstring) (s : jsstring)
  : jsstring :=
  match exec r s with
  | Some m => take (m_index m) s ++ rep ++ drop (m_index m + m_length m) s
  | None => s
  end.

(** [s.matchAll(re)] and the [while ((m = re.exec(s)))] loop of a [g]
    pattern: the successive matches, each search resuming where the
    previous match ended. *)
Fixpoint matchAll_scan (r : regex) (prev : option N) (s : jsstring)
  (i skip : nat) : list rmatch_result :=
  match s with
  | [] =>
      match skip, match_here r prev [] with
      | O, Some (n, g) => [Match i n g]
      | _, _ => []
      end
  | c :: s' =>
      match skip with
      | S n => matchAll_scan r (Some c) s' (S i) n
      | O =>
          match match_here r prev s with
          | Some (n, g) =>
              Match i n g :: matchAll_scan r (Some c) s' (S i) (pred n)
          | None => matchAll_scan r (Some c) s' (S i) 0
          end
      end
  end.

Definition matchAll (r : regex) (s : jsstring) : list rmatch_result :=
  matchAll_scan r None s 0 0.

(** [s.split(sep)[0]] for a non-empty separator. *)
Definition split_head (s sep : jsstring) : jsstring :=
  match indexOf s sep with
  | Some i => take i s
  | None => s
  end.

(** [s.replaceAll(pat, rep)] for a non-empty string pattern. *)
Definition replaceAll_str (pat rep s : jsstring) : jsstring :=
  replace_all (lit pat) rep s.

(** *** [Array.prototype.sort]

    The sort is stable, and a comparator result of NaN counts as +0
    (ECMA-262, SortCompare).  For a comparator that is a consistent total
    preorder every stable sort returns the same array; [sort] is the
    insertion sort among them.  With a comparator that is not consistent
    the order is implementation-defined, and no theorem below relies on it. *)

Section Sort.
Context {A : Type} (comparefn : A -> A -> option Z).

Definition sort_compare (x y : A) : Z := default 0%Z (comparefn x y).

Fixpoint sort_insert (x : A) (l : list A) : list A :=
  match l with
  | [] => [x]
  | y :: l' =>
      if (sort_compare x y <=? 0)%Z then x :: l else y :: sort_insert x l'
  end.

Definition sort (l : list A) : list A := foldr sort_insert [] l.
End Sort.

(** [Array.from(new Set(l))]: a set keeps its elements in the order in
    which they were first added. *)
Definition set_add (elements : list jsstring) (x : jsstring)
  : list jsstring :=
  if decide (x ∈ elements) then elements else elements ++ [x].

Definition array_from_set (l : list jsstring) : list jsstring :=
  foldl set_add [] l.

(** *** UTF-8, MD5 and hexadecimal digests

    [crypto.createHash('md5').update(s).digest('hex')]: the string is
    encoded as UTF-8 (a lone surrogate becomes U+FFFD), hashed with MD5
    (RFC 1321), and the 16 bytes are printed in lower-case hexadecimal. *)

Definition utf8_of_code_point (c : N) : list N :=
  if (c <? 128)%N then [c]
  else if (c <? 2048)%N then [192 + c / 64; 128 + c mod 64]%N
  else if (c <? 65536)%N then
    [224 + c / 4096; 128 + (c / 64) mod 64; 128 + c mod 64]%N
  else
    [240 + c / 262144; 128 + (c / 4096) mod 64;
     128 + (c / 64) mod 64; 128 + c mod 64]%N.

Definition is_high_surrogate (c : N) : bool := in_range 55296 56319 c.
Definition is_low_surrogate (c : N) : bool := in_range 56320 57343 c.

(** The code points of a string; [pending] is a high surrogate still waiting
    for its low half. *)
Fixpoint code_points (pending : option N) (s : jsstring) : list N :=
  match s with
  | [] => match pending with Some _ => [65533%N] | None => [] end
  | c :: s' =>
      match pending with
      | Some h =>
          if is_low_surrogate c
          then (65536 + (h - 55296) * 1024 + (c - 56320))%N
               :: code_points None s'
          else if is_high_surrogate c then 65533%N :: code_points (Some c) s'
          else 65533%N :: c :: code_points None s'
      | None =>
          if is_high_surrogate c then code_points (Some c) s'
          else if is_low_surrogate c then 65533%N :: code_points None s'
          else c :: code_points None s'
      end
  end.

Definition utf8_encode (s : jsstring) : list N :=
  concat (map utf8_of_code_point (code_points None s)).

Definition mask32 : N := 4294967295.
Definition add32 (x y : N) : N := N.land (x + y) mask32.
Definition not32 (x : N) : N := N.lxor x mask32.
Definition rotl32 (x : N) (n : N) : N :=
  N.land (N.lor (N.shiftl x n) (N.shiftr x (32 - n))) mask32.

Definition md5_shift : list N :=
  [7; 12; 17; 22; 7; 12; 17; 22; 7; 12; 17; 22; 7; 12; 17; 22;
   5; 9; 14; 20; 5; 9; 14; 20; 5; 9; 14; 20; 5; 9; 14; 20;
   4; 11; 16; 23; 4; 11; 16; 23; 4; 11; 16; 23; 4; 11; 16; 23;
   6; 10; 15; 21; 6; 10; 15; 21; 6; 10; 15; 21; 6; 10; 15; 21]%N.

Definition md5_K : list N :=
  [0xd76aa478; 0xe8c7b756; 0x242070db; 0xc1bdceee;
   0xf57c0faf; 0x4787c62a; 0xa8304613; 0xfd469501;
   0x698098d8; 0x8b44f7af; 0xffff5bb1; 0x895cd7be;
   0x6b901122; 0xfd987193; 0xa679438e; 0x49b40821;
   0xf61e2562; 0xc040b340; 0x265e5a51; 0xe9b6c7aa;
   0xd62f105d; 0x02441453; 0xd8a1e681; 0xe7d3fbc8;
   0x21e1cde6; 0xc33707d6; 0xf4d50d87; 0x455a14ed;
   0xa9e3e905; 0xfcefa3f8; 0x676f02d9; 0x8d2a4c8a;
   0xfffa3942; 0x8771f681; 0x6d9d6122; 0xfde5380c;
   0xa4beea44; 0x4bdecfa9; 0xf6bb4b60; 0xbebfbc70;
   0x289b7ec6; 0xeaa127fa; 0xd4ef3085; 0x04881d05;
   0xd9d4d039; 0xe6db99e5; 0x1fa27cf8; 0xc4ac5665;
   0xf4292244; 0x432aff97; 0xab9423a7; 0xfc93a039;
   0x655b59c3; 0x8f0ccc92; 0xffeff47d; 0x85845dd1;
   0x6fa87e4f; 0xfe2ce6e0; 0xa3014314; 0x4e0811a1;
   0xf7537e82; 0xbd3af235; 0x2ad7d2bb; 0xeb86d391]%N.

(** The padded message: 0x80, zeros up to 56 modulo 64, then the bit length
    as 8 little-endian bytes. *)
Definition le_bytes (n : nat) (x : N) : list N :=
  map (fun i => N.land (N.shiftr x (8 * N.of_nat i)) 255) (seq 0 n).

Definition md5_pad (msg : list N) : list N :=
  let len := length msg in
  let zeros := (64 + 55 - len mod 64) mod 64 in
  msg ++ [128%N] ++ repeat 0%N zeros ++ le_bytes 8 (8 * N.of_nat len).

Definition word_le (bs : list N) : N :=
  foldr (fun b acc => (b + 256 * acc)%N) 0%N bs.

(** The sixteen words of the 64-byte block that starts [bs]. *)
Definition md5_words (bs : list N) : list N :=
  map (fun i => word_le (take 4 (drop (4 * i) bs))) (seq 0 16).

Definition md5_state : Type := N * N * N * N.

Definition md5_round (M : list N) (st : md5_state) (i : nat) : md5_state :=
  let '(a, b, c, d) := st in
  let '(f, g) :=
    if i <? 16 then (N.lor (N.land b c) (N.land (not32 b) d), i)
    else if i <? 32 then
      (N.lor (N.land d b) (N.land (not32 d) c), (5 * i + 1) mod 16)
    else if i <? 48 then (N.lxor b (N.lxor c d), (3 * i + 5) mod 16)
    else (N.lxor c (N.lor b (not32 d)), (7 * i) mod 16) in
  let f' := add32 (add32 (add32 f a) (nth i md5_K 0%N)) (nth g M 0%N) in
  (d, add32 b (rotl32 f' (nth i md5_shift 0%N)), b, c).

Definition md5_block (st : md5_state) (bs : list N) : md5_state :=
  let '(a0, b0, c0, d0) := st in
  let '(a, b, c, d) := fold_left (md5_round (md5_words bs)) (seq 0 64) st in
  (add32 a0 a, add32 b0 b, add32 c0 c, add32 d0 d).

Fixpoint md5_blocks (n : nat) (st : md5_state) (bs : list N) : md5_state :=
  match n with
  | O => st
  | S n' => md5_blocks n' (md5_block st bs) (drop 64 bs)
  end.

Definition md5 (msg : list N) : list N :=
  let padded := md5_pad msg in
  let '(a, b, c, d) :=
    md5_blocks (length padded / 64)
      (0x67452301, 0xefcdab89, 0x98badcfe, 0x10325476)%N padded in
  le_bytes 4 a ++ le_bytes 4 b ++ le_bytes 4 c ++ le_bytes 4 d.

Definition hex_digit (n : N) : N :=
  if (n <? 10)%N then (48 + n)%N else (87 + n)%N.

Definition hex (bs : list N) : jsstring :=
  concat (map (fun b => [hex_digit (b / 16); hex_digit (b mod 16)]%N) bs).

Definition md5_hex (s : jsstring) : jsstring := hex (md5 (utf8_encode s)).

(** [crypto.createHash('sha1').update(s).digest('hex')]: SHA-1 of
    FIPS 180-4 on the UTF-8 encoding.  Words are big-endian; the message
    schedule extends the sixteen words of a block to eighty. *)
Definition be_bytes (n : nat) (x : N) : list N := rev (le_bytes n x).

Definition sha1_pad (msg : list N) : list N :=
  let len := length msg in
  let zeros := (64 + 55 - len mod 64) mod 64 in
  msg ++ [128%N] ++ repeat 0%N zeros ++ be_bytes 8 (8 * N.of_nat len).

Definition word_be (bs : list N) : N :=
  fold_left (fun acc b => (256 * acc + b)%N) bs 0%N.

Definition sha1_words (bs : list N) : list N :=
  map (fun i => word_be (take 4 (drop (4 * i) bs))) (seq 0 16).

Definition sha1_schedule (W : list N) : list N :=
  fold_left
    (fun W t =>
       W ++ [rotl32 (N.lxor (N.lxor (nth (t - 3) W 0%N) (nth (t - 8) W 0%N))
                       (N.lxor (nth (t - 14) W 0%N) (nth (t - 16) W 0%N))) 1])
    (seq 16 64) W.

Definition sha1_state : Type := N * N * N * N * N.

Definition sha1_round (W : list N) (st : sha1_state) (t : nat) : sha1_state :=
  let '(a, b, c, d, e) := st in
  let '(f, k) :=
    if t <? 20 then (N.lor (N.land b c) (N.land (not32 b) d), 0x5a827999%N)
    else if t <? 40 then (N.lxor b (N.lxor c d), 0x6ed9eba1%N)
    else if t <? 60 then
      (N.lor (N.lor (N.land b c) (N.land b d)) (N.land c d), 0x8f1bbcdc%N)
    else (N.lxor b (N.lxor c d), 0xca62c1d6%N) in
  let temp :=
    add32 (add32 (add32 (add32 (rotl32 a 5) f) e) k) (nth t W 0%N) in
  (temp, a, rotl32 b 30, c, d).

Definition sha1_block (st : sha1_state) (bs : list N) : sha1_state :=
  let '(a0, b0, c0, d0, e0) := st in
  let '(a, b, c, d, e) :=
    fold_left (sha1_round (sha1_schedule (sha1_words bs))) (seq 0 80) st in
  (add32 a0 a, add32 b0 b, add32 c0 c, add32 d0 d, add32 e0 e).

Fixpoint sha1_blocks (n : nat) (st : sha1_state) (bs : list N) : sha1_state :=
  match n with
  | O => st
  | S n' => sha1_blocks n' (sha1_block st bs) (drop 64 bs)
  end.

Definition sha1 (msg : list N) : list N :=
  let padded := sha1_pad msg in
  let '(a, b, c, d, e) :=
    sha1_blocks (length padded / 64)
      (0x67452301, 0xefcdab89, 0x98badcfe, 0x10325476, 0xc3d2e1f0)%N padded in
  be_bytes 4 a ++ be_bytes 4 b ++ be_bytes 4 c ++ be_bytes 4 d ++ be_bytes 4 e.

Definition sha1_hex (s : jsstring) : jsstring := hex (sha1 (utf8_encode s)).

(** *** Dates

    A time value is a number of milliseconds since the epoch, [None] being
    NaN.  [toISOString] is [Date.prototype.toISOString] of ECMA-262 on a
    valid time value. *)

Definition ms_per_day : Z := 86400000.

(** Year, month and day of a day number (days since 1970-01-01). *)
Definition civil_of_days (days : Z) : Z * Z * Z :=
  let z := (days + 719468)%Z in
  let era := (z / 146097)%Z in
  let doe := (z - era * 146097)%Z in
  let yoe := ((doe - doe / 1460 + doe / 36524 - doe / 146096) / 365)%Z in
  let doy := (doe - (365 * yoe + yoe / 4 - yoe / 100))%Z in
  let mp := ((5 * doy + 2) / 153)%Z in
  let d := (doy - (153 * mp + 2) / 5 + 1)%Z in
  let m := (if mp <? 10 then mp + 3 else mp - 9)%Z in
  let y := (yoe + era * 400 + (if m <=? 2 then 1 else 0))%Z in
  (y, m, d).

Definition days_of_civil (y m d : Z) : Z :=
  let y' := (if m <=? 2 then y - 1 else y)%Z in
  let era := (y' / 400)%Z in
  let yoe := (y' - era * 400)%Z in
  let doy := ((153 * (if 2 <? m then m - 3 else m + 9) + 2) / 5 + d - 1)%Z in
  let doe := (yoe * 365 + yoe / 4 - yoe / 100 + doy)%Z in
  (era * 146097 + doe - 719468)%Z.

(** [n] as [w] decimal digits, most significant first. *)
Fixpoint digits (w : nat) (n : Z) : jsstring :=
  match w with
  | O => []
  | S w' => digits w' (n / 10) ++ [Z.to_N (48 + n mod 10)]
  end.

Definition toISOString (t : Z) : jsstring :=
  let '(y, m, d) := civil_of_days (t / ms_per_day) in
  let ms := (t mod ms_per_day)%Z in
  (if (0 <=? y)%Z && (y <=? 9999)%Z then digits 4 y
   else (if (y <? 0)%Z then js "-" else js "+") ++ digits 6 (Z.abs y))
  ++ js "-" ++ digits 2 m ++ js "-" ++ digits 2 d
  ++ js "T" ++ digits 2 (ms / 3600000)
  ++ js ":" ++ digits 2 (ms / 60000 mod 60)
  ++ js ":" ++ digits 2 (ms / 1000 mod 60)
  ++ js "." ++ digits 3 (ms mod 1000) ++ js "Z".

(** What the host decides: the Unicode case mapping of
    [String.prototype.toLowerCase], and [Date.parse], which ECMA-262 leaves
    to the implementation for every string that is not in the ISO format. *)
Class Host : Type := {
  toLowerCase : jsstring -> jsstring;
  Date_parse : jsstring -> option Z
}.

(** A host for evaluating the script on concrete feeds: ASCII case mapping,
    and [Date.parse] of the format [toISOString] prints
    (YYYY-MM-DDTHH:mm:ss.sssZ).  It agrees with Node on ASCII strings and on
    dates in that format. *)
Definition ascii_lower (c : N) : N := if is_upper c then (c + 32)%N else c.

Fixpoint number_of (acc : Z) (s : jsstring) : option Z :=
  match s with
  | [] => Some acc
  | c :: s' =>
      if is_digit c then number_of (10 * acc + Z.of_N c - 48)%Z s' else None
  end.

Definition parse_iso (s : jsstring) : option Z :=
  match s with
  | [y1; y2; y3; y4; d1; m1; m2; d2; a1; a2; t; h1; h2; c1; n1; n2; c2;
     s1; s2; p; f1; f2; f3; z] =>
      if bool_decide ([d1; d2; t; c1; c2; p; z] = js "--T::.Z") then
        y ← number_of 0 [y1; y2; y3; y4];
        m ← number_of 0 [m1; m2];
        d ← number_of 0 [a1; a2];
        h ← number_of 0 [h1; h2];
        n ← number_of 0 [n1; n2];
        sec ← number_of 0 [s1; s2];
        f ← number_of 0 [f1; f2; f3];
        if ((1 <=? m) && (m <=? 12) && (1 <=? d) && (d <=? 31) && (h <=? 23)
            && (n <=? 59) && (sec <=? 59))%Z
        then Some (days_of_civil y m d * ms_per_day + h * 3600000
                   + n * 60000 + sec * 1000 + f)%Z
        else None
      else None
  | _ => None
  end.

Definition node_ascii : Host := {|
  toLowerCase := map ascii_lower;
  Date_parse := parse_iso
|}.

(** The flat patterns of the script, read from their source text: an
    alternation of sequences of literal code units, [.] and an optional
    [?] after an atom.  [ci] is the [i] flag. *)
Fixpoint seq_of_pattern (ci : bool) (s : jsstring) : regex :=
  match s with
  | [] => Eps
  | c :: s' =>
      let atom := if (c =? 46)%N then dot else if ci then chi c else ch c in
      match s' with
      | q :: s'' =>
          if (q =? 63)%N then Seq (opt atom) (seq_of_pattern ci s'')
          else Seq atom (seq_of_pattern ci s')
      | [] => atom
      end
  end.

(** The segments of [s] between the occurrences of [sep]. *)
Fixpoint segments (sep : N) (cur : jsstring) (s : jsstring)
  : list jsstring :=
  match s with
  | [] => [rev cur]
  | c :: s' =>
      if (c =? sep)%N then rev cur :: segments sep [] s'
      else segments sep (c :: cur) s'
  end.

Definition pattern (ci : bool) (src : string) : regex :=
  alts (map (seq_of_pattern ci) (segments 124 [] (js src))).

(** [a || b] on strings: the empty string is falsy. *)
Definition orElse (a b : jsstring) : jsstring :=
  match a with [] => b | _ :: _ => a end.

(** [parts.join(sep)]. *)
Fixpoint join (sep : jsstring) (parts : list jsstring) : jsstring :=
  match parts with
  | [] => []
  | [x] => x
  | x :: parts' => x ++ sep ++ join sep parts'
  end.

(** *** The network

    What one [fetch] call yields: a rejected promise, or a response with
    its status, its Location header and its body ([None] when reading the
    body fails). *)
Record Response : Type := {
  status : Z;
  statusText : jsstring;
  header_location : option jsstring;
  body : option jsstring
}.

Inductive fetch_outcome : Type :=
| Rejected (message : jsstring)
| Responded (res : Response).

(** [res.ok]. *)
Definition ok (res : Response) : bool :=
  ((200 <=? status res) && (status res <=? 299))%Z.

(** *** Exceptions *)
Inductive exn : Type :=
| Error (message : jsstring)
| TypeError (message : jsstring)
| RangeError (message : jsstring).

(** How an evaluation ends: with a value, or with a thrown exception. *)
Inductive completion (A : Type) : Type :=
| Normal (a : A)
| Throw (e : exn).
Arguments Normal {A} a.
Arguments Throw {A} e.

(** [n] in decimal, as [String(n)] prints a non-negative integer. *)
Fixpoint decimal_digits (fuel : nat) (n : N) (acc : jsstring) : jsstring :=
  match fuel with
  | O => acc
  | S fuel' =>
      let acc' := (48 + n mod 10)%N :: acc in
      if (n <? 10)%N then acc' else decimal_digits fuel' (n / 10) acc'
  end.

Definition decimal (z : Z) : jsstring :=
  (if (z <? 0)%Z then js "-" else [])
  ++ decimal_digits (S (N.to_nat (N.log2 (Z.abs_N z)))) (Z.abs_N z) [].

End JS.

Import JS.

(** ** The data model *)

(** A job record as [rssToItems] pushes it.  [company] is [None] for
    [undefined]; [category] is [None] in the revision whose records have no
    such property. *)
Record Job : Type := {
  title : jsstring;
  company : option jsstring;
  source : jsstring;
  source_url : jsstring;
  posted_at : jsstring;
  tags : list jsstring;
  location : jsstring;
  excerpt : jsstring;
  category : option jsstring
}.

(** An entry of [SOURCES]. *)
Record Source : Type := {
  name : jsstring;
  type : jsstring;
  url : jsstring
}.

(** The object [main] serialises. *)
Record Payload : Type := {
  updated_at : jsstring;
  total_jobs : nat;
  sources : list jsstring;
  jobs : list Job
}.

(** ** The revision with the beginner-friendly filter *)

Module Curated.
Section WithHost.
Context `{Host}.

Definition SOURCES : list Source :=
  [ {| name := js "Remote OK - All"; type := js "rss";
       url := js "https://remoteok.com/rss" |};
    {| name := js "Remote.co - All"; type := js "rss";
       url := js "https://remote.co/remote-jobs/feed/" |};
    {| name := js "Jobicy - All"; type := js "rss";
       url := js "https://jobicy.com/feed" |};
    {| name := js "Himalayas - Jobs"; type := js "rss";
       url := js "https://himalayas.app/jobs/rss" |};
    {| name := js "We Work Remotely"; type := js "rss";
       url := js "https://weworkremotely.com/remote-jobs.rss" |};
    {| name := js "AngelList Remote"; type := js "rss";
       url := js "https://angel.co/jobs.rss?remote=true" |} ].

Definition BEGINNER_KEYWORDS : list jsstring :=
  map js ["entry"; "junior"; "beginner"; "entry-level"; "trainee";
          "associate"; "intern"; "no experience"; "new grad"; "graduate";
          "starter"; "assistant"; "coordinator"].

Definition SENIOR_KEYWORDS : list jsstring :=
  map js ["senior"; "lead"; "principal"; "director"; "manager"; "head of";
          "chief"; "5+ years"; "3+ years"; "experienced"; "expert";
          "architect"].

(** [safeFetch]: every failure of the request is caught and becomes
    [null]. *)
Definition safeFetch (fetch : jsstring -> fetch_outcome) (url : jsstring)
  : option jsstring :=
  match fetch url with
  | Rejected _ => None
  | Responded res => if ok res then body res else None
  end.

(** [strip(html = '')]; [None] is [undefined]. *)
Definition strip (html : option jsstring) : jsstring :=
  let s0 := default [] html in
  let s1 := replace_all (Alt (lit (js "<![CDATA[")) (lit (js "]]>"))) [] s0 in
  let s2 := replace_all (seqs [ch 60; plus true (notch 62); ch 62]) (js " ") s1 in
  let s3 := replace_all (plus true space) (js " ") s2 in
  let s4 := replace_all (lit (js "&amp;")) (js "&") s3 in
  let s5 := replace_all (lit (js "&lt;")) (js "<") s4 in
  let s6 := replace_all (lit (js "&gt;")) (js ">") s5 in
  let s7 := replace_all (lit (js "&quot;")) [34%N] s6 in
  let s8 := replace_all (lit (js "&#39;")) (js "'") s7 in
  trim s8.

(** [parseDate(s)]; [now] is the clock reading of [new Date()]. *)
Definition parseDate (now : Z) (s : jsstring) : jsstring :=
  match s with
  | [] => toISOString now
  | _ :: _ =>
      match Date_parse s with
      | None => toISOString now
      | Some t => toISOString t
      end
  end.

(** The three title patterns of [extractCompany].  Under the [i] flag
    [[A-Z]] matches a letter of either case. *)
Definition company_name : regex :=
  Grp (Seq (Chr is_alpha)
         (plus false
            (Chr (fun c => is_alpha c || is_space c || (c =? 38)%N
                           || (c =? 46)%N)))).

Definition company_end : regex :=
  Alt (Seq (Star true space)
         (Chr (fun c => (c =? 45)%N || (c =? 8211)%N || (c =? 8212)%N)))
      (Seq (Star true space) Eol).

Definition company_patterns : list regex :=
  [ seqs [liti (js "at"); plus true space; company_name; company_end];
    seqs [ch 124; Star true space; company_name; company_end];
    seqs [ch 45; Star true space; company_name; company_end] ].

Fixpoint first_company (patterns : list regex) (title : jsstring)
  : option jsstring :=
  match patterns with
  | [] => None
  | pattern :: patterns' =>
      match match1 pattern title with
      | Some (c :: g) =>
          if length (c :: g) <? 50 then Some (trim (c :: g))
          else first_company patterns' title
      | _ => first_company patterns' title
      end
  end.

Definition extractCompany (title description : jsstring)
  : option jsstring :=
  first_company company_patterns title.

Definition isBeginnerFriendly (title description : jsstring)
  (tags : list jsstring) : bool :=
  let text :=
    toLowerCase (title ++ js " " ++ description ++ js " "
                 ++ join (js " ") tags) in
  let hasBeginnerKeywords :=
    existsb (fun keyword => includes text (toLowerCase keyword))
      BEGINNER_KEYWORDS in
  let hasSeniorKeywords :=
    existsb (fun keyword => includes text (toLowerCase keyword))
      SENIOR_KEYWORDS in
  hasBeginnerKeywords || negb hasSeniorKeywords.

Definition categorizeJob (title description : jsstring)
  (tags : list jsstring) : jsstring :=
  let text :=
    toLowerCase (title ++ js " " ++ description ++ js " "
                 ++ join (js " ") tags) in
  if test (pattern true "customer.service|support|help.?desk|customer.success") text
  then js "customer-service"
  else if test (pattern true "marketing|social.media|seo|content.marketing|digital.marketing") text
  then js "marketing"
  else if test (pattern true "sales|account.manager|business.development|sdr|bdr") text
  then js "sales"
  else if test (pattern true "writer|content|copywriter|editor|blog|technical.writer") text
  then js "writing"
  else if test (pattern true "design|ui|ux|graphic|visual|figma|sketch") text
  then js "design"
  else if test (pattern true "developer|programmer|engineer|coding|software|frontend|backend") text
  then js "development"
  else if test (pattern true "data|analyst|analytics|sql|excel|tableau|bi") text
  then js "data"
  else if test (pattern true "virtual.assistant|va|admin|assistant|administrative") text
  then js "virtual-assistant"
  else if test (pattern true "project.manager|coordinator|scrum|agile|project.coordinator") text
  then js "project-management"
  else js "other".

Definition generateTags (title description category : jsstring)
  : list jsstring :=
  let text := toLowerCase (title ++ js " " ++ description) in
  let tags := [] in
  let tags :=
    if existsb (fun keyword => includes text (toLowerCase keyword))
         BEGINNER_KEYWORDS
    then tags ++ [js "entry-level"] else tags in
  let tags :=
    if test (pattern true "junior|1-2.years") text
    then tags ++ [js "junior"] else tags in
  let tags :=
    if test (pattern true "part.?time|parttime") text
    then tags ++ [js "part-time"]
    else if test (pattern true "contract|contractor|freelance") text
    then tags ++ [js "contract"]
    else if test (pattern true "intern|internship") text
    then tags ++ [js "internship"]
    else tags ++ [js "full-time"] in
  let tags :=
    if test (pattern true "remote|anywhere|global|distributed") text
    then tags ++ [js "remote"] else tags in
  let tags :=
    if bool_decide (category ≠ js "other")
    then tags ++ [category] else tags in
  let tags :=
    if test (pattern true "no.experience|entry.level|beginner") text
    then tags ++ [js "no-experience"] else tags in
  slice0 6 tags.

(** [/<item>([\s\S]*?)<\/item>/gi]. *)
Definition itemRe : regex :=
  seqs [liti (js "<item>"); Grp (Star false any); liti (js "</item>")].

Definition categoryRe : regex :=
  seqs [liti (js "<category"); Star true (notch 62); ch 62;
        Grp (Star false any); liti (js "</category>")].

(** [pick(tag)] inside [rssToItems]:
    [(block.match(new RegExp(`<${tag}[^>]*>([\s\S]*?)<\/${tag}>`, 'i')) || [])[1] || '']. *)
Definition pick (block : jsstring) (tag : string) : jsstring :=
  default []
    (match1 (seqs [liti (js "<" ++ js tag); Star true (notch 62); ch 62;
                   Grp (Star false any); liti (js "</" ++ js tag ++ js ">")])
       block).

(** The body of the [while] loop of [rssToItems] for one item block:
    [None] is [continue], [Some] the record pushed.  [now] is the clock
    reading while the block is processed. *)
Definition item_of (now : Z) (sourceName block : jsstring) : option Job :=
  let title := strip (Some (pick block "title")) in
  let link :=
    orElse (orElse (strip (Some (pick block "link")))
              (strip (Some (pick block "guid")))) [] in
  let link := replace_first (seqs [ch 63; Star true dot; Eol]) [] link in
  if negb (startsWith link (js "http")) then None else
  let pubDate :=
    parseDate now (orElse (strip (Some (pick block "pubDate")))
                     (strip (Some (pick block "date")))) in
  let description :=
    strip (Some (orElse (orElse (pick block "description")
                           (pick block "content:encoded"))
                   (pick block "summary"))) in
  let rssCategories :=
    map (fun m => strip (m_group m)) (matchAll categoryRe block) in
  if bool_decide (title = []) || bool_decide (link = []) then None else
  if negb (isBeginnerFriendly title description rssCategories) then None else
  let company := extractCompany title description in
  let category := categorizeJob title description rssCategories in
  let tags := generateTags title description category in
  Some {| title := title;
          company := company;
          source := sourceName;
          source_url := link;
          posted_at := pubDate;
          tags := tags;
          location := js "Remote";
          excerpt := slice0 200 description;
          category := Some category |}.

(** [rssToItems(xml, sourceName)]; [now i] is the clock reading while the
    [i]-th item block is processed. *)
Definition rssToItems (now : nat -> Z) (xml sourceName : jsstring)
  : list Job :=
  match xml with
  | [] => []
  | _ :: _ =>
      omap id
        (imap (fun i m => item_of (now i) sourceName (default [] (m_group m)))
           (matchAll itemRe xml))
  end.

(** The key [dedupe] hashes for a record. *)
Definition dedupe_text (j : Job) : jsstring :=
  let normalizedTitle :=
    trim (replace_all (plus true space) (js " ") (toLowerCase (title j))) in
  let normalizedCompany :=
    trim (replace_all (plus true space) (js " ")
            (toLowerCase (default [] (company j)))) in
  normalizedTitle ++ js "|" ++ normalizedCompany ++ js "|" ++ source_url j.

Definition dedupe_key (j : Job) : jsstring := md5_hex (dedupe_text j).

(** [items.filter(...)] of [dedupe], with the set [seen] it updates. *)
Fixpoint dedupe_filter (seen : gset (list N)) (items : list Job)
  : list Job :=
  match items with
  | [] => []
  | j :: items' =>
      let key := dedupe_key j in
      if decide (key ∈ seen) then dedupe_filter seen items'
      else j :: dedupe_filter ({[key]} ∪ seen) items'
  end.

Definition dedupe (items : list Job) : list Job := dedupe_filter ∅ items.

(** [new Date(b.posted_at) - new Date(a.posted_at)]: NaN as soon as one
    of the two dates is invalid. *)
Definition by_date_desc (a b : Job) : option Z :=
  tb ← Date_parse (posted_at b);
  ta ← Date_parse (posted_at a);
  Some (tb - ta)%Z.

Definition sortAndLimit (jobs : list Job) : list Job :=
  slice0 2000 (sort by_date_desc jobs).

(** What a run of [main] reads from outside: the network, the clock while
    item [i] of source [s] is processed, and the clock when the payload is
    built. *)
Record World : Type := {
  fetch : jsstring -> fetch_outcome;
  clock : nat -> nat -> Z;
  clock_end : Z
}.

(** The [for (const src of SOURCES)] loop of [main]; [i] numbers the
    source. *)
Fixpoint collect (w : World) (i : nat) (srcs : list Source)
  (allJobs : list Job) : list Job :=
  match srcs with
  | [] => allJobs
  | src :: srcs' =>
      match safeFetch (fetch w) (url src) with
      | None | Some [] => collect w (S i) srcs' allJobs
      | Some body =>
          let items :=
            if bool_decide (type src = js "rss")
            then rssToItems (clock w i) body (name src) else [] in
          collect w (S i) srcs' (allJobs ++ items)
      end
  end.

(** [main] up to the payload it serialises; comparing with the file on
    disk and writing it come after. *)
Definition main (w : World) : Payload :=
  let allJobs := collect w 0 SOURCES [] in
  let jobs := dedupe allJobs in
  let jobs := sortAndLimit jobs in
  {| updated_at := toISOString (clock_end w);
     total_jobs := length jobs;
     sources := map name SOURCES;
     jobs := jobs |}.
End WithHost.
End Curated.

(** ** The revision that tags inline *)

Module Simple.
Section WithHost.
Context `{Host}.

(** [strip(html = '')]; [None] is [undefined]. *)
Definition strip (html : option jsstring) : jsstring :=
  let s0 := default [] html in
  let s1 := replace_all (Alt (lit (js "<![CDATA[")) (lit (js "]]>"))) [] s0 in
  let s2 := replace_all (seqs [ch 60; plus true (notch 62); ch 62]) (js " ") s1 in
  let s3 := replace_all (plus true space) (js " ") s2 in
  let s4 := replace_all (lit (js "&amp;")) (js "&") s3 in
  let s5 := replace_all (lit (js "&lt;")) (js "<") s4 in
  let s6 := replace_all (lit (js "&gt;")) (js ">") s5 in
  let s7 := replace_all (lit (js "&quot;")) [34%N] s6 in
  let s8 := replace_all (lit (js "&#39;")) (js "'") s7 in
  let s9 := replace_all (lit (js "&nbsp;")) (js " ") s8 in
  let s10 := replace_all (lit (js "&mdash;")) [8212%N] s9 in
  let s11 := replace_all (lit (js "&ndash;")) [8211%N] s10 in
  let s12 := replace_all (lit (js "&hellip;")) (js "...") s11 in
  trim s12.

Definition itemRe : regex :=
  seqs [liti (js "<item>"); Grp (Star false any); liti (js "</item>")].

Definition pick (block : jsstring) (tag : string) : jsstring :=
  default []
    (match1 (seqs [liti (js "<" ++ js tag); Star true (notch 62); ch 62;
                   Grp (Star false any); liti (js "</" ++ js tag ++ js ">")])
       block).

(** [/\b(alternatives)\b/], no flag. *)
Definition word_of (alternatives : string) : regex :=
  seqs [Wordb; Grp (pattern false alternatives); Wordb].

(** The tags the loop body pushes for [fullText]. *)
Definition tags_of (fullText : jsstring) : list jsstring :=
  let tags := [] in
  let tags :=
    if test (word_of "entry|junior|jr|associate|intern|trainee|graduate|new grad|no experience|beginner") fullText
    then tags ++ [js "entry-level"] else tags in
  let tags :=
    if test (word_of "junior|jr|1-2 years") fullText
    then tags ++ [js "junior"] else tags in
  let tags :=
    if test (word_of "senior|sr|lead|principal|staff|experienced|expert") fullText
    then tags ++ [js "senior"] else tags in
  let tags :=
    if test (word_of "part.time|parttime") fullText
    then tags ++ [js "part-time"]
    else if test (word_of "contract|freelance|consultant") fullText
    then tags ++ [js "contract"]
    else if test (word_of "intern|internship") fullText
    then tags ++ [js "internship"]
    else tags ++ [js "full-time"] in
  tags ++ [js "remote"].

(** [cleanExcerpt] of the loop body. *)
Definition excerpt_of (description : jsstring) : jsstring :=
  let cleanExcerpt :=
    slice0 150 (trim (replace_all (plus true space) (js " ") description)) in
  if 150 <? length description then cleanExcerpt ++ js "..."
  else cleanExcerpt.

(** The loop body for one item block: [Normal None] is [continue],
    [Normal (Some j)] the record pushed; [toISOString] throws on an
    invalid date. *)
Definition item_of (now : Z) (sourceName block : jsstring)
  : completion (option Job) :=
  let title := strip (Some (pick block "title")) in
  let link :=
    orElse (orElse (strip (Some (pick block "link")))
              (strip (Some (pick block "guid")))) [] in
  let pubDate :=
    orElse (orElse (pick block "pubDate") (pick block "date"))
      (toISOString now) in
  let description :=
    strip (Some (orElse (pick block "description") (pick block "summary"))) in
  if bool_decide (title = []) || bool_decide (link = []) then Normal None
  else
    let fullText := toLowerCase (title ++ js " " ++ description) in
    let tags := tags_of fullText in
    let cleanExcerpt := excerpt_of description in
    match Date_parse pubDate with
    | None => Throw (RangeError (js "Invalid time value"))
    | Some t =>
        Normal (Some {| title := title;
                        company := None;
                        source := sourceName;
                        source_url := link;
                        posted_at := toISOString t;
                        tags := tags;
                        location := js "Remote";
                        excerpt := cleanExcerpt;
                        category := None |})
    end.

(** The [while] loop of [rssToItems] over the item matches still to
    come; [i] numbers the block, [items] is the array built so far. *)
Fixpoint items_loop (now : nat -> Z) (sourceName : jsstring) (i : nat)
  (matches : list rmatch_result) (items : list Job)
  : completion (list Job) :=
  match matches with
  | [] => Normal items
  | m :: matches' =>
      match item_of (now i) sourceName (default [] (m_group m)) with
      | Throw e => Throw e
      | Normal None => items_loop now sourceName (S i) matches' items
      | Normal (Some j) =>
          items_loop now sourceName (S i) matches' (items ++ [j])
      end
  end.

Definition rssToItems (now : nat -> Z) (xml sourceName : jsstring)
  : completion (list Job) :=
  match xml with
  | [] => Normal []
  | _ :: _ => items_loop now sourceName 0 (matchAll itemRe xml) []
  end.

Definition dedupe_text (j : Job) : jsstring :=
  title j ++ js "|" ++ source_url j.

Definition dedupe_key (j : Job) : jsstring := md5_hex (dedupe_text j).

Fixpoint dedupe_filter (seen : gset (list N)) (items : list Job)
  : list Job :=
  match items with
  | [] => []
  | j :: items' =>
      let key := dedupe_key j in
      if decide (key ∈ seen) then dedupe_filter seen items'
      else j :: dedupe_filter ({[key]} ∪ seen) items'
  end.

Definition dedupe (items : list Job) : list Job := dedupe_filter ∅ items.

(** An entry of [SOURCES]; in this revision it has a name and a URL. *)
Record Source : Type := {
  name : jsstring;
  url : jsstring
}.

Definition SOURCES : list Source :=
  [ {| name := js "Remote OK"; url := js "https://remoteok.com/rss" |};
    {| name := js "We Work Remotely";
       url := js "https://weworkremotely.com/remote-jobs.rss" |};
    {| name := js "Jobicy"; url := js "https://jobicy.com/feed" |};
    {| name := js "Himalayas"; url := js "https://himalayas.app/jobs/rss" |};
    {| name := js "Remote.co";
       url := js "https://remote.co/remote-jobs/feed/" |} ].

(** [safeFetch]: every failure of the request is caught and becomes
    [null]. *)
Definition safeFetch (fetch : jsstring -> fetch_outcome) (url : jsstring)
  : option jsstring :=
  match fetch url with
  | Rejected _ => None
  | Responded res => if ok res then body res else None
  end.

(** [new Date(b.posted_at) - new Date(a.posted_at)]. *)
Definition by_date_desc (a b : Job) : option Z :=
  tb ← Date_parse (posted_at b);
  ta ← Date_parse (posted_at a);
  Some (tb - ta)%Z.

(** The [for (const src of SOURCES)] loop of [main]; [i] numbers the
    source.  An exception of [rssToItems] is not caught here. *)
Fixpoint collect (w : Curated.World) (i : nat) (srcs : list Source)
  (allJobs : list Job) : completion (list Job) :=
  match srcs with
  | [] => Normal allJobs
  | src :: srcs' =>
      match safeFetch (Curated.fetch w) (url src) with
      | None | Some [] => collect w (S i) srcs' allJobs
      | Some body =>
          match rssToItems (Curated.clock w i) body (name src) with
          | Throw e => Throw e
          | Normal items => collect w (S i) srcs' (allJobs ++ items)
          end
      end
  end.

(** [main] up to the payload it writes; [Throw] is the rejection that
    [main().catch(console.error)] logs, no file being written. *)
Definition main (w : Curated.World) : completion Payload :=
  match collect w 0 SOURCES [] with
  | Throw e => Throw e
  | Normal allJobs =>
      let jobs := dedupe allJobs in
      let jobs := sort by_date_desc jobs in
      Normal {| updated_at := toISOString (Curated.clock_end w);
                total_jobs := length jobs;
                sources := map name SOURCES;
                jobs := jobs |}
  end.
End WithHost.
End Simple.

(** ** The revision with per-source parsers and the manual redirect loop *)

Module Hybrid.

(** The record [parseGenericRSS] returns for an item. *)
Record Job : Type := {
  source : jsstring;
  source_url : jsstring;
  title : jsstring;
  company : jsstring;
  location : jsstring;
  remote_type : jsstring;
  tags : list jsstring;
  salary : jsstring;
  posted_at : jsstring
}.

(** What [fetchText] does to the outside, in order. *)
Inductive event : Type :=
| Request (url : jsstring)
| Sleep (ms : Z).

(** Matching on a value while keeping the equation. *)
Definition inspect {A : Type} (x : A) : { y : A | x = y } := exist _ x eq_refl.

Section WithHost.
Context `{Host}.

(** [new URL(input, base).toString()], [None] when the constructor throws;
    the WHATWG URL parser belongs to the host. *)
Variable URL : jsstring -> option jsstring -> option jsstring.

Definition stripTags (s : jsstring) : jsstring :=
  replace_all (seqs [ch 60; Star true (notch 62); ch 62]) [] s.

Definition decodeHTML (s : jsstring) : jsstring :=
  replaceAll_str (js "&#39;") (js "'")
    (replaceAll_str (js "&quot;") [34%N]
       (replaceAll_str (js "&gt;") (js ">")
          (replaceAll_str (js "&lt;") (js "<")
             (replaceAll_str (js "&amp;") (js "&") s)))).

(** [get(tag)] inside [parseGenericRSS], on the text [it0] of one item. *)
Definition get (it0 : jsstring) (tag : string) : jsstring :=
  match match1 (seqs [liti (js "<" ++ js tag ++ js ">");
                      Grp (Star false any);
                      liti (js "</" ++ js tag ++ js ">")]) it0 with
  | Some m1 => decodeHTML (stripTags (trim m1))
  | None => []
  end.

(** The [for (const sep of ...)] loop: the first separator the title
    contains decides. *)
Fixpoint company_of_title (seps : list jsstring) (title : jsstring)
  : jsstring :=
  match seps with
  | [] => []
  | sep :: seps' =>
      if includes title sep then trim (split_head title sep)
      else company_of_title seps' title
  end.

Definition item_of (sourceName it0 : jsstring) : Job :=
  let title := get it0 "title" in
  let link := get it0 "link" in
  let pub :=
    orElse (orElse (orElse (get it0 "pubDate") (get it0 "updated"))
              (get it0 "dc:date")) [] in
  let desc := orElse (get it0 "description") [] in
  let company :=
    company_of_title [[32; 8211; 32]%N; [32; 8212; 32]%N; js " - "] title in
  let company :=
    match company with
    | [] =>
        match match1 (seqs [liti (js "<strong>"); Grp (Star false dot);
                            liti (js "</strong>")]) desc with
        | Some m1 => trim (stripTags m1)
        | None => company
        end
    | _ :: _ => company
    end in
  {| source := sourceName;
     source_url := link;
     title := title;
     company := company;
     location := [];
     remote_type := js "remote";
     tags := [];
     salary := [];
     posted_at := pub |}.

Definition parseGenericRSS (xml sourceName : jsstring) : list Job :=
  let items :=
    matchAll (seqs [lit (js "<item>"); Star false any; lit (js "</item>")])
      xml in
  map (fun it => item_of sourceName
                   (take (m_length it) (drop (m_index it) xml)))
    items.

(** [fetchText(url, depth = 0)].  [net d u] is what the request issued at
    depth [d] for [u] yields: every call issues one request and every
    recursive call is one level deeper, so the depth numbers the requests
    of one top-level call.  The result comes with the requests and delays
    in the order they happen. *)
Equations fetchText (net : nat -> jsstring -> fetch_outcome)
  (url : jsstring) (depth : nat)
  : list event * completion jsstring by wf (7 - depth) lt :=
fetchText net url depth with URL url None := {
  | None => ([], Throw (TypeError (js "Invalid URL")));
  | Some _ with net depth url := {
    | Rejected message => ([Request url], Throw (TypeError message));
    | Responded res
      with inspect (bool_decide (status res ∈ [301; 302; 307; 308]%Z)) := {
      | exist _ true _ with header_location res := {
        | None =>
            ([Request url],
             Throw (Error (js "Redirect with no Location header for "
                           ++ url)));
        | Some [] =>
            ([Request url],
             Throw (Error (js "Redirect with no Location header for "
                           ++ url)));
        | Some loc with URL loc (Some url) := {
          | None => ([Request url], Throw (TypeError (js "Invalid URL")));
          | Some next with inspect (5 <? depth) := {
            | exist _ true _ =>
                ([Request url],
                 Throw (Error (js "Too many redirects for " ++ url)));
            | exist _ false Hdepth =>
                let '(evs, r) := fetchText net next (S depth) in
                (Request url :: evs, r) } } };
      | exist _ false _
        with inspect (bool_decide (status res = 403%Z)
                      && bool_decide (depth = 0)) := {
        | exist _ true Hretry =>
            let '(evs, r) := fetchText net url (S depth) in
            (Request url :: Sleep 500 :: evs, r);
        | exist _ false _ with ok res := {
          | false =>
              ([Request url],
               Throw (Error (js "Fetch failed " ++ url ++ js ": "
                             ++ decimal (status res))));
          | true with body res := {
            | Some text => ([Request url], Normal text);
            | None => ([Request url], Throw (TypeError (js "terminated")))
            } } } } } }.
Next Obligation. apply Nat.ltb_ge in Hdepth. lia. Qed.
Next Obligation.
  apply andb_true_iff in Hretry as [_ Hz].
  apply bool_decide_eq_true in Hz. subst. lia.
Qed.

(** [toTs] of [main]: [Date.parse(d || '')], or [now] when that is not
    finite. *)
Definition toTs (now : Z) (d : jsstring) : Z :=
  default now (Date_parse (orElse d [])).

(** [deduped.sort((a, b) => toTs(b.posted_at) - toTs(a.posted_at))]. *)
Definition newest_first (now : Z) (deduped : list Job) : list Job :=
  sort (fun a b => Some (toTs now (posted_at b) - toTs now (posted_at a))%Z)
    deduped.

(** [makeHash(job)]. *)
Definition makeHash (job : Job) : jsstring :=
  let base :=
    orElse (title job) [] ++ orElse (company job) []
    ++ orElse (source_url job) [] in
  sha1_hex (toLowerCase base).

(** [tagJob(job)]: the record with its new [tags]. *)
Definition tagJob (job : Job) : Job :=
  let t := [] in
  let title := toLowerCase (orElse (title job) []) in
  let t :=
    if test (alts [lit (js "support"); lit (js "customer");
                   seqs [lit (js "help"); opt space; lit (js "desk")]]) title
    then t ++ [js "Customer Support"] else t in
  let t :=
    if test (pattern false "assistant|va|virtual assistant") title
    then t ++ [js "Virtual Assistant"] else t in
  let t :=
    if test (seqs [lit (js "data"); opt space; lit (js "entry")]) title
    then t ++ [js "Data Entry"] else t in
  let t :=
    if test (pattern false "social|content|community|copy|writer") title
    then t ++ [js "Social / Content"] else t in
  let t :=
    if test (seqs [lit (js "project"); opt space;
                   Grp (pattern false "coordinator|manager|pm")]) title
    then t ++ [js "Project Coord/PM (Jr)"] else t in
  {| source := source job;
     source_url := source_url job;
     title := Hybrid.title job;
     company := company job;
     location := location job;
     remote_type := remote_type job;
     tags := array_from_set (tags job ++ t);
     salary := salary job;
     posted_at := posted_at job |}.

(** [fetchJSON(url)]: one request, redirects being followed by the host. *)
Definition fetchJSON (fetch : jsstring -> fetch_outcome) (url : jsstring)
  : list event * completion jsstring :=
  match URL url None with
  | None => ([], Throw (TypeError (js "Invalid URL")))
  | Some _ =>
      match fetch url with
      | Rejected message => ([Request url], Throw (TypeError message))
      | Responded res =>
          if ok res then
            match body res with
            | Some text => ([Request url], Normal text)
            | None => ([Request url], Throw (TypeError (js "terminated")))
            end
          else ([Request url],
                Throw (Error (js "Fetch failed " ++ url ++ js ": "
                              ++ decimal (status res))))
      end
  end.

(** The loop of [main] that removes duplicates; [j.hash] is
    [makeHash(j)]. *)
Fixpoint dedupe_loop (seen : gset (list N)) (deduped all : list Job)
  : list Job :=
  match all with
  | [] => deduped
  | j :: all' =>
      if decide (makeHash j ∈ seen) then dedupe_loop seen deduped all'
      else dedupe_loop ({[makeHash j]} ∪ seen) (deduped ++ [j]) all'
  end.
End WithHost.
End Hybrid.

(** * The vocabulary of the statements *)

(** The categories [categorizeJob] can return. *)
Definition CATEGORIES : list jsstring :=
  map js ["customer-service"; "marketing"; "sales"; "writing"; "design";
          "development"; "data"; "virtual-assistant"; "project-management";
          "other"].

(** The job types [generateTags] chooses from. *)
Definition JOB_TYPES : list jsstring :=
  map js ["part-time"; "contract"; "internship"; "full-time"].

(** The description the loop body computes for an item block. *)
Definition curated_description (block : jsstring) : jsstring :=
  Curated.strip
    (Some (orElse (orElse (Curated.pick block "description")
                     (Curated.pick block "content:encoded"))
             (Curated.pick block "summary"))).

(** The description the loop body computes for an item block. *)
Definition simple_description (block : jsstring) : jsstring :=
  Simple.strip
    (Some (orElse (Simple.pick block "description")
             (Simple.pick block "summary"))).

(** What a record of the final collection must satisfy. *)
Definition valid_record (r : Job) : Prop :=
  title r <> [] /\
  startsWith (source_url r) (js "http") = true /\
  (exists t, posted_at r = toISOString t) /\
  NoDup (tags r) /\
  length (tags r) <= 6.

(** What the source numbered [i] adds to [allJobs]. *)
Definition contribution `{Host} (w : Curated.World) (i : nat) (src : Source)
  : list Job :=
  match Curated.safeFetch (Curated.fetch w) (url src) with
  | None | Some [] => []
  | Some body =>
      if bool_decide (type src = js "rss")
      then Curated.rssToItems (Curated.clock w i) body (name src) else []
  end.

(** Filtering on a key with the set of keys seen so far: what both
    revisions of [dedupe] do, for their own key. *)
Fixpoint dedupe_by {A : Type} (key : A -> jsstring) (seen : gset (list N))
  (items : list A) : list A :=
  match items with
  | [] => []
  | j :: items' =>
      if decide (key j ∈ seen) then dedupe_by key seen items'
      else j :: dedupe_by key ({[key j]} ∪ seen) items'
  end.

(** What [dedupe] does for the key it hashes: the result is the input with
    records removed, no key is left twice, every key of the input is still
    there, and a record is dropped exactly when its key occurs before it. *)
Definition keeps_first_of_each_key {A : Type} (key : A -> jsstring)
  (dedupe : list A -> list A) : Prop :=
  (forall items, dedupe items `sublist_of` items) /\
  (forall items, NoDup (key <$> dedupe items)) /\
  (forall items j, j ∈ items -> key j ∈ key <$> dedupe items) /\
  (forall l j, key j ∈ key <$> l -> dedupe (l ++ [j]) = dedupe l) /\
  (forall l j, key j ∉ key <$> l -> dedupe (l ++ [j]) = dedupe l ++ [j]).

(** The form [dedupe] of the filtered revision brings titles and companies
    to before it compares them. *)
Definition normalized `{Host} (s : jsstring) : jsstring :=
  trim (replace_all (plus true space) (js " ") (toLowerCase s)).

(** Earlier in the array means not older; [ts] gives the time a record is
    sorted by. *)
Definition not_older {A : Type} (ts : A -> Z) (x y : A) : Prop :=
  (ts y <= ts x)%Z.

(** On the records of [l] the comparator is [ts y - ts x]. *)
Definition by_ts_on {A : Type} (ts : A -> Z)
  (comparefn : A -> A -> option Z) (l : list A) : Prop :=
  forall x y, x ∈ l -> y ∈ l -> comparefn x y = Some (ts y - ts x)%Z.

(** The time [sortAndLimit] reads off a record. *)
Definition time_of `{Host} (j : Job) : Z :=
  default 0%Z (Date_parse (posted_at j)).

(** The statuses [fetchText] follows as redirects. *)
Definition REDIRECTS : list Z := [301; 302; 307; 308]%Z.

(** The URLs requested and the delays waited, in order. *)
Definition requested (evs : list Hybrid.event) : list jsstring :=
  omap (fun e => match e with Hybrid.Request u => Some u | _ => None end) evs.

Definition delays (evs : list Hybrid.event) : list Z :=
  omap (fun e => match e with Hybrid.Sleep ms => Some ms | _ => None end) evs.

(** The code unit before the position reached after [x]. *)
Fixpoint last_seen (prev : option N) (x : jsstring) : option N :=
  match x with
  | [] => prev
  | c :: x' => last_seen (Some c) x'
  end.

(** Every match of [r] begins with a code unit that satisfies [P]. *)
Fixpoint starts_in (r : regex) (P : N -> bool) : Prop :=
  match r with
  | Chr q => forall c, q c = true -> P c = true
  | Seq r1 _ => starts_in r1 P
  | Alt r1 r2 => starts_in r1 P /\ starts_in r2 P
  | Grp r1 => starts_in r1 P
  | _ => False
  end.

(** Two strings that differ at a position both have. *)
Fixpoint mismatch (e p : jsstring) : bool :=
  match e, p with
  | a :: e', b :: p' => negb (a =? b)%N || mismatch e' p'
  | _, _ => false
  end.

(** The entities the sanitizer of the inline-tagging revision decodes, with
    the text each one becomes; the filtered revision decodes the first
    five. *)
Definition ENTITIES : list (jsstring * jsstring) :=
  [ (js "&amp;", js "&"); (js "&lt;", js "<"); (js "&gt;", js ">");
    (js "&quot;", [34%N]); (js "&#39;", js "'"); (js "&nbsp;", js " ");
    (js "&mdash;", [8212%N]); (js "&ndash;", [8211%N]);
    (js "&hellip;", js "...") ].

(** Text without markup: no [<], no []], no [&], no [;], no white space. *)
Definition plain_char (c : N) : bool :=
  negb ((60 =? c)%N || (93 =? c)%N || (38 =? c)%N || (59 =? c)%N
        || is_space c).

Definition plain (s : jsstring) : Prop :=
  Forall (fun c => plain_char c = true) s.

(** ** The vocabulary of the further properties *)

(** What [rmatch] explores, as a relation: [matches r st st'] when [r] can
    match from the state [st] and leave the state [st']. *)
Inductive matches : regex -> mstate -> mstate -> Prop :=
| matches_eps st : matches Eps st st
| matches_chr p c prev s cap :
    p c = true ->
    matches (Chr p) (MState prev (c :: s) cap) (MState (Some c) s cap)
| matches_seq r1 r2 st1 st2 st3 :
    matches r1 st1 st2 -> matches r2 st2 st3 -> matches (Seq r1 r2) st1 st3
| matches_alt_l r1 r2 st st' : matches r1 st st' -> matches (Alt r1 r2) st st'
| matches_alt_r r1 r2 st st' : matches r2 st st' -> matches (Alt r1 r2) st st'
| matches_star_nil g r st : matches (Star g r) st st
| matches_star_more g r st1 st2 st3 :
    matches r st1 st2 -> matches (Star g r) st2 st3 ->
    matches (Star g r) st1 st3
| matches_grp r st st' :
    matches r st st' ->
    matches (Grp r) st
      (MState (m_prev st') (m_rest st')
         (Some (take (length (m_rest st) - length (m_rest st')) (m_rest st))))
| matches_eol prev cap : matches Eol (MState prev [] cap) (MState prev [] cap)
| matches_wordb st :
    xorb (word_at (m_prev st)) (word_at (head (m_rest st))) = true ->
    matches Wordb st st.

(** The loop of [rmatch] for a repetition, by itself. *)
Definition star_loop {A} (g : bool) (r : regex) (k : mstate -> option A)
  : nat -> mstate -> option A :=
  fix loop (n : nat) (st : mstate) {struct n} : option A :=
    let more :=
      match n with
      | O => None
      | S n' =>
          rmatch r st (fun st' =>
            if length (m_rest st') <? length (m_rest st)
            then loop n' st' else None)
      end in
    if g
    then match more with Some a => Some a | None => k st end
    else match k st with Some a => Some a | None => more end.

(** Every code unit a match of [r] consumes satisfies [Q]. *)
Fixpoint classes_in (r : regex) (Q : N -> Prop) : Prop :=
  match r with
  | Chr p => forall c, p c = true -> Q c
  | Seq r1 r2 | Alt r1 r2 => classes_in r1 Q /\ classes_in r2 Q
  | Star _ r1 | Grp r1 => classes_in r1 Q
  | Eps | Eol | Wordb => True
  end.

(** [r] has no capturing group. *)
Fixpoint no_group (r : regex) : Prop :=
  match r with
  | Grp _ => False
  | Seq r1 r2 | Alt r1 r2 => no_group r1 /\ no_group r2
  | Star _ r1 => no_group r1
  | Chr _ | Eps | Eol | Wordb => True
  end.

(** The only white space in [s] is the space U+0020. *)
Definition plain_spaces (s : jsstring) : Prop :=
  Forall (fun c => is_space c = true -> c = 32%N) s.

(** Neither the first nor the last code unit is white space. *)
Definition trimmed (s : jsstring) : Prop :=
  (forall c, head s = Some c -> is_space c = false) /\
  (forall c, last s = Some c -> is_space c = false).

(** No two white-space code units stand next to each other. *)
Fixpoint single_spaced (s : jsstring) : Prop :=
  match s with
  | a :: s' =>
      match s' with
      | b :: _ => (is_space a = true -> is_space b = false)
      | [] => True
      end /\ single_spaced s'
  | [] => True
  end.

(** Empty, or beginning with something else than white space. *)
Definition no_space_first (s : jsstring) : Prop :=
  forall c, head s = Some c -> is_space c = false.

(** No [<] is followed, anywhere later, by a [>]: the string has no
    substring of the form [/<[^>]*>/]. *)
Fixpoint tag_free (s : jsstring) : Prop :=
  match s with
  | [] => True
  | c :: s' => (c = 60%N -> 62%N ∉ s') /\ tag_free s'
  end.

(** [/\?.*$/], the pattern that cuts the query string off a link. *)
Definition query : regex := seqs [ch 63; Star true dot; Eol].

(** [/<[^>]*>/], the pattern of [stripTags]. *)
Definition tagRe : regex := seqs [ch 60; Star true (notch 62); ch 62].

(** The class [[a-zA-Z\s&.]] of the company patterns. *)
Definition company_char (c : N) : bool :=
  is_alpha c || is_space c || (c =? 38)%N || (c =? 46)%N.

(** The title, the link and the date the loop body of the inline-tagging
    revision computes for an item block. *)
Definition simple_title (block : jsstring) : jsstring :=
  Simple.strip (Some (Simple.pick block "title")).

Definition simple_link (block : jsstring) : jsstring :=
  orElse (orElse (Simple.strip (Some (Simple.pick block "link")))
            (Simple.strip (Some (Simple.pick block "guid")))) [].

Definition simple_pubDate (now : Z) (block : jsstring) : jsstring :=
  orElse (orElse (Simple.pick block "pubDate") (Simple.pick block "date"))
    (toISOString now).

(** What [toISOString] throws on an invalid date. *)
Definition invalid_time : exn := RangeError (js "Invalid time value").

(** ** Item blocks, dates and entities *)

(** The item blocks of a feed, in order: what the group of [itemRe]
    captures at each match. *)
Definition blocks_of (itemRe : regex) (xml : jsstring) : list jsstring :=
  map (fun m => default [] (m_group m)) (matchAll itemRe xml).

(** The title and the categories the loop body of the filtered revision
    computes for an item block. *)
Definition curated_title (block : jsstring) : jsstring :=
  Curated.strip (Some (Curated.pick block "title")).

Definition curated_categories (block : jsstring) : list jsstring :=
  map (fun m => Curated.strip (m_group m)) (matchAll Curated.categoryRe block).

(** The text [isBeginnerFriendly] and [categorizeJob] search for an item
    block. *)
Definition curated_text `{Host} (block : jsstring) : jsstring :=
  toLowerCase (curated_title block ++ js " " ++ curated_description block
               ++ js " " ++ join (js " ") (curated_categories block)).

(** The time a date text stands for, and [now] when it stands for
    none. *)
Definition time_or `{Host} (now : Z) (d : jsstring) : Z :=
  default now (Date_parse d).

(** The date text the loop body of the filtered revision hands to
    [parseDate] for an item block. *)
Definition curated_pubDate (block : jsstring) : jsstring :=
  orElse (Curated.strip (Some (Curated.pick block "pubDate")))
    (Curated.strip (Some (Curated.pick block "date"))).

(** [Date.parse] reads back what [toISOString] prints for the time value
    [t], as ECMA-262 requires of every time value. *)
Definition reads_iso `{Host} (t : Z) : Prop :=
  Date_parse (toISOString t) = Some t.

(** Year of era, month and day of a day of era, and back: the inner parts
    of [civil_of_days] and [days_of_civil]. *)
Definition civil_of_doe (doe : Z) : Z * Z * Z :=
  let yoe := ((doe - doe / 1460 + doe / 36524 - doe / 146096) / 365)%Z in
  let doy := (doe - (365 * yoe + yoe / 4 - yoe / 100))%Z in
  let mp := ((5 * doy + 2) / 153)%Z in
  let d := (doy - (153 * mp + 2) / 5 + 1)%Z in
  let m := (if mp <? 10 then mp + 3 else mp - 9)%Z in
  (yoe, m, d).

Definition doe_of_civil (yoe m d : Z) : Z :=
  let doy := ((153 * (if 2 <? m then m - 3 else m + 9) + 2) / 5 + d - 1)%Z in
  (yoe * 365 + yoe / 4 - yoe / 100 + doy)%Z.

(** What holds of every day of an era of 400 years: the fields are in
    range, the day is found back, and the days from 146037 on are the
    January and February of the last year. *)
Definition doe_ok (doe : Z) : bool :=
  let '(yoe, m, d) := civil_of_doe doe in
  ((0 <=? yoe) && (yoe <=? 399) && (1 <=? m) && (m <=? 12)
   && (1 <=? d) && (d <=? 31) && (doe_of_civil yoe m d =? doe)
   && Bool.eqb (146037 <=? doe) ((yoe =? 399) && (m <=? 2)))%Z.

(** [doe_ok] on the [n] days from [doe] on. *)
Fixpoint doe_ok_from (n : nat) (doe : Z) : bool :=
  match n with
  | O => true
  | S n' => doe_ok doe && doe_ok_from n' (doe + 1)%Z
  end.

(** Decoding the entities [ents] as the specification words it: the input
    is read once from the left, an occurrence of an entity is replaced by
    its text, and every other code unit is kept.  [skip] counts the code
    units still covered by the occurrence in progress. *)
Fixpoint decode_scan (ents : list (jsstring * jsstring)) (s : jsstring)
  (skip : nat) : jsstring :=
  match s with
  | [] => []
  | c :: s' =>
      match skip with
      | S n => decode_scan ents s' n
      | O =>
          match find (fun ec => startsWith s ec.1) ents with
          | Some ec => ec.2 ++ decode_scan ents s' (pred (length ec.1))
          | None => c :: decode_scan ents s' 0
          end
      end
  end.

Definition decode_entities (ents : list (jsstring * jsstring))
  (s : jsstring) : jsstring :=
  decode_scan ents s 0.

(** The code units the names of the entities are made of: letters, digits,
    [#] and [;]. *)
Definition name_char (c : N) : bool :=
  is_alpha c || is_digit c || (c =? 35)%N || (c =? 59)%N.

(** An entity of [ents] other than the first, [&amp;], stands escaped in
    [s]: behind [&amp;] in place of its [&]. *)
Definition escaped_entity (ents : list (jsstring * jsstring))
  (s : jsstring) : bool :=
  existsb (fun ec => includes s (js "&amp;" ++ tail ec.1)) (tail ents).

(** The shape of the entities: each begins with [&] and goes on with name
    characters; its text begins with something else than a name character
    and is [&] or free of [&]. *)
Definition entities_shaped (ents : list (jsstring * jsstring)) : bool :=
  forallb (fun ec =>
    match ec.1, ec.2 with
    | a :: b, y :: r =>
        (a =? 38)%N && forallb name_char b && negb (name_char y)
        && (bool_decide (ec.2 = [38%N])
            || forallb (fun c => negb (38 =? c)%N) ec.2)
    | _, _ => false
    end) ents.

(** Every entity of [ents] differs from [e] at a position both have, so
    that they cannot begin at the same place. *)
Definition entities_apart (ents : list (jsstring * jsstring))
  (e : jsstring) : bool :=
  forallb (fun ec => mismatch ec.1 e) ents.

(** What the first three passes of [strip], the same in both revisions,
    leave of the input: the CDATA markers removed, every tag replaced by a
    space, every run of white space collapsed to one space. *)
Definition without_markup (s : jsstring) : jsstring :=
  replace_all (plus true space) (js " ")
    (replace_all (seqs [ch 60; plus true (notch 62); ch 62]) (js " ")
       (replace_all (Alt (lit (js "<![CDATA[")) (lit (js "]]>"))) [] s)).

(** * Concrete feeds, records and servers *)

Definition noon : Z := 1704110400000.

(** The item of the example scenario of the specification. *)
Definition support_feed : jsstring :=
  js "<rss><channel><item><title>Customer Support Rep</title><link>https://example.com/job/1?ref=abc</link><pubDate>Mon, 01 Jan 2024 00:00:00 GMT</pubDate><description>Entry level support role.</description></item></channel></rss>".

(** The same item with its date in the ISO format. *)
Definition support_feed_iso : jsstring :=
  js "<rss><channel><item><title>Customer Support Rep</title><link>https://example.com/job/1?ref=abc</link><pubDate>2024-01-01T00:00:00.000Z</pubDate><description>Entry level support role.</description></item></channel></rss>".

(** Two items with the same title and different descriptions. *)
Definition acme_feed_1 : jsstring :=
  js "<item><title>Support Agent at Acme</title><link>https://acme.example/1</link><description>Answer tickets.</description></item>".

Definition acme_feed_2 : jsstring :=
  js "<item><title>Support Agent at Acme</title><link>https://acme.example/2</link><description>Work for <strong>Globex</strong> on chat.</description></item>".

(** An item without title and link. *)
Definition untitled_feed : jsstring :=
  js "<rss><item><description>No title, no link.</description></item></rss>".

(** An item whose description is [n] letters long. *)
Definition long_feed (n : nat) : jsstring :=
  js "<item><title>Office Clerk</title><link>https://jobs.example/clerk</link><pubDate>2024-01-01T00:00:00.000Z</pubDate><description>"
  ++ repeat 97%N n ++ js "</description></item>".

Definition response_200 (text : jsstring) : Response :=
  {| status := 200; statusText := js "OK"; header_location := None;
     body := Some text |}.

Definition response_500 : Response :=
  {| status := 500; statusText := js "Internal Server Error";
     header_location := None; body := Some (js "oops") |}.

(** A run in which the first source answers with [support_feed], the second
    with [acme_feed_1], the third with status 500, and every other request
    is rejected. *)
Definition sample_world : Curated.World :=
  {| Curated.fetch := fun u =>
       if bool_decide (u = js "https://remoteok.com/rss")
       then Responded (response_200 support_feed)
       else if bool_decide (u = js "https://remote.co/remote-jobs/feed/")
       then Responded (response_200 acme_feed_1)
       else if bool_decide (u = js "https://jobicy.com/feed")
       then Responded response_500
       else Rejected (js "fetch failed");
     Curated.clock := fun _ _ => noon;
     Curated.clock_end := (noon + 60000)%Z |}.

Definition support_record : Job :=
  {| title := js "Customer Support Rep";
     company := None;
     source := js "Remote OK - All";
     source_url := js "https://example.com/job/1";
     posted_at := js "2024-01-01T12:00:00.000Z";
     tags := [js "entry-level"; js "full-time"; js "customer-service";
              js "no-experience"];
     location := js "Remote";
     excerpt := js "Entry level support role.";
     category := Some (js "customer-service") |}.

(** What the inline-tagging revision emits for [support_feed_iso]. *)
Definition simple_support_record : Job :=
  {| title := js "Customer Support Rep";
     company := None;
     source := js "Example";
     source_url := js "https://example.com/job/1?ref=abc";
     posted_at := js "2024-01-01T00:00:00.000Z";
     tags := [js "entry-level"; js "full-time"; js "remote"];
     location := js "Remote";
     excerpt := js "Entry level support role.";
     category := None |}.

Definition acme_record (n : string) (text : string) : Job :=
  {| title := js "Support Agent at Acme";
     company := Some (js "Acme");
     source := js "Remote.co - All";
     source_url := js "https://acme.example/" ++ js n;
     posted_at := js "2024-01-01T12:00:00.000Z";
     tags := [js "full-time"; js "customer-service"];
     location := js "Remote";
     excerpt := js text;
     category := Some (js "customer-service") |}.

(** Two postings of one job by two sources, the second with other case and
    spacing in the title. *)
Definition assistant_record (t : jsstring) (src link : string) : Job :=
  {| title := t;
     company := None;
     source := js src;
     source_url := js link;
     posted_at := js "2024-01-01T12:00:00.000Z";
     tags := [js "full-time"; js "remote"];
     location := js "Remote";
     excerpt := [];
     category := None |}.

Definition dated_record (t : string) (date : string) : Job :=
  {| title := js t;
     company := None;
     source := js "Jobicy - All";
     source_url := js "https://jobs.example/" ++ js t;
     posted_at := js date;
     tags := [js "full-time"];
     location := js "Remote";
     excerpt := [];
     category := Some (js "other") |}.

Definition clerk_record (text : jsstring) : Job :=
  {| title := js "Office Clerk";
     company := None;
     source := js "Jobicy";
     source_url := js "https://jobs.example/clerk";
     posted_at := js "2024-01-01T00:00:00.000Z";
     tags := [js "full-time"; js "remote"];
     location := js "Remote";
     excerpt := text;
     category := None |}.

(** A URL parser for locations that are absolute already. *)
Definition absolute (input : jsstring) (base : option jsstring)
  : option jsstring := Some input.

Definition response_of (code : Z) (loc : option jsstring) : Response :=
  {| status := code; statusText := []; header_location := loc;
     body := Some (js "<rss></rss>") |}.

(** A server that redirects the first six requests and then answers. *)
Definition six_redirects (d : nat) (u : jsstring) : fetch_outcome :=
  if d <? 6
  then Responded (response_of 302
                    (Some (js "https://mirror.example/" ++ decimal (Z.of_nat (S d)))))
  else Responded (response_of 200 None).

(** A server that answers 303 without a Location header. *)
Definition see_other (d : nat) (u : jsstring) : fetch_outcome :=
  Responded (response_of 303 None).

(** A server that answers 403, then redirects the retry, then answers. *)
Definition forbidden_then_moved (d : nat) (u : jsstring) : fetch_outcome :=
  match d with
  | 0 => Responded (response_of 403 None)
  | 1 => Responded (response_of 302 (Some (js "https://mirror.example/feed")))
  | _ => Responded (response_of 200 None)
  end.

(** A server that redirects, and answers 403 at the new address. *)
Definition moved_then_forbidden (d : nat) (u : jsstring) : fetch_outcome :=
  match d with
  | 0 => Responded (response_of 302 (Some (js "https://mirror.example/feed")))
  | _ => Responded (response_of 403 None)
  end.

(** A server that answers 403 every time. *)
Definition always_forbidden (d : nat) (u : jsstring) : fetch_outcome :=
  Responded (response_of 403 None).

(** A feed whose only item carries a date no parser reads. *)
Definition undated_feed : jsstring :=
  js "<item><title>Office Clerk</title><link>https://jobs.example/clerk</link><pubDate>next week</pubDate></item>".

(** A run in which every source answers with the given feed. *)
Definition same_feed_world (feed : jsstring) : Curated.World :=
  {| Curated.fetch := fun _ => Responded (response_200 feed);
     Curated.clock := fun _ _ => noon;
     Curated.clock_end := (noon + 60000)%Z |}.

(** A server that redirects every request. *)
Definition always_moved (d : nat) (u : jsstring) : fetch_outcome :=
  Responded (response_of 302 (Some (js "https://feed.example/again"))).

(** A record whose title contains the letters v, a. *)
Definition java_job : Hybrid.Job :=
  {| Hybrid.source := js "Working Nomads - All";
     Hybrid.source_url := js "https://jobs.example/java";
     Hybrid.title := js "Java Developer";
     Hybrid.company := js "Acme";
     Hybrid.location := [];
     Hybrid.remote_type := js "remote";
     Hybrid.tags := [js "backend"];
     Hybrid.salary := [];
     Hybrid.posted_at := js "2024-01-01T00:00:00.000Z" |}.

(** Two items: one dated in the ISO format, one with a date no parser
    reads. *)
Definition two_dates_feed : jsstring :=
  js "<item><title>Office Clerk</title><link>https://jobs.example/clerk</link><pubDate>2024-01-01T00:00:00.000Z</pubDate></item><item><title>Data Entry Clerk</title><link>https://jobs.example/entry</link><pubDate>next week</pubDate></item>".

(** * Properties *)

(** ** Records of the filtered revision *)

Section CuratedRecords.
Context `{Host}.

Lemma categorizeJob_closed (t d : jsstring) (cats : list jsstring) :
  Curated.categorizeJob t d cats ∈ CATEGORIES.
Proof.
  unfold Curated.categorizeJob, CATEGORIES.
  cbn [map].
  repeat (match goal with |- context [if ?b then _ else _] => destruct b end;
          [ repeat first [apply list_elem_of_here | apply list_elem_of_further]
          | ]).
  repeat first [apply list_elem_of_here | apply list_elem_of_further].
Qed.

(** Every record of [rssToItems] was pushed by the loop body for some item
    block. *)
Lemma curated_rssToItems_elem (now : nat -> Z) (xml src : jsstring) (r : Job) :
  r ∈ Curated.rssToItems now xml src ->
  exists i block, Curated.item_of (now i) src block = Some r.
Proof.
  unfold Curated.rssToItems. destruct xml as [|c xml]; [by intros ?%elem_of_nil|].
  intros (o & Ho & Hr)%list_elem_of_omap. simpl in Hr. subst o.
  apply elem_of_lookup_imap in Ho as (i & m & Hm & _).
  eauto.
Qed.
Lemma parseDate_iso (now : Z) (s : jsstring) :
  exists t, Curated.parseDate now s = toISOString t.
Proof.
  unfold Curated.parseDate. destruct s; [eauto|].
  destruct (Date_parse _); eauto.
Qed.

(** What the loop body guarantees about a record it pushes. *)
Lemma curated_item_of_Some (now : Z) (src block : jsstring) (r : Job) :
  Curated.item_of now src block = Some r ->
  title r <> [] /\
  source_url r <> [] /\
  startsWith (source_url r) (js "http") = true /\
  (exists s, posted_at r = Curated.parseDate now s) /\
  exists cats,
    let description := curated_description block in
    Curated.isBeginnerFriendly (title r) description cats = true /\
    company r = Curated.extractCompany (title r) description /\
    category r = Some (Curated.categorizeJob (title r) description cats) /\
    tags r = Curated.generateTags (title r) description
               (Curated.categorizeJob (title r) description cats) /\
    excerpt r = slice0 200 description.
Proof.
  unfold Curated.item_of.
  match goal with |- context [if negb ?b then _ else _] =>
    destruct b eqn:Hhttp end; cbn [negb]; [|done].
  match goal with |- context [if ?b || _ then _ else _] =>
    destruct b eqn:Ht end; cbn [orb]; [done|].
  match goal with |- context [if ?b then _ else _] =>
    destruct b eqn:Hl end; [done|].
  match goal with |- context [if negb ?b then _ else _] =>
    destruct b eqn:Hb end; cbn [negb]; [|done].
  intros [= <-]. cbn [title source_url posted_at company category tags excerpt].
  apply bool_decide_eq_false in Ht, Hl.
  repeat split; try done.
  - eexists. reflexivity.
  - eexists. repeat split; try reflexivity. exact Hb.
Qed.
(** The tags come, in this order, from six slots; the fourth is filled
    exactly when the text matches the remote pattern. *)
Lemma generateTags_slots (t d c : jsstring) :
  let remote :=
    test (pattern true "remote|anywhere|global|distributed")
      (toLowerCase (t ++ js " " ++ d)) in
  exists ty, ty ∈ JOB_TYPES /\
    Curated.generateTags t d c
    `sublist_of` [js "entry-level"; js "junior"; ty]
                 ++ (if remote then [js "remote"] else [])
                 ++ [c; js "no-experience"] /\
    (remote = true -> js "remote" ∈ Curated.generateTags t d c).
Proof.
  unfold Curated.generateTags, slice0.
  generalize (toLowerCase (t ++ js " " ++ d)). intros text.
  set (b1 := existsb _ _).
  set (b2 := test (pattern true "junior|1-2.years") text).
  set (b3 := test (pattern true "part.?time|parttime") text).
  set (b4 := test (pattern true "contract|contractor|freelance") text).
  set (b5 := test (pattern true "intern|internship") text).
  set (b6 := test (pattern true "remote|anywhere|global|distributed") text).
  set (b7 := bool_decide (c <> js "other")).
  set (b8 := test (pattern true "no.experience|entry.level|beginner") text).
  clearbody b1 b2 b3 b4 b5 b6 b7 b8.
  assert (Hty : exists ty, ty ∈ JOB_TYPES /\
            forall tags0 : list jsstring,
              (if b3 then tags0 ++ [js "part-time"]
               else if b4 then tags0 ++ [js "contract"]
               else if b5 then tags0 ++ [js "internship"]
               else tags0 ++ [js "full-time"]) = tags0 ++ [ty]).
  { unfold JOB_TYPES. cbn [map].
    destruct b3, b4, b5; eexists; (split; [|reflexivity]);
      repeat first [apply list_elem_of_here | apply list_elem_of_further]. }
  destruct Hty as (ty & Hty & Heq). exists ty. split; [done|].
  cbv zeta. rewrite Heq. clear Heq b3 b4 b5. split.
  - etrans; [apply sublist_take|].
    destruct b1, b2, b6, b7, b8; cbn [app];
      repeat first [apply sublist_nil | apply sublist_skip | apply sublist_cons].
  - intros ->.
    destruct b1, b2, b7, b8; cbn [app take];
      repeat first [apply list_elem_of_here | apply list_elem_of_further].
Qed.

(** The tag list of a categorised record: no tag twice, six at most. *)
Lemma generateTags_NoDup (t d c : jsstring) :
  c ∈ CATEGORIES ->
  NoDup (Curated.generateTags t d c) /\ length (Curated.generateTags t d c) <= 6.
Proof.
  intros Hc. split.
  - destruct (generateTags_slots t d c) as (ty & Hty & Hsub & _).
    eapply sublist_NoDup; [|exact Hsub].
    eapply sublist_NoDup;
      [|instantiate (1 := [js "entry-level"; js "junior"; ty; js "remote"; c;
                           js "no-experience"]);
        destruct (test _ _); cbn [app];
        repeat first [apply sublist_nil | apply sublist_skip
                     | apply sublist_cons]].
    unfold CATEGORIES, JOB_TYPES in *. cbn [map] in *.
    repeat (apply elem_of_cons in Hty as [->|Hty]);
      try (by apply elem_of_nil in Hty);
      repeat (apply elem_of_cons in Hc as [->|Hc]);
      try (by apply elem_of_nil in Hc);
      apply (bool_decide_unpack _); vm_compute; exact I.
  - unfold Curated.generateTags, slice0. rewrite length_take. lia.
Qed.

(** No category and no job type is the remote tag. *)
Lemma remote_tag_only_from_text (t d c : jsstring) :
  c ∈ CATEGORIES ->
  js "remote" ∈ Curated.generateTags t d c ->
  test (pattern true "remote|anywhere|global|distributed")
    (toLowerCase (t ++ js " " ++ d)) = true.
Proof.
  intros Hc Hin.
  destruct (generateTags_slots t d c) as (ty & Hty & Hsub & _).
  destruct (test _ _); [done|]. exfalso.
  eapply elem_of_sublist in Hin; [|exact Hsub]. cbn [app] in Hin.
  unfold CATEGORIES, JOB_TYPES in *. cbn [map] in *.
  repeat (apply elem_of_cons in Hin as [Heq|Hin]);
    try (by apply elem_of_nil in Hin); try discriminate Heq; subst.
  - repeat (apply elem_of_cons in Hty as [Heq|Hty]);
      try (by apply elem_of_nil in Hty); discriminate Heq.
  - repeat (apply elem_of_cons in Hc as [Heq|Hc]);
      try (by apply elem_of_nil in Hc); discriminate Heq.
Qed.

End CuratedRecords.

(** ** Filtering on a key with a set of keys seen so far

    Both revisions of [dedupe] are this filter, for their own key. *)

Section DedupeBy.
Context {A : Type} (key : A -> jsstring).

Lemma dedupe_by_sublist (seen : gset (list N)) (items : list A) :
  dedupe_by key seen items `sublist_of` items.
Proof.
  revert seen. induction items as [|j items IH]; intros seen; simpl.
  - constructor.
  - destruct (decide _); [apply sublist_cons | apply sublist_skip]; apply IH.
Qed.

Lemma dedupe_by_fresh (seen : gset (list N)) (items : list A) (j : A) :
  j ∈ dedupe_by key seen items -> key j ∉ seen.
Proof.
  revert seen. induction items as [|a items IH]; intros seen; simpl.
  - by intros ?%elem_of_nil.
  - destruct (decide _) as [Hin|Hout]; [apply IH|].
    intros [->|Hj%IH]%elem_of_cons; [done|].
    intros Hs. apply Hj, elem_of_union. by right.
Qed.

Lemma dedupe_by_NoDup (seen : gset (list N)) (items : list A) :
  NoDup (key <$> dedupe_by key seen items).
Proof.
  revert seen. induction items as [|a items IH]; intros seen; simpl.
  - constructor.
  - destruct (decide _); [apply IH|].
    rewrite fmap_cons. constructor; [|apply IH].
    intros (j & Hk & Hj%dedupe_by_fresh)%list_elem_of_fmap.
    apply Hj, elem_of_union. left. by apply elem_of_singleton.
Qed.

Lemma dedupe_by_covers (seen : gset (list N)) (items : list A) (j : A) :
  j ∈ items -> key j ∈ seen \/ key j ∈ key <$> dedupe_by key seen items.
Proof.
  revert seen. induction items as [|a items IH]; intros seen; simpl.
  - by intros ?%elem_of_nil.
  - intros [->|Hj]%elem_of_cons.
    + destruct (decide _); [by left|]. right. rewrite fmap_cons. left.
    + destruct (decide _) as [Hin|Hout]; [by apply IH|].
      rewrite fmap_cons.
      destruct (IH ({[key a]} ∪ seen) Hj) as [Hs|Hs]; [|right; by right].
      apply elem_of_union in Hs as [->%elem_of_singleton|Hs];
        [right; left | by left].
Qed.

(** A record whose key was met before is dropped, wherever it stands. *)
Lemma dedupe_by_snoc_seen (seen : gset (list N)) (l : list A) (j : A) :
  key j ∈ seen \/ key j ∈ key <$> l ->
  dedupe_by key seen (l ++ [j]) = dedupe_by key seen l.
Proof.
  revert seen. induction l as [|a l IH]; intros seen Hj; simpl.
  - destruct Hj as [Hj|Hj%elem_of_nil]; [|done]. by rewrite decide_True.
  - rewrite fmap_cons in Hj.
    destruct (decide (key a ∈ seen)) as [Ha|Ha].
    + apply IH. destruct Hj as [Hj|[->|Hj]%elem_of_cons]; auto.
    + f_equal. apply IH.
      destruct Hj as [Hj|[->|Hj]%elem_of_cons]; auto.
      * left. apply elem_of_union. by right.
      * left. apply elem_of_union. left. by apply elem_of_singleton.
Qed.

(** A record whose key is new is kept, after the records kept before it. *)
Lemma dedupe_by_snoc_new (seen : gset (list N)) (l : list A) (j : A) :
  key j ∉ seen -> key j ∉ key <$> l ->
  dedupe_by key seen (l ++ [j]) = dedupe_by key seen l ++ [j].
Proof.
  revert seen. induction l as [|a l IH]; intros seen Hs Hl; simpl.
  - by rewrite decide_False.
  - rewrite fmap_cons in Hl. apply not_elem_of_cons in Hl as [Hne Hl].
    destruct (decide (key a ∈ seen)) as [Ha|Ha].
    + by apply IH.
    + simpl. f_equal. apply IH; [|done].
      intros [Hk%elem_of_singleton|Hk]%elem_of_union; done.
Qed.
End DedupeBy.

Lemma curated_dedupe_by `{Host} (seen : gset (list N)) (items : list Job) :
  Curated.dedupe_filter seen items = dedupe_by Curated.dedupe_key seen items.
Proof.
  revert seen. induction items as [|j items IH]; intros seen; simpl; [done|].
  by rewrite !IH.
Qed.

Lemma simple_dedupe_by (seen : gset (list N)) (items : list Job) :
  Simple.dedupe_filter seen items = dedupe_by Simple.dedupe_key seen items.
Proof.
  revert seen. induction items as [|j items IH]; intros seen; simpl; [done|].
  by rewrite !IH.
Qed.

(** ** Sorting newest first

    [ts] gives the time a record is sorted by; on the records of the array
    the comparator is [ts y - ts x]. *)

Section SortDescending.
Context {A : Type} (ts : A -> Z) (comparefn : A -> A -> option Z).

Lemma sort_insert_perm (x : A) (l : list A) :
  sort_insert comparefn x l ≡ₚ x :: l.
Proof.
  induction l as [|y l IH]; simpl; [done|].
  destruct (_ <=? _)%Z; [done|]. rewrite IH. apply Permutation_swap.
Qed.

Lemma sort_perm (l : list A) : sort comparefn l ≡ₚ l.
Proof.
  induction l as [|x l IH]; simpl; [done|].
  unfold sort in *. simpl. by rewrite sort_insert_perm, IH.
Qed.

Lemma sort_insert_sorted (x : A) (l : list A) :
  (forall y, y ∈ l -> comparefn x y = Some (ts y - ts x)%Z) ->
  StronglySorted (not_older ts) l ->
  StronglySorted (not_older ts) (sort_insert comparefn x l).
Proof.
  intros Hcmp Hl. induction Hl as [|y l Hl IH Hy]; simpl.
  - repeat constructor.
  - unfold sort_compare. rewrite (Hcmp y) by left. simpl.
    destruct (Z.leb_spec (ts y - ts x) 0) as [Hle|Hgt].
    + constructor; [by constructor|].
      constructor; [unfold not_older; lia|].
      eapply Forall_impl; [exact Hy|]. unfold not_older. intros; lia.
    + constructor.
      * apply IH. intros z Hz. apply Hcmp. by right.
      * rewrite sort_insert_perm. constructor; [unfold not_older; lia|done].
Qed.

Lemma sort_sorted (l : list A) :
  by_ts_on ts comparefn l -> StronglySorted (not_older ts) (sort comparefn l).
Proof.
  unfold sort. induction l as [|x l IH]; intros Hcmp; simpl.
  - constructor.
  - apply sort_insert_sorted.
    + intros y Hy. apply Hcmp; [left|].
      right. by rewrite <- (sort_perm l).
    + apply IH. intros y z Hy Hz. apply Hcmp; by right.
Qed.

(** In a strongly sorted array every adjacent pair is in order. *)
Lemma sorted_adjacent (l : list A) (i : nat) (a b : A) :
  StronglySorted (not_older ts) l ->
  l !! i = Some a -> l !! S i = Some b -> not_older ts a b.
Proof.
  intros Hl. revert i. induction Hl as [|x l Hl IH Hx]; intros i Ha Hb.
  - done.
  - destruct i as [|i]; simpl in *.
    + injection Ha as ->. rewrite Forall_forall in Hx.
      apply Hx. eapply list_elem_of_lookup_2. exact Hb.
    + eauto.
Qed.
End SortDescending.

(** ** The run of the filtered revision *)

Section CuratedPipeline.
Context `{Host}.

Lemma curated_rssToItems_valid (now : nat -> Z) (xml src : jsstring) (r : Job) :
  r ∈ Curated.rssToItems now xml src -> valid_record r.
Proof.
  intros (i & block & Hitem)%curated_rssToItems_elem.
  apply curated_item_of_Some in Hitem
    as (Ht & _ & Hl & (s & Hp) & cats & _ & _ & _ & Htags & _).
  unfold valid_record. rewrite Htags, Hp.
  pose proof (parseDate_iso (now i) s).
  pose proof (generateTags_NoDup (title r) (curated_description block) _
                (categorizeJob_closed (title r) (curated_description block)
                   cats)) as [? ?].
  done.
Qed.

Lemma collect_concat (w : Curated.World) (i : nat) (srcs : list Source)
  (allJobs : list Job) :
  Curated.collect w i srcs allJobs
  = allJobs ++ concat (imap (fun k => contribution w (i + k)) srcs).
Proof.
  revert i allJobs. induction srcs as [|src srcs IH]; intros i allJobs.
  - simpl. by rewrite app_nil_r.
  - rewrite imap_cons. cbn [Curated.collect concat].
    rewrite Nat.add_0_r. unfold contribution at 1.
    assert (Hshift : imap ((fun k => contribution w (i + k)) ∘ S) srcs
                     = imap (fun k => contribution w (S i + k)) srcs).
    { apply imap_ext. intros k x _. simpl. f_equal. lia. }
    rewrite Hshift.
    destruct (Curated.safeFetch _ _) as [[|c body]|]; rewrite IH; try done.
    by rewrite <- app_assoc.
Qed.

Lemma main_jobs (w : Curated.World) :
  jobs (Curated.main w)
  = Curated.sortAndLimit
      (Curated.dedupe (concat (imap (contribution w) Curated.SOURCES))).
Proof.
  unfold Curated.main. cbn [jobs]. by rewrite collect_concat.
Qed.

(** A record of the final collection was pushed by [rssToItems] for the
    body of one of the sources. *)
Lemma main_jobs_elem (w : Curated.World) (r : Job) :
  r ∈ jobs (Curated.main w) ->
  exists i src body,
    Curated.SOURCES !! i = Some src /\
    Curated.safeFetch (Curated.fetch w) (url src) = Some body /\
    r ∈ Curated.rssToItems (Curated.clock w i) body (name src).
Proof.
  rewrite main_jobs. unfold Curated.sortAndLimit, slice0, Curated.dedupe.
  intros Hr%elem_of_take. destruct Hr as (k & Hr & _).
  apply list_elem_of_lookup_2 in Hr.
  rewrite sort_perm, curated_dedupe_by in Hr.
  eapply elem_of_sublist in Hr; [|apply dedupe_by_sublist].
  apply list_elem_of_In, in_concat in Hr as (l & Hl & Hr).
  apply list_elem_of_In in Hl, Hr.
  apply elem_of_lookup_imap in Hl as (i & src & -> & Hsrc).
  unfold contribution in Hr.
  destruct (Curated.safeFetch _ _) as [[|c body]|] eqn:Hf;
    try (by apply elem_of_nil in Hr).
  destruct (bool_decide _); [|by apply elem_of_nil in Hr].
  eauto 6.
Qed.
End CuratedPipeline.

(** ** Records of the inline-tagging revision *)

Section SimpleRecords.
Context `{Host}.

Lemma simple_item_of_Some (now : Z) (src block : jsstring) (r : Job) :
  Simple.item_of now src block = Normal (Some r) ->
  title r <> [] /\
  source_url r <> [] /\
  (exists t, posted_at r = toISOString t) /\
  let description := simple_description block in
  tags r = Simple.tags_of (toLowerCase (title r ++ js " " ++ description)) /\
  excerpt r = Simple.excerpt_of description.
Proof.
  unfold Simple.item_of.
  match goal with |- context [if ?b || _ then _ else _] =>
    destruct b eqn:Ht end; cbn [orb]; [done|].
  match goal with |- context [if ?b then _ else _] =>
    destruct b eqn:Hl end; [done|].
  destruct (Date_parse _) as [t|]; [|done].
  intros [= <-]. cbn [title source_url posted_at tags excerpt].
  apply bool_decide_eq_false in Ht, Hl.
  repeat split; try done; eauto.
Qed.

Lemma simple_items_loop_elem (now : nat -> Z) (src : jsstring) (i : nat)
  (matches : list rmatch_result) (acc items : list Job) (r : Job) :
  Simple.items_loop now src i matches acc = Normal items ->
  r ∈ items ->
  r ∈ acc \/ exists k block, Simple.item_of (now k) src block = Normal (Some r).
Proof.
  revert i acc.
  induction matches as [|m matches IH]; intros i acc; cbn [Simple.items_loop].
  - intros [= <-]. by left.
  - destruct (Simple.item_of _ _ _) as [[j|]|e] eqn:Hitem; [| |done].
    + intros Hloop Hr.
      destruct (IH _ _ Hloop Hr) as [Hacc|?]; [|by right].
      apply elem_of_app in Hacc as [Hacc|Hj]; [by left|].
      apply list_elem_of_singleton in Hj as ->. eauto.
    + apply IH.
Qed.

Lemma simple_rssToItems_elem (now : nat -> Z) (xml src : jsstring)
  (items : list Job) (r : Job) :
  Simple.rssToItems now xml src = Normal items ->
  r ∈ items ->
  exists k block, Simple.item_of (now k) src block = Normal (Some r).
Proof.
  unfold Simple.rssToItems. destruct xml as [|c xml].
  - intros [= <-]. by intros ?%elem_of_nil.
  - intros Hloop Hr.
    destruct (simple_items_loop_elem _ _ _ _ _ _ _ Hloop Hr)
      as [?%elem_of_nil|?]; done.
Qed.
End SimpleRecords.

(** ** Deduplication *)

Lemma dedupe_by_keeps_first {A : Type} (key : A -> jsstring) :
  keeps_first_of_each_key key (dedupe_by key ∅).
Proof.
  repeat split.
  - intros items. apply dedupe_by_sublist.
  - intros items. apply dedupe_by_NoDup.
  - intros items j Hj.
    by destruct (dedupe_by_covers key ∅ items j Hj) as [?%elem_of_empty|?].
  - intros l j Hj. apply dedupe_by_snoc_seen. by right.
  - intros l j Hj. apply dedupe_by_snoc_new; [apply not_elem_of_empty|done].
Qed.

Lemma dedupe_by_pair {A : Type} (key : A -> jsstring) (a b : A) :
  key a = key b -> dedupe_by key ∅ [a; b] = [a].
Proof.
  intros Hk.
  change [a; b] with ([a] ++ [b]).
  rewrite dedupe_by_snoc_seen.
  - simpl. rewrite decide_False; [done|apply not_elem_of_empty].
  - right. simpl. rewrite Hk. apply list_elem_of_here.
Qed.

Lemma keeps_first_ext {A : Type} (key : A -> jsstring)
  (f g : list A -> list A) :
  (forall l, g l = f l) ->
  keeps_first_of_each_key key f -> keeps_first_of_each_key key g.
Proof.
  intros Hfg (H1 & H2 & H3 & H4 & H5).
  repeat split; intros; rewrite ?Hfg; auto.
Qed.

(** ** Ordering *)

Lemma by_date_desc_on `{Host} (jobs : list Job) :
  Forall (fun j => is_Some (Date_parse (posted_at j))) jobs ->
  by_ts_on time_of Curated.by_date_desc jobs.
Proof.
  rewrite Forall_forall. intros Hvalid a b Ha Hb.
  unfold Curated.by_date_desc, time_of.
  destruct (Hvalid a Ha) as [ta ->]. destruct (Hvalid b Hb) as [tb ->].
  reflexivity.
Qed.

Lemma orElse_nil_r (s : jsstring) : orElse s [] = s.
Proof. by destruct s. Qed.

(** ** The redirect and retry loop *)

Section FetchText.
Context (URL : jsstring -> option jsstring -> option jsstring).
Context (net : nat -> jsstring -> fetch_outcome).

(** The body of [fetchText], one call deep. *)
Lemma fetchText_unfold (url : jsstring) (depth : nat) :
  Hybrid.fetchText URL net url depth =
  match URL url None with
  | None => ([], Throw (TypeError (js "Invalid URL")))
  | Some _ =>
    match net depth url with
    | Rejected message => ([Hybrid.Request url], Throw (TypeError message))
    | Responded res =>
        if bool_decide (status res ∈ REDIRECTS) then
          match header_location res with
          | None | Some [] =>
              ([Hybrid.Request url],
               Throw (Error (js "Redirect with no Location header for "
                             ++ url)))
          | Some loc =>
              match URL loc (Some url) with
              | None =>
                  ([Hybrid.Request url], Throw (TypeError (js "Invalid URL")))
              | Some next =>
                  if 5 <? depth
                  then ([Hybrid.Request url],
                        Throw (Error (js "Too many redirects for " ++ url)))
                  else let '(evs, r) :=
                         Hybrid.fetchText URL net next (S depth) in
                       (Hybrid.Request url :: evs, r)
              end
          end
        else if bool_decide (status res = 403%Z) && bool_decide (depth = 0)
        then let '(evs, r) := Hybrid.fetchText URL net url (S depth) in
             (Hybrid.Request url :: Hybrid.Sleep 500 :: evs, r)
        else if ok res
        then match body res with
             | Some text => ([Hybrid.Request url], Normal text)
             | None =>
                 ([Hybrid.Request url], Throw (TypeError (js "terminated")))
             end
        else ([Hybrid.Request url],
              Throw (Error (js "Fetch failed " ++ url ++ js ": "
                            ++ decimal (status res))))
    end
  end.
Proof.
  unfold REDIRECTS.
  funelim (Hybrid.fetchText URL net url depth); try clear Heqcall;
    repeat (match goal with H : ?x = _ |- context [?x] => rewrite H end);
    reflexivity.
Qed.

(** A call at depth [depth] issues at most [7 - depth] requests, and one in
    any case. *)
Lemma fetchText_requests (url : jsstring) (depth : nat) :
  length (requested (Hybrid.fetchText URL net url depth).1)
  <= max 1 (7 - depth).
Proof.
  remember (7 - depth) as n eqn:Hn.
  revert url depth Hn. induction n as [n IH] using lt_wf_ind.
  intros url depth ->. rewrite fetchText_unfold.
  destruct (URL url None); [|simpl; lia].
  destruct (net depth url) as [message|res]; [simpl; lia|].
  destruct (bool_decide (status res ∈ REDIRECTS)).
  - destruct (header_location res) as [[|c loc]|]; try (simpl; lia).
    destruct (URL (c :: loc) (Some url)) as [next|]; [|simpl; lia].
    destruct (Nat.ltb_spec 5 depth) as [Hd|Hd]; [simpl; lia|].
    specialize (IH (7 - S depth) ltac:(lia) next (S depth) eq_refl).
    destruct (Hybrid.fetchText URL net next (S depth)) as [evs r].
    simpl in *. lia.
  - destruct (bool_decide (status res = 403%Z) && bool_decide (depth = 0)) eqn:Hretry.
    + apply andb_true_iff in Hretry as [_ ->%bool_decide_eq_true].
      specialize (IH 6 ltac:(lia) url 1 eq_refl).
      destruct (Hybrid.fetchText URL net url 1) as [evs r].
      simpl in *. lia.
    + destruct (ok res); [destruct (body res)|]; simpl; lia.
Qed.

(** Below the top level no call waits. *)
Lemma fetchText_no_delay (url : jsstring) (depth : nat) :
  1 <= depth -> delays (Hybrid.fetchText URL net url depth).1 = [].
Proof.
  remember (7 - depth) as n eqn:Hn.
  revert url depth Hn. induction n as [n IH] using lt_wf_ind.
  intros url depth -> Hdepth. rewrite fetchText_unfold.
  destruct (URL url None); [|done].
  destruct (net depth url) as [message|res]; [done|].
  destruct (bool_decide (status res ∈ REDIRECTS)).
  - destruct (header_location res) as [[|c loc]|]; try done.
    destruct (URL (c :: loc) (Some url)) as [next|]; [|done].
    destruct (Nat.ltb_spec 5 depth) as [Hd|Hd]; [done|].
    specialize (IH (7 - S depth) ltac:(lia) next (S depth) eq_refl ltac:(lia)).
    destruct (Hybrid.fetchText URL net next (S depth)) as [evs r].
    simpl in *. done.
  - rewrite (bool_decide_eq_false_2 (depth = 0)) by lia.
    rewrite andb_false_r.
    destruct (ok res); [destruct (body res)|]; done.
Qed.
End FetchText.

(** ** The matcher *)

Section Matcher.

Lemma seqs_cons {A} (r : regex) (rs : list regex) (st : mstate)
  (k : mstate -> option A) :
  rmatch (seqs (r :: rs)) st k
  = rmatch r st (fun st' => rmatch (seqs rs) st' k).
Proof. destruct rs; reflexivity. Qed.

(** A match never gives input back: the continuation that accepts is
    entered at a position at or after the one the match started from. *)
Lemma rmatch_consumes {A} (r : regex) (st : mstate)
  (k : mstate -> option A) (a : A) :
  rmatch r st k = Some a ->
  exists st', k st' = Some a /\ length (m_rest st') <= length (m_rest st).
Proof.
  revert st k a.
  induction r as [|p|r1 IH1 r2 IH2|r1 IH1 r2 IH2|g r IH|r IH| |];
    intros st k a; simpl.
  - eauto.
  - destruct (m_rest st) as [|c s'] eqn:Hrest; [done|].
    destruct (p c); [|done]. intros Hk. eexists. split; [exact Hk|]. simpl. lia.
  - intros (st1 & (st2 & Hk & Hle2)%IH2 & Hle1)%IH1. exists st2. split; [done|lia].
  - destruct (rmatch r1 st k) as [a'|] eqn:H1.
    + intros [= <-]. eauto.
    + eauto.
  - revert a. generalize (length (m_rest st)) at 1. intros n. revert st.
    induction n as [|n IHn]; intros st a.
    + destruct g; [|destruct (k st) eqn:Hk]; intros Ha;
        try discriminate Ha; try (injection Ha as ->); eauto.
    + assert (Hmore : forall b,
                rmatch r st (fun st' =>
                  if length (m_rest st') <? length (m_rest st)
                  then (fix loop (n : nat) (st : mstate) {struct n} : option A :=
                          let more :=
                            match n with
                            | O => None
                            | S n' =>
                                rmatch r st (fun st' =>
                                  if length (m_rest st') <? length (m_rest st)
                                  then loop n' st' else None)
                            end in
                          if g
                          then match more with Some a => Some a | None => k st end
                          else match k st with Some a => Some a | None => more end)
                         n st'
                  else None) = Some b ->
                exists st', k st' = Some b
                            /\ length (m_rest st') <= length (m_rest st)).
      { intros b (st1 & Hst1 & Hle)%IH.
        destruct (length (m_rest st1) <? length (m_rest st)); [|done].
        apply IHn in Hst1 as (st2 & Hk & Hle2). exists st2. split; [done|lia]. }
      destruct g.
      * match goal with |- context [match ?m with Some _ => _ | None => _ end] =>
          destruct m as [b|] eqn:Hm end.
        -- intros [= <-]. by apply Hmore.
        -- eauto.
      * destruct (k st) as [b|] eqn:Hk.
        -- intros [= <-]. eauto.
        -- apply Hmore.
  - intros (st1 & Hk & Hle)%IH. eexists. split; [exact Hk|]. simpl. lia.
  - destruct (m_rest st) eqn:Hrest; [|done].
    intros Hk. exists st. rewrite Hrest. split; [done|simpl; lia].
  - destruct (xorb _ _); [eauto|done].
Qed.

(** What a match that starts at the current position spans. *)
Lemma match_here_length (r : regex) (prev : option N) (s : jsstring)
  (n : nat) (g : option jsstring) :
  match_here r prev s = Some (n, g) -> n <= length s.
Proof.
  unfold match_here. destruct (rmatch _ _ _); [|done]. intros [= <- _]. lia.
Qed.

Lemma match_here_chr_first (p : N -> bool) (r : regex) (prev : option N)
  (s : jsstring) (n : nat) (g : option jsstring) :
  match_here (Seq (Chr p) r) prev s = Some (n, g) -> 1 <= n.
Proof.
  unfold match_here. simpl. destruct s as [|c s']; [done|].
  destruct (p c); [|done].
  destruct (rmatch r _ _) as [st'|] eqn:Hr; [|done].
  apply rmatch_consumes in Hr as (st1 & [= <-] & Hle).
  intros [= <- _]. simpl in *. lia.
Qed.

(** A replacement no longer than what it replaces does not lengthen the
    string. *)
Lemma replace_scan_length (r : regex) (rep : jsstring) :
  (forall prev s n g, match_here r prev s = Some (n, g) -> length rep <= n) ->
  forall s prev skip,
    length (replace_scan r rep prev s skip) + min skip (length s) <= length s.
Proof.
  intros Hrep s. induction s as [|c s IH]; intros prev skip; simpl.
  - destruct skip; [|simpl; lia].
    destruct (match_here r prev []) as [[n g]|] eqn:Hm; [|simpl; lia].
    pose proof (Hrep _ _ _ _ Hm). pose proof (match_here_length _ _ _ _ _ Hm).
    simpl in *. lia.
  - destruct skip as [|skip].
    + destruct (match_here r prev (c :: s)) as [[[|n] g]|] eqn:Hm.
      * pose proof (Hrep _ _ _ _ Hm). specialize (IH (Some c) 0).
        rewrite length_app. simpl. lia.
      * pose proof (Hrep _ _ _ _ Hm).
        pose proof (match_here_length _ _ _ _ _ Hm).
        specialize (IH (Some c) n). rewrite length_app. simpl in *. lia.
      * specialize (IH (Some c) 0). simpl. lia.
    + specialize (IH (Some c) skip). lia.
Qed.

Lemma collapse_length (s : jsstring) :
  length (replace_all (plus true space) (js " ") s) <= length s.
Proof.
  unfold replace_all.
  pose proof (replace_scan_length (plus true space) (js " ")
                (fun prev s n g => match_here_chr_first _ _ prev s n g)
                s None 0).
  lia.
Qed.

Lemma trimStart_length (s : jsstring) : length (trimStart s) <= length s.
Proof.
  induction s as [|c s IH]; simpl; [done|]. destruct (is_space c); simpl; lia.
Qed.

Lemma trim_length (s : jsstring) : length (trim s) <= length s.
Proof.
  unfold trim, trimEnd. rewrite length_rev.
  etrans; [apply trimStart_length|]. rewrite length_rev.
  apply trimStart_length.
Qed.
End Matcher.

(** ** Global replacement *)

Section Replace.

Lemma rmatch_starts_in {A} (r : regex) (P : N -> bool) (st : mstate)
  (k : mstate -> option A) :
  starts_in r P ->
  match m_rest st with [] => True | c :: _ => P c = false end ->
  rmatch r st k = None.
Proof.
  revert st k.
  induction r as [|q|r1 IH1 r2 IH2|r1 IH1 r2 IH2|g r IH|r IH| |];
    intros st k Hr Hst; simpl in *; try done.
  - destruct (m_rest st) as [|c s']; [done|].
    destruct (q c) eqn:Hq; [|done]. apply Hr in Hq. congruence.
  - by apply IH1.
  - destruct Hr as [Hr1 Hr2]. by rewrite IH1, IH2.
  - by apply IH.
Qed.

Lemma match_here_starts_in (r : regex) (P : N -> bool) (prev : option N)
  (s : jsstring) :
  starts_in r P ->
  match s with [] => True | c :: _ => P c = false end ->
  match_here r prev s = None.
Proof.
  intros Hr Hs. unfold match_here. by rewrite (rmatch_starts_in r P).
Qed.

Lemma replace_scan_prefix (r : regex) (P : N -> bool) (rep x s : jsstring)
  (prev : option N) :
  starts_in r P ->
  Forall (fun c => P c = false) x ->
  replace_scan r rep prev (x ++ s) 0
  = x ++ replace_scan r rep (last_seen prev x) s 0.
Proof.
  intros Hr Hx. revert prev. induction Hx as [|c x Hc Hx IH]; intros prev.
  - reflexivity.
  - cbn [app replace_scan last_seen].
    rewrite (match_here_starts_in r P) by done. by rewrite IH.
Qed.

Lemma replace_scan_none (r : regex) (P : N -> bool) (rep s : jsstring)
  (prev : option N) :
  starts_in r P ->
  Forall (fun c => P c = false) s ->
  replace_scan r rep prev s 0 = s.
Proof.
  intros Hr Hs.
  rewrite <- (app_nil_r s) at 1.
  rewrite (replace_scan_prefix r P) by done.
  cbn [replace_scan]. rewrite (match_here_starts_in r P) by done.
  apply app_nil_r.
Qed.

Lemma replace_all_none (r : regex) (P : N -> bool) (rep s : jsstring) :
  starts_in r P ->
  Forall (fun c => P c = false) s ->
  replace_all r rep s = s.
Proof. apply replace_scan_none. Qed.

Lemma replace_scan_skip (r : regex) (rep u s : jsstring) (prev : option N) :
  replace_scan r rep prev (u ++ s) (length u)
  = replace_scan r rep (last_seen prev u) s 0.
Proof.
  revert prev. induction u as [|c u IH]; intros prev; [reflexivity|].
  cbn [app length replace_scan last_seen]. apply IH.
Qed.

Lemma startsWith_app (p t : jsstring) : startsWith (p ++ t) p = true.
Proof.
  induction p as [|a p IH]; [by destruct t|]. simpl. by rewrite N.eqb_refl.
Qed.

Lemma startsWith_length (s p : jsstring) :
  startsWith s p = true -> length p <= length s.
Proof.
  revert s. induction p as [|a p IH]; intros [|b s]; simpl; try done; try lia.
  intros [_ Hs]%andb_true_iff. apply IH in Hs. lia.
Qed.

Lemma startsWith_elem (s p : jsstring) (c : N) :
  startsWith s p = true -> c ∈ p -> c ∈ s.
Proof.
  revert s. induction p as [|a p IH]; intros [|b s]; simpl; try done.
  - by intros _ ?%elem_of_nil.
  - intros [->%N.eqb_eq Hs]%andb_true_iff [->|Hc]%elem_of_cons.
    + left.
    + right. by apply IH.
Qed.

Lemma rmatch_lit {A} (p : jsstring) (st : mstate) (k : mstate -> option A) :
  rmatch (lit p) st k
  = if startsWith (m_rest st) p
    then k (MState (last_seen (m_prev st) p)
              (drop (length p) (m_rest st)) (m_cap st))
    else None.
Proof.
  revert st. induction p as [|a p IH]; intros st.
  - destruct st as [prev rest cap]. by destruct rest.
  - unfold lit in *. cbn [map]. rewrite seqs_cons.
    unfold ch at 1. cbn [rmatch].
    destruct (m_rest st) as [|c s'] eqn:Hrest; [done|].
    cbn [startsWith]. destruct (N.eqb_spec a c) as [->|Hne]; [|done].
    rewrite IH. reflexivity.
Qed.

Lemma match_here_lit (p : jsstring) (prev : option N) (s : jsstring) :
  match_here (lit p) prev s
  = if startsWith s p then Some (length p, None) else None.
Proof.
  unfold match_here. rewrite rmatch_lit. cbn [m_rest m_cap].
  destruct (startsWith s p) eqn:Hs; [|done].
  apply startsWith_length in Hs. cbn [m_rest m_cap].
  rewrite length_drop. do 2 f_equal. lia.
Qed.

Lemma starts_in_lit (a : N) (p : jsstring) :
  starts_in (lit (a :: p)) (N.eqb a).
Proof. unfold lit. destruct p; simpl; auto. Qed.

(** A literal whose first code unit occurs once, at the head of an
    occurrence of the literal: that occurrence is replaced. *)
Lemma replace_lit_hit (a : N) (p rep x t : jsstring) :
  Forall (fun c => (a =? c)%N = false) x ->
  Forall (fun c => (a =? c)%N = false) t ->
  replace_all (lit (a :: p)) rep (x ++ (a :: p) ++ t) = x ++ rep ++ t.
Proof.
  intros Hx Ht. unfold replace_all.
  rewrite (replace_scan_prefix _ (N.eqb a)) by (done || apply starts_in_lit).
  f_equal. cbn [app replace_scan].
  rewrite match_here_lit.
  change (a :: p ++ t) with ((a :: p) ++ t). rewrite startsWith_app.
  cbn [length]. f_equal.
  rewrite replace_scan_skip.
  apply (replace_scan_none _ (N.eqb a)); [apply starts_in_lit|done].
Qed.

(** A literal whose first code unit occurs once, where the literal does not
    start: nothing is replaced. *)
Lemma replace_lit_miss (a : N) (p rep x t : jsstring) :
  Forall (fun c => (a =? c)%N = false) x ->
  Forall (fun c => (a =? c)%N = false) t ->
  startsWith (a :: t) (a :: p) = false ->
  replace_all (lit (a :: p)) rep (x ++ a :: t) = x ++ a :: t.
Proof.
  intros Hx Ht Hmiss. unfold replace_all.
  rewrite (replace_scan_prefix _ (N.eqb a)) by (done || apply starts_in_lit).
  f_equal. cbn [replace_scan]. rewrite match_here_lit, Hmiss. f_equal.
  apply (replace_scan_none _ (N.eqb a)); [apply starts_in_lit|done].
Qed.

Lemma trim_no_space (s : jsstring) :
  Forall (fun c => is_space c = false) s -> trim s = s.
Proof.
  intros Hs. unfold trim, trimEnd.
  assert (Hstart : forall l, Forall (fun c => is_space c = false) l ->
                             trimStart l = l).
  { intros [|c l] Hl; [done|]. simpl. by rewrite (Forall_inv Hl). }
  rewrite (Hstart s Hs), Hstart, rev_involutive; [done|].
  by apply Forall_rev.
Qed.
End Replace.

(** ** Entities *)

Section Entities.
Context (x y : jsstring) (Hx : plain x) (Hy : plain y).

Lemma plain_avoids (P : N -> bool) (s : jsstring) :
  (forall c, P c = true ->
     ((60 =? c)%N || (93 =? c)%N || (38 =? c)%N || (59 =? c)%N
      || is_space c) = true) ->
  plain s -> Forall (fun c => P c = false) s.
Proof.
  intros HP Hs. eapply Forall_impl; [exact Hs|].
  intros c Hc. unfold plain_char in Hc. apply negb_true_iff in Hc.
  destruct (P c) eqn:HPc; [|done]. apply HP in HPc. congruence.
Qed.

(** A pass whose pattern cannot start anywhere in the string. *)
Lemma pass_none (r : regex) (P : N -> bool) (rep m : jsstring) :
  starts_in r P ->
  (forall c, P c = true ->
     ((60 =? c)%N || (93 =? c)%N || (38 =? c)%N || (59 =? c)%N
      || is_space c) = true) ->
  forallb (fun c => negb (P c)) m = true ->
  replace_all r rep (x ++ m ++ y) = x ++ m ++ y.
Proof.
  intros Hr HP Hm. apply (replace_all_none r P); [done|].
  rewrite !Forall_app. repeat split; try by apply plain_avoids.
  apply Forall_forall. intros c Hc%list_elem_of_In.
  rewrite forallb_forall in Hm. apply Hm in Hc. by apply negb_true_iff.
Qed.

Lemma startsWith_mismatch (e p t : jsstring) :
  mismatch e p = true -> startsWith (e ++ t) p = false.
Proof.
  revert p. induction e as [|a e IH]; intros [|b p]; simpl; try done.
  destruct (N.eqb_spec a b) as [->|Hne]; simpl.
  - intros Hm. rewrite N.eqb_refl. simpl. by apply IH.
  - intros _. destruct (N.eqb_spec b a) as [->|]; [done|]. done.
Qed.

Lemma plain_no_amp (s : jsstring) :
  plain s -> Forall (fun c => (38 =? c)%N = false) s.
Proof.
  apply (plain_avoids (N.eqb 38)). intros c ->. by rewrite !orb_true_r.
Qed.

(** The pass of another entity over [x ++ & e ++ y]. *)
Lemma pass_other (p rep e : jsstring) :
  mismatch (38%N :: e) (38%N :: p) = true ->
  forallb (fun c => negb (38 =? c)%N) e = true ->
  replace_all (lit (38%N :: p)) rep (x ++ (38%N :: e) ++ y)
  = x ++ (38%N :: e) ++ y.
Proof.
  intros Hm He. cbn [app].
  apply replace_lit_miss.
  - by apply plain_no_amp.
  - rewrite Forall_app. split; [|by apply plain_no_amp].
    apply Forall_forall. intros c Hc%list_elem_of_In.
    rewrite forallb_forall in He. apply He in Hc. by apply negb_true_iff.
  - change (38%N :: e ++ y) with ((38%N :: e) ++ y).
    by apply startsWith_mismatch.
Qed.

(** The pass of the entity itself. *)
Lemma pass_own (e rep : jsstring) :
  replace_all (lit (38%N :: e)) rep (x ++ (38%N :: e) ++ y) = x ++ rep ++ y.
Proof. apply replace_lit_hit; by apply plain_no_amp. Qed.

(** A later pass over the [&] that [&amp;] has become. *)
Lemma pass_after_amp (p rep : jsstring) :
  59%N ∈ p ->
  replace_all (lit (38%N :: p)) rep (x ++ [38%N] ++ y) = x ++ [38%N] ++ y.
Proof.
  intros Hp. cbn [app]. apply replace_lit_miss; try by apply plain_no_amp.
  destruct (startsWith _ _) eqn:Hs; [|done]. exfalso.
  apply (startsWith_elem _ _ 59%N) in Hs; [|by right].
  apply elem_of_cons in Hs as [Hs|Hs]; [done|].
  pose proof (plain_avoids (N.eqb 59) y) as Hsemi.
  rewrite Forall_forall in Hsemi.
  specialize (Hsemi ltac:(intros c ->; by rewrite !orb_true_r) Hy _ Hs).
  by rewrite N.eqb_refl in Hsemi.
Qed.
End Entities.

Section Sanitizer.
Context `{Host}.

Lemma cdata_starts :
  starts_in (Alt (lit (js "<![CDATA[")) (lit (js "]]>")))
    (fun c => (60 =? c)%N || (93 =? c)%N).
Proof.
  split.
  - change (starts_in (Seq (ch 60) (lit (js "![CDATA[")))
              (fun c => (60 =? c)%N || (93 =? c)%N)).
    intros c Hc. unfold ch in Hc. by rewrite Hc.
  - change (starts_in (Seq (ch 93) (lit (js "]>")))
              (fun c => (60 =? c)%N || (93 =? c)%N)).
    intros c Hc. unfold ch in Hc. by rewrite Hc, orb_true_r.
Qed.

Lemma tag_starts :
  starts_in (seqs [ch 60; plus true (notch 62); ch 62]) (N.eqb 60).
Proof. intros c Hc. exact Hc. Qed.

Lemma space_starts : starts_in (plus true space) is_space.
Proof. intros c Hc. exact Hc. Qed.

Lemma forallb_weaken {A} (P Q : A -> bool) (l : list A) :
  (forall a, P a = true -> Q a = true) ->
  forallb P l = true -> forallb Q l = true.
Proof.
  intros HPQ. rewrite !forallb_forall. auto.
Qed.

(** The three markup passes leave [x ++ m ++ y] alone when [m] has no
    [<], no []] and no white space. *)
Lemma markup_passes (x y m : jsstring) :
  plain x -> plain y ->
  forallb (fun c => negb ((60 =? c)%N || (93 =? c)%N || is_space c)) m = true ->
  replace_all (plus true space) (js " ")
    (replace_all (seqs [ch 60; plus true (notch 62); ch 62]) (js " ")
       (replace_all (Alt (lit (js "<![CDATA[")) (lit (js "]]>"))) []
          (x ++ m ++ y)))
  = x ++ m ++ y.
Proof.
  intros Hx Hy Hm.
  rewrite (pass_none x y Hx Hy _ (fun c => (60 =? c)%N || (93 =? c)%N));
    [|apply cdata_starts|intros c Hc; cbv beta in Hc; by rewrite Hc|].
  rewrite (pass_none x y Hx Hy _ (N.eqb 60));
    [|apply tag_starts|intros c Hc; by rewrite Hc|].
  rewrite (pass_none x y Hx Hy _ is_space);
    [|apply space_starts|intros c Hc; by rewrite Hc, !orb_true_r|].
  - done.
  - eapply forallb_weaken; [|exact Hm]. intros c. cbv beta.
    destruct (60 =? c)%N, (93 =? c)%N, (is_space c); done.
  - eapply forallb_weaken; [|exact Hm]. intros c. cbv beta.
    destruct (60 =? c)%N, (93 =? c)%N, (is_space c); done.
  - eapply forallb_weaken; [|exact Hm]. intros c. cbv beta.
    destruct (60 =? c)%N, (93 =? c)%N, (is_space c); done.
Qed.

(** A literal pass over text without [&]. *)
Lemma pass_no_amp (x y p rep m : jsstring) :
  plain x -> plain y ->
  forallb (fun c => negb (38 =? c)%N) m = true ->
  replace_all (lit (38%N :: p)) rep (x ++ m ++ y) = x ++ m ++ y.
Proof.
  intros Hx Hy Hm.
  apply (pass_none x y Hx Hy _ (N.eqb 38)); [apply starts_in_lit| |done].
  intros c Hc. by rewrite Hc, !orb_true_r.
Qed.

(** One literal pass of [strip] over [x ++ m ++ y], innermost first. *)
Ltac pass x y Hx Hy :=
  lazymatch goal with
  | |- context [replace_all (lit ?p) ?rep (x ++ ?m ++ y)] =>
      let p' := eval vm_compute in (tail p) in
      let m' := eval vm_compute in m in
      let H := fresh "Hpass" in
      lazymatch m' with
      | 38%N :: p' =>
          assert (H : replace_all (lit p) rep (x ++ m ++ y) = x ++ rep ++ y)
            by exact (pass_own x y Hx Hy p' rep)
      | [38%N] =>
          assert (H : replace_all (lit p) rep (x ++ m ++ y) = x ++ m ++ y)
            by (apply (pass_after_amp x y Hx Hy p' rep);
                repeat first [apply list_elem_of_here
                             | apply list_elem_of_further])
      | 38%N :: ?e =>
          assert (H : replace_all (lit p) rep (x ++ m ++ y) = x ++ m ++ y)
            by (apply (pass_other x y Hx Hy p' rep e); vm_compute; reflexivity)
      | _ =>
          assert (H : replace_all (lit p) rep (x ++ m ++ y) = x ++ m ++ y)
            by (apply (pass_no_amp x y p' rep m Hx Hy); vm_compute; reflexivity)
      end;
      rewrite H; clear H
  end.

Lemma simple_strip_entities (x y : jsstring) :
  plain x -> plain y ->
  Forall (fun ec => Simple.strip (Some (x ++ ec.1 ++ y))
                    = trim (x ++ ec.2 ++ y)) ENTITIES.
Proof.
  intros Hx Hy. unfold ENTITIES, Simple.strip.
  repeat (apply Forall_cons; split); [..|by apply Forall_nil];
    cbn [fst snd default from_option id]; cbv zeta;
    match goal with |- context [x ++ ?m ++ y] =>
      rewrite (markup_passes x y m Hx Hy) by (vm_compute; reflexivity)
    end;
    repeat pass x y Hx Hy; reflexivity.
Qed.

Lemma curated_strip_entities (x y : jsstring) :
  plain x -> plain y ->
  Forall (fun ec => Curated.strip (Some (x ++ ec.1 ++ y))
                    = trim (x ++ ec.2 ++ y)) (take 5 ENTITIES).
Proof.
  intros Hx Hy. unfold ENTITIES, Curated.strip. cbn [take].
  repeat (apply Forall_cons; split); [..|by apply Forall_nil];
    cbn [fst snd default from_option id]; cbv zeta;
    match goal with |- context [x ++ ?m ++ y] =>
      rewrite (markup_passes x y m Hx Hy) by (vm_compute; reflexivity)
    end;
    repeat pass x y Hx Hy; reflexivity.
Qed.
End Sanitizer.

(** * Further properties *)

(** ** The matcher as a relation *)

Lemma rmatch_star {A} (g : bool) (r : regex) (st : mstate)
  (k : mstate -> option A) :
  rmatch (Star g r) st k = star_loop g r k (length (m_rest st)) st.
Proof. reflexivity. Qed.

Lemma star_loop_unfold {A} (g : bool) (r : regex) (k : mstate -> option A)
  (n : nat) (st : mstate) :
  star_loop g r k n st
  = let more :=
      match n with
      | O => None
      | S n' =>
          rmatch r st (fun st' =>
            if length (m_rest st') <? length (m_rest st)
            then star_loop g r k n' st' else None)
      end in
    if g
    then match more with Some a => Some a | None => k st end
    else match k st with Some a => Some a | None => more end.
Proof. by destruct n. Qed.

Lemma rmatch_sound {A} (r : regex) (st : mstate) (k : mstate -> option A)
  (a : A) :
  rmatch r st k = Some a -> exists st', matches r st st' /\ k st' = Some a.
Proof.
  revert st k a.
  induction r as [|p|r1 IH1 r2 IH2|r1 IH1 r2 IH2|g r IH|r IH| |];
    intros st k a.
  - simpl. intros Hk. exists st. split; [constructor|done].
  - simpl. destruct st as [prev [|c s] cap]; simpl; [done|].
    destruct (p c) eqn:Hp; [|done]. intros Hk.
    eexists. split; [by constructor|done].
  - simpl. intros (st1 & H1 & (st2 & H2 & Hk)%IH2)%IH1.
    exists st2. split; [by econstructor|done].
  - simpl. destruct (rmatch r1 st k) as [a'|] eqn:H1.
    + intros [= <-]. apply IH1 in H1 as (st' & ? & ?).
      exists st'. split; [by apply matches_alt_l|done].
    + intros (st' & ? & ?)%IH2. exists st'. split; [by apply matches_alt_r|done].
  - rewrite rmatch_star. generalize (length (m_rest st)). intros n.
    revert st a. induction n as [|n IHn]; intros st a;
      rewrite star_loop_unfold; cbv zeta.
    + destruct g; [|destruct (k st) eqn:Hk]; intros Ha;
        try discriminate Ha; try (injection Ha as ->);
        exists st; (split; [apply matches_star_nil|done]).
    + assert (Hmore : forall b,
                rmatch r st (fun st' =>
                  if length (m_rest st') <? length (m_rest st)
                  then star_loop g r k n st' else None) = Some b ->
                exists st', matches (Star g r) st st' /\ k st' = Some b).
      { intros b (st1 & H1 & Hst1)%IH.
        destruct (length (m_rest st1) <? length (m_rest st)); [|done].
        apply IHn in Hst1 as (st2 & H2 & Hk). exists st2.
        split; [by eapply matches_star_more|done]. }
      destruct g.
      * destruct (rmatch r st _) as [b|] eqn:Hm.
        -- intros [= <-]. by apply Hmore.
        -- intros Hk. exists st. split; [apply matches_star_nil|done].
      * destruct (k st) as [b|] eqn:Hk.
        -- intros [= <-]. exists st. split; [apply matches_star_nil|done].
        -- apply Hmore.
  - simpl. intros (st1 & H1 & Hk)%IH. eexists. split; [by constructor|done].
  - simpl. destruct st as [prev [|c s] cap]; simpl; [|done].
    intros Hk. eexists. split; [constructor|done].
  - simpl. destruct (xorb _ _) eqn:Hx; [|done]. intros Hk.
    exists st. split; [by constructor|done].
Qed.

(** ** Greedy repetition of a class *)

Lemma star_chr_greedy {A} (p : N -> bool) (k : mstate -> option A) (a : A)
  (x t : jsstring) (cap : option jsstring) :
  Forall (fun c => p c = true) x ->
  match t with [] => True | c :: _ => p c = false end ->
  forall (n : nat) (prev : option N),
    length x <= n ->
    k (MState (last_seen prev x) t cap) = Some a ->
    star_loop true (Chr p) k n (MState prev (x ++ t) cap) = Some a.
Proof.
  intros Hx Ht. induction Hx as [|c x Hc Hx IH]; intros n prev Hn Hk.
  - rewrite star_loop_unfold. cbv zeta. cbn [app last_seen] in *.
    assert (Hnone : forall f : mstate -> option A,
              rmatch (Chr p) (MState prev t cap) f = None).
    { intros f. simpl. destruct t as [|c t]; [done|]. by rewrite Ht. }
    destruct n as [|n]; [done|]. by rewrite Hnone.
  - destruct n as [|n]; [simpl in Hn; lia|].
    rewrite star_loop_unfold. cbv zeta. cbn [app rmatch m_rest m_cap].
    rewrite Hc. cbn [m_rest length].
    rewrite (proj2 (Nat.ltb_lt _ _)) by lia.
    rewrite (IH n (Some c)); [done|simpl in Hn; lia|exact Hk].
Qed.

(** ** Searching *)

Lemma search_prefix (r : regex) (P : N -> bool) (x s : jsstring)
  (prev : option N) (i : nat) :
  starts_in r P ->
  Forall (fun c => P c = false) x ->
  search r prev (x ++ s) i = search r (last_seen prev x) s (i + length x).
Proof.
  intros Hr Hx. revert prev i. induction Hx as [|c x Hc Hx IH]; intros prev i.
  - simpl. by rewrite Nat.add_0_r.
  - cbn [app search last_seen length].
    rewrite (match_here_starts_in r P) by done.
    rewrite IH. f_equal. lia.
Qed.

Lemma search_none (r : regex) (P : N -> bool) (s : jsstring)
  (prev : option N) (i : nat) :
  starts_in r P ->
  Forall (fun c => P c = false) s ->
  search r prev s i = None.
Proof.
  intros Hr Hs. rewrite <- (app_nil_r s).
  rewrite (search_prefix r P) by done. simpl.
  by rewrite (match_here_starts_in r P).
Qed.

Lemma search_alt (r1 r2 : regex) (s : jsstring) (prev : option N) (i : nat) :
  match search (Alt r1 r2) prev s i with Some _ => true | None => false end
  = match search r1 prev s i with Some _ => true | None => false end
    || match search r2 prev s i with Some _ => true | None => false end.
Proof.
  revert prev i. induction s as [|c s IH]; intros prev i; cbn [search];
    unfold match_here; cbn [rmatch];
    destruct (rmatch r1 _ Some) as [st1|]; try done;
    destruct (rmatch r2 _ Some) as [st2|]; try done;
    rewrite ?orb_true_r; done.
Qed.

Lemma test_alt (r1 r2 : regex) (s : jsstring) :
  test (Alt r1 r2) s = test r1 s || test r2 s.
Proof. unfold test, exec. apply search_alt. Qed.

Lemma search_lit (p s : jsstring) (prev : option N) (i : nat) :
  match search (lit p) prev s i with Some _ => true | None => false end
  = includes s p.
Proof.
  revert prev i. induction s as [|c s IH]; intros prev i; cbn [search includes];
    rewrite match_here_lit; destruct (startsWith _ p); done.
Qed.

Lemma test_lit (p s : jsstring) : test (lit p) s = includes s p.
Proof. unfold test, exec. apply search_lit. Qed.

(** ** The insertion order of a set *)

Lemma set_add_elem (acc : list jsstring) (x y : jsstring) :
  y ∈ set_add acc x <-> y ∈ acc \/ y = x.
Proof.
  unfold set_add. destruct (decide (x ∈ acc)) as [Hin|Hout].
  - split; [by left|]. intros [? | ->]; done.
  - rewrite elem_of_app, list_elem_of_singleton. done.
Qed.

Lemma foldl_set_add_elem (l acc : list jsstring) (y : jsstring) :
  y ∈ foldl set_add acc l <-> y ∈ acc \/ y ∈ l.
Proof.
  revert acc. induction l as [|x l IH]; intros acc; simpl.
  - split; [by left|]. by intros [?|?%elem_of_nil].
  - rewrite IH, set_add_elem, elem_of_cons. tauto.
Qed.

Lemma foldl_set_add_NoDup (l acc : list jsstring) :
  NoDup acc -> NoDup (foldl set_add acc l).
Proof.
  revert acc. induction l as [|x l IH]; intros acc Hacc; simpl; [done|].
  apply IH. unfold set_add. destruct (decide (x ∈ acc)); [done|].
  apply NoDup_app. repeat split; try done.
  - intros y Hy ->%list_elem_of_singleton. done.
  - apply NoDup_singleton.
Qed.

Lemma foldl_set_add_known (l acc : list jsstring) :
  (forall x, x ∈ l -> x ∈ acc) -> foldl set_add acc l = acc.
Proof.
  revert acc. induction l as [|x l IH]; intros acc Hl; simpl; [done|].
  unfold set_add. rewrite decide_True by (apply Hl; left).
  apply IH. intros y Hy. apply Hl. by right.
Qed.

Lemma foldl_set_add_fresh (l acc : list jsstring) :
  NoDup (acc ++ l) -> foldl set_add acc l = acc ++ l.
Proof.
  revert acc. induction l as [|x l IH]; intros acc Hnd; simpl.
  - by rewrite app_nil_r.
  - pose proof Hnd as (_ & Hdis & _)%NoDup_app.
    unfold set_add.
    rewrite decide_False by (intros Hx; eapply Hdis; [exact Hx|left]).
    rewrite IH; rewrite <- app_assoc; done.
Qed.

Lemma foldl_set_add_prefix (l acc : list jsstring) :
  acc `prefix_of` foldl set_add acc l.
Proof.
  revert acc. induction l as [|x l IH]; intros acc; simpl; [done|].
  etrans; [|apply IH]. unfold set_add. destruct (decide _); [done|].
  by apply prefix_app_r.
Qed.

Lemma array_from_set_elem (l : list jsstring) (y : jsstring) :
  y ∈ array_from_set l <-> y ∈ l.
Proof.
  unfold array_from_set. rewrite foldl_set_add_elem.
  split; [by intros [?%elem_of_nil|?]|by right].
Qed.

Lemma array_from_set_NoDup (l : list jsstring) : NoDup (array_from_set l).
Proof. apply foldl_set_add_NoDup, NoDup_nil_2. Qed.

Lemma array_from_set_fixed (l : list jsstring) :
  NoDup l -> array_from_set l = l.
Proof. intros Hl. unfold array_from_set. by rewrite foldl_set_add_fresh. Qed.

(** ** What global replacement keeps *)

Lemma replace_all_length (r : regex) (rep s : jsstring) :
  (forall prev s n g, match_here r prev s = Some (n, g) -> length rep <= n) ->
  length (replace_all r rep s) <= length s.
Proof.
  intros Hrep. unfold replace_all.
  pose proof (replace_scan_length r rep Hrep s None 0). lia.
Qed.

Lemma replace_lit_length (p rep s : jsstring) :
  length rep <= length p ->
  length (replace_all (lit p) rep s) <= length s.
Proof.
  intros Hle. apply replace_all_length. intros prev s' n g.
  rewrite match_here_lit. destruct (startsWith s' p); [|done].
  by intros [= <- _].
Qed.

(** The code units of the result come from the replacement or from the
    input. *)
Lemma replace_scan_Forall (Q : N -> Prop) (r : regex) (rep s : jsstring)
  (prev : option N) (skip : nat) :
  Forall Q rep -> Forall Q s -> Forall Q (replace_scan r rep prev s skip).
Proof.
  intros Hrep Hs. revert prev skip.
  induction Hs as [|c s Hc Hs IH]; intros prev skip; simpl.
  - destruct skip; [|done]. by destruct (match_here r prev []).
  - destruct skip as [|skip]; [|apply IH].
    destruct (match_here r prev (c :: s)) as [[[|n] g]|].
    + apply Forall_app. split; [done|]. constructor; [done|apply IH].
    + apply Forall_app. split; [done|apply IH].
    + constructor; [done|apply IH].
Qed.

(** With nothing put in, the result is what is left of the input. *)
Lemma replace_scan_sublist (r : regex) (s : jsstring) (prev : option N)
  (skip : nat) :
  replace_scan r [] prev s skip `sublist_of` s.
Proof.
  revert prev skip. induction s as [|c s IH]; intros prev skip; simpl.
  - destruct skip; [|done]. by destruct (match_here r prev []).
  - destruct skip as [|skip]; [|apply sublist_cons, IH].
    destruct (match_here r prev (c :: s)) as [[[|n] g]|]; simpl.
    + apply sublist_skip, IH.
    + apply sublist_cons, IH.
    + apply sublist_skip, IH.
Qed.

Lemma star_loop_accepts {A} (g : bool) (r : regex) (k : mstate -> option A)
  (n : nat) (st : mstate) :
  is_Some (k st) -> is_Some (star_loop g r k n st).
Proof.
  intros [a Hk]. rewrite star_loop_unfold. cbv zeta.
  destruct g; [|by rewrite Hk].
  destruct (match n with O => None | S n' => _ end); [done|by rewrite Hk].
Qed.

Lemma match_here_plus (p : N -> bool) (prev : option N) (c : N)
  (s : jsstring) :
  p c = true -> is_Some (match_here (plus true (Chr p)) prev (c :: s)).
Proof.
  intros Hc. unfold match_here, plus.
  change (rmatch (Seq (Chr p) (Star true (Chr p)))
            (MState prev (c :: s) None) Some)
    with (if p c
          then star_loop true (Chr p) Some (length s) (MState (Some c) s None)
          else None).
  rewrite Hc.
  destruct (star_loop_accepts true (Chr p) Some (length s)
              (MState (Some c) s None)) as [st Hst]; [done|].
  by rewrite Hst.
Qed.

(** After white space has been collapsed, the only white space left is the
    space. *)
Lemma collapse_plain_spaces (s : jsstring) (prev : option N) (skip : nat) :
  plain_spaces (replace_scan (plus true space) (js " ") prev s skip).
Proof.
  unfold plain_spaces. revert prev skip.
  induction s as [|c s IH]; intros prev skip; simpl.
  - destruct skip; [|done].
    destruct (match_here (plus true space) prev []); [|done].
    by repeat constructor.
  - destruct skip as [|skip]; [|apply IH].
    destruct (match_here (plus true space) prev (c :: s)) as [[[|n] g]|] eqn:Hm.
    + apply match_here_chr_first in Hm. lia.
    + constructor; [done|apply IH].
    + constructor; [|apply IH]. intros Hc.
      destruct (match_here_plus is_space prev c s Hc) as [? Hsome].
      unfold space in Hm. congruence.
Qed.

Lemma trimStart_split (s : jsstring) :
  exists pre, s = pre ++ trimStart s /\ Forall (fun c => is_space c = true) pre.
Proof.
  induction s as [|c s (pre & Hs & Hpre)]; simpl.
  - by exists [].
  - destruct (is_space c) eqn:Hc.
    + exists (c :: pre). split; [simpl; congruence|by constructor].
    + by exists [].
Qed.

Lemma trimStart_head (s : jsstring) (c : N) :
  head (trimStart s) = Some c -> is_space c = false.
Proof.
  induction s as [|a s IH]; simpl; [done|].
  destruct (is_space a) eqn:Ha; [done|]. by intros [= <-].
Qed.

Lemma trimEnd_split (s : jsstring) :
  exists post,
    s = trimEnd s ++ post /\ Forall (fun c => is_space c = true) post.
Proof.
  unfold trimEnd. destruct (trimStart_split (rev s)) as (pre & Hs & Hpre).
  exists (rev pre). split; [|by apply Forall_rev].
  rewrite <- rev_app_distr, <- Hs. by rewrite rev_involutive.
Qed.

Lemma trim_Forall (Q : N -> Prop) (s : jsstring) :
  Forall Q s -> Forall Q (trim s).
Proof.
  intros Hs. unfold trim.
  destruct (trimStart_split s) as (pre & Hs1 & _).
  destruct (trimEnd_split (trimStart s)) as (post & Hs2 & _).
  rewrite Hs1, Hs2 in Hs. rewrite !Forall_app in Hs. tauto.
Qed.

Lemma trim_trimmed (s : jsstring) : trimmed (trim s).
Proof.
  unfold trim. split.
  - intros c Hc.
    destruct (trimEnd_split (trimStart s)) as (post & Hs & _).
    apply (trimStart_head s). rewrite Hs.
    destruct (trimEnd (trimStart s)); [done|exact Hc].
  - intros c Hc. unfold trimEnd in Hc.
    apply (trimStart_head (rev (trimStart s))).
    destruct (trimStart (rev (trimStart s))) as [|a l]; [done|].
    simpl in Hc. by rewrite last_snoc in Hc.
Qed.

(** ** The sanitizers *)

Ltac shorter_pass :=
  first
    [ apply replace_lit_length; vm_compute; lia
    | apply collapse_length
    | apply replace_all_length; intros ? ? ? ? Hm;
      first [ apply match_here_chr_first in Hm; simpl; lia | simpl; lia ] ].

Lemma curated_strip_length (html : option jsstring) :
  length (Curated.strip html) <= length (default [] html).
Proof.
  unfold Curated.strip. cbv zeta.
  etrans; [apply trim_length|].
  repeat (etrans; [shorter_pass|]). done.
Qed.

Lemma simple_strip_length (html : option jsstring) :
  length (Simple.strip html) <= length (default [] html).
Proof.
  unfold Simple.strip. cbv zeta.
  etrans; [apply trim_length|].
  repeat (etrans; [shorter_pass|]). done.
Qed.

Ltac plain_rep :=
  repeat constructor; intros Hsp; vm_compute in Hsp;
  first [discriminate Hsp | reflexivity].

Lemma curated_strip_plain_spaces (html : option jsstring) :
  plain_spaces (Curated.strip html).
Proof.
  unfold Curated.strip. cbv zeta. apply trim_Forall. unfold replace_all.
  do 5 (apply replace_scan_Forall; [plain_rep|]).
  apply collapse_plain_spaces.
Qed.

Lemma simple_strip_plain_spaces (html : option jsstring) :
  plain_spaces (Simple.strip html).
Proof.
  unfold Simple.strip. cbv zeta. apply trim_Forall. unfold replace_all.
  do 9 (apply replace_scan_Forall; [plain_rep|]).
  apply collapse_plain_spaces.
Qed.

(** ** The query string of a link *)

Lemma is_newline_space (c : N) : is_newline c = true -> is_space c = true.
Proof.
  unfold is_newline. rewrite !orb_true_iff.
  intros [[[Hc|Hc]|Hc]|Hc]; apply N.eqb_eq in Hc; by subst.
Qed.

Lemma plain_spaces_dot (s : jsstring) :
  plain_spaces s -> Forall (fun c => negb (is_newline c) = true) s.
Proof.
  intros Hs. eapply Forall_impl; [exact Hs|]. intros c Hc. cbv beta in Hc.
  destruct (is_newline c) eqn:Hn; [|done].
  pose proof (Hc (is_newline_space c Hn)) as ->. done.
Qed.

Lemma first_occurrence (P : N -> bool) (s : jsstring) :
  Forall (fun c => P c = false) s \/
  exists x c t, s = x ++ c :: t /\ P c = true /\ Forall (fun c => P c = false) x.
Proof.
  induction s as [|a s [IH|(x & c & t & -> & Hc & Hx)]].
  - by left.
  - destruct (P a) eqn:Ha.
    + right. by exists [], a, s.
    + left. by constructor.
  - destruct (P a) eqn:Ha.
    + right. by exists [], a, (x ++ c :: t).
    + right. exists (a :: x), c, t. repeat split; [done|by constructor].
Qed.

Lemma query_starts : starts_in query (N.eqb 63).
Proof. intros c Hc. exact Hc. Qed.

Lemma match_here_query (prev : option N) (t : jsstring) :
  Forall (fun c => negb (is_newline c) = true) t ->
  match_here query prev (63%N :: t) = Some (S (length t), None).
Proof.
  intros Ht. unfold match_here, query.
  change (rmatch (seqs [ch 63; Star true dot; Eol])
            (MState prev (63%N :: t) None) Some)
    with (star_loop true dot (fun st => rmatch Eol st Some) (length t)
            (MState (Some 63%N) t None)).
  rewrite <- (app_nil_r t) at 2.
  unfold dot.
  rewrite (star_chr_greedy (fun c => negb (is_newline c))
             (fun st => rmatch Eol st Some)
             (MState (last_seen (Some 63%N) t) [] None) t [] None Ht I
             (length t) (Some 63%N) (le_n _) eq_refl).
  cbn [m_rest m_cap length]. f_equal; f_equal; lia.
Qed.

Lemma replace_first_query (s : jsstring) :
  plain_spaces s -> 63%N ∉ replace_first query [] s.
Proof.
  intros Hs. unfold replace_first, exec.
  destruct (first_occurrence (N.eqb 63) s) as [Hnone|(x & c & t & -> & Hc & Hx)].
  - rewrite (search_none query (N.eqb 63)) by (done || apply query_starts).
    intros Hin. rewrite Forall_forall in Hnone. apply Hnone in Hin.
    by rewrite N.eqb_refl in Hin.
  - apply N.eqb_eq in Hc as <-.
    rewrite (search_prefix query (N.eqb 63)) by (done || apply query_starts).
    cbn [search]. rewrite match_here_query.
    + cbn [m_index m_length].
      rewrite take_app_length', drop_ge by (rewrite ?length_app; simpl; lia).
      rewrite !app_nil_r. intros Hin. rewrite Forall_forall in Hx.
      apply Hx in Hin. by rewrite N.eqb_refl in Hin.
    + apply plain_spaces_dot in Hs. rewrite Forall_app, Forall_cons in Hs. tauto.
Qed.

(** ** What a match spans and captures *)

Lemma matches_span (Q : N -> Prop) (r : regex) (st st' : mstate) :
  classes_in r Q -> matches r st st' ->
  exists x, m_rest st = x ++ m_rest st' /\ Forall Q x.
Proof.
  intros Hr Hm. induction Hm; simpl in Hr.
  - by exists [].
  - exists [c]. split; [done|]. repeat constructor. by apply Hr.
  - destruct Hr as [Hr1 Hr2].
    destruct (IHHm1 Hr1) as (x1 & -> & Hx1).
    destruct (IHHm2 Hr2) as (x2 & -> & Hx2).
    exists (x1 ++ x2). split; [by rewrite app_assoc|by apply Forall_app].
  - apply IHHm, Hr.
  - apply IHHm, Hr.
  - by exists [].
  - destruct (IHHm1 Hr) as (x1 & -> & Hx1).
    destruct (IHHm2 Hr) as (x2 & -> & Hx2).
    exists (x1 ++ x2). split; [by rewrite app_assoc|by apply Forall_app].
  - destruct (IHHm Hr) as (x & Hx & HQ). by exists x.
  - by exists [].
  - by exists [].
Qed.

Lemma matches_cap (r : regex) (st st' : mstate) :
  no_group r -> matches r st st' -> m_cap st' = m_cap st.
Proof.
  intros Hr Hm. induction Hm; simpl in Hr; try done.
  - destruct Hr as [Hr1 Hr2]. rewrite IHHm2 by done. by apply IHHm1.
  - apply IHHm, Hr.
  - apply IHHm, Hr.
  - rewrite IHHm2 by done. by apply IHHm1.
Qed.

Lemma matches_seq_inv (r1 r2 : regex) (st st' : mstate) :
  matches (Seq r1 r2) st st' ->
  exists mid, matches r1 st mid /\ matches r2 mid st'.
Proof. inversion 1; subst. eauto. Qed.

Lemma match_here_sound (r : regex) (prev : option N) (s : jsstring) (n : nat)
  (g : option jsstring) :
  match_here r prev s = Some (n, g) ->
  exists st', matches r (MState prev s None) st' /\ m_cap st' = g.
Proof.
  unfold match_here.
  destruct (rmatch r _ Some) as [st'|] eqn:Hr; [|done].
  apply rmatch_sound in Hr as (st1 & Hm & [= ->]).
  intros [= _ <-]. eauto.
Qed.

Lemma search_sound (r : regex) (prev : option N) (s : jsstring) (i : nat)
  (m : rmatch_result) :
  search r prev s i = Some m ->
  exists prev' s' st',
    matches r (MState prev' s' None) st' /\ m_cap st' = m_group m.
Proof.
  revert prev i. induction s as [|c s IH]; intros prev i; cbn [search];
    destruct (match_here r prev _) as [[n g]|] eqn:Hm.
  - intros [= <-]. apply match_here_sound in Hm as (st' & ? & ?).
    by exists prev, [], st'.
  - done.
  - intros [= <-]. apply match_here_sound in Hm as (st' & ? & ?).
    by exists prev, (c :: s), st'.
  - apply IH.
Qed.

Lemma match1_sound (r : regex) (s g : jsstring) :
  match1 r s = Some g ->
  exists prev' s' st',
    matches r (MState prev' s' None) st' /\ m_cap st' = Some g.
Proof.
  unfold match1, exec. destruct (search r None s 0) as [m|] eqn:Hs; [|done].
  intros Hg. apply search_sound in Hs as (prev' & s' & st' & ? & Hcap).
  exists prev', s', st'. by rewrite Hcap.
Qed.

Lemma matches_grp_inv (r : regex) (st st2 : mstate) :
  matches (Grp r) st st2 ->
  exists st',
    matches r st st' /\
    m_cap st2
    = Some (take (length (m_rest st) - length (m_rest st')) (m_rest st)).
Proof. inversion 1; subst. eauto. Qed.

Lemma matches_chr_inv (p : N -> bool) (st st' : mstate) :
  matches (Chr p) st st' ->
  exists c, p c = true /\ m_rest st = c :: m_rest st'.
Proof. inversion 1; subst. eauto. Qed.

Lemma company_capture (st st' : mstate) :
  matches (Seq Curated.company_name Curated.company_end) st st' ->
  exists c g, m_cap st' = Some (c :: g) /\ is_alpha c = true /\
              Forall (fun c => company_char c = true) (c :: g).
Proof.
  intros (mid & Hname & Hend)%matches_seq_inv.
  apply matches_cap in Hend; [|cbv; tauto]. rewrite Hend.
  apply matches_grp_inv in Hname as (st1 & Hbody & ->).
  pose proof Hbody as Hspan.
  apply (matches_span (fun c => company_char c = true)) in Hspan
    as (x & Hx & Hcls);
    [|simpl; repeat split; intros c Hc; unfold company_char;
      rewrite ?Hc; done].
  apply matches_seq_inv in Hbody as (st2 & Hfirst & Hrest).
  apply matches_chr_inv in Hfirst as (c & Hc & Hst).
  apply (matches_span (fun _ => True)) in Hrest as (y & Hy & _);
    [|by repeat split].
  rewrite Hx, length_app, Nat.add_sub, take_app_length.
  rewrite Hst, Hy in Hx.
  change (c :: y ++ m_rest st1) with ((c :: y) ++ m_rest st1) in Hx.
  apply app_inv_tail in Hx as <-. eauto.
Qed.

Lemma company_pattern_capture (r : regex) (title g : jsstring) :
  r ∈ Curated.company_patterns ->
  match1 r title = Some g ->
  exists c g', g = c :: g' /\ is_alpha c = true /\
               Forall (fun c => company_char c = true) g.
Proof.
  intros Hr (prev & s & st' & Hm & Hcap)%match1_sound.
  assert (Htail : exists st1,
            matches (Seq Curated.company_name Curated.company_end) st1 st').
  { unfold Curated.company_patterns in Hr.
    repeat (apply elem_of_cons in Hr as [->|Hr]);
      try (by apply elem_of_nil in Hr);
      apply matches_seq_inv in Hm as (? & _ & (? & _ & ?)%matches_seq_inv);
      eauto. }
  destruct Htail as (st1 & (c & g' & Hcap' & ? & ?)%company_capture).
  rewrite Hcap in Hcap'. injection Hcap' as ->. eauto.
Qed.

Lemma alpha_not_space (c : N) : is_alpha c = true -> is_space c = false.
Proof.
  unfold is_alpha, is_upper, is_lower, is_space, in_range.
  intros Ha. apply not_true_is_false. intros Hs.
  rewrite !orb_true_iff, !andb_true_iff, !N.leb_le in Ha.
  rewrite !orb_true_iff, !andb_true_iff, !N.leb_le, !N.eqb_eq in Hs.
  lia.
Qed.

Lemma trim_company (c : N) (g : jsstring) :
  is_alpha c = true -> exists rest, trim (c :: g) = c :: rest.
Proof.
  intros Hc%alpha_not_space. unfold trim.
  cbn [trimStart]. rewrite Hc.
  destruct (trimEnd_split (c :: g)) as (post & Hs & Hpost).
  destruct (trimEnd (c :: g)) as [|a rest].
  - simpl in Hs. subst post. apply Forall_inv in Hpost. congruence.
  - injection Hs as <- _. eauto.
Qed.

(** ** Exact tags *)

Section Tags.
Context `{Host}.

(** The six slots of [generateTags] hold at most six tags: the final
    [slice] cuts nothing. *)
Lemma generateTags_exact (t d c : jsstring) :
  let text := toLowerCase (t ++ js " " ++ d) in
  exists ty, ty ∈ JOB_TYPES /\
    Curated.generateTags t d c
    = (if existsb (fun keyword => includes text (toLowerCase keyword))
            Curated.BEGINNER_KEYWORDS
       then [js "entry-level"] else [])
      ++ (if test (pattern true "junior|1-2.years") text
          then [js "junior"] else [])
      ++ [ty]
      ++ (if test (pattern true "remote|anywhere|global|distributed") text
          then [js "remote"] else [])
      ++ (if bool_decide (c <> js "other") then [c] else [])
      ++ (if test (pattern true "no.experience|entry.level|beginner") text
          then [js "no-experience"] else []).
Proof.
  unfold Curated.generateTags, slice0.
  generalize (toLowerCase (t ++ js " " ++ d)). intros text. cbv zeta.
  set (b1 := existsb _ _).
  set (b2 := test (pattern true "junior|1-2.years") text).
  set (b3 := test (pattern true "part.?time|parttime") text).
  set (b4 := test (pattern true "contract|contractor|freelance") text).
  set (b5 := test (pattern true "intern|internship") text).
  set (b6 := test (pattern true "remote|anywhere|global|distributed") text).
  set (b7 := bool_decide (c <> js "other")).
  set (b8 := test (pattern true "no.experience|entry.level|beginner") text).
  clearbody b1 b2 b3 b4 b5 b6 b7 b8.
  exists (if b3 then js "part-time" else if b4 then js "contract"
          else if b5 then js "internship" else js "full-time").
  split.
  - unfold JOB_TYPES. cbn [map].
    destruct b3, b4, b5;
      repeat first [apply list_elem_of_here | apply list_elem_of_further].
  - destruct b1, b2, b3, b4, b5, b6, b7, b8; reflexivity.
Qed.
End Tags.

Section TagFacts.
Context `{Host}.

Lemma generateTags_elem (t d c : jsstring) :
  let text := toLowerCase (t ++ js " " ++ d) in
  exists ty, ty ∈ JOB_TYPES /\
    forall x,
      x ∈ Curated.generateTags t d c <->
      (existsb (fun keyword => includes text (toLowerCase keyword))
         Curated.BEGINNER_KEYWORDS = true /\ x = js "entry-level") \/
      (test (pattern true "junior|1-2.years") text = true /\ x = js "junior") \/
      x = ty \/
      (test (pattern true "remote|anywhere|global|distributed") text = true
       /\ x = js "remote") \/
      (c <> js "other" /\ x = c) \/
      (test (pattern true "no.experience|entry.level|beginner") text = true
       /\ x = js "no-experience").
Proof.
  intros text. destruct (generateTags_exact t d c) as (ty & Hty & ->).
  exists ty. split; [done|]. intros x. fold text.
  rewrite !elem_of_app, list_elem_of_singleton.
  destruct (existsb _ _), (test (pattern true "junior|1-2.years") text),
    (test (pattern true "remote|anywhere|global|distributed") text),
    (test (pattern true "no.experience|entry.level|beginner") text);
    case_bool_decide;
    rewrite ?list_elem_of_singleton, ?elem_of_nil; intuition congruence.
Qed.

Lemma categories_apart (x : jsstring) :
  x ∈ CATEGORIES ->
  (x ∉ JOB_TYPES) /\ x <> js "entry-level" /\ x <> js "junior"
  /\ x <> js "remote" /\ x <> js "no-experience".
Proof.
  unfold CATEGORIES. cbn [map]. intros Hx.
  repeat (apply elem_of_cons in Hx as [->|Hx]);
    try (by apply elem_of_nil in Hx);
    (split; [apply (bool_decide_unpack _); vm_compute; exact I|done]).
Qed.

Lemma job_types_apart (x : jsstring) :
  x ∈ JOB_TYPES ->
  x <> js "entry-level" /\ x <> js "junior" /\ x <> js "remote"
  /\ x <> js "no-experience".
Proof.
  unfold JOB_TYPES. cbn [map]. intros Hx.
  repeat (apply elem_of_cons in Hx as [->|Hx]);
    try (by apply elem_of_nil in Hx); done.
Qed.
End TagFacts.

(** ** More on filtering by key *)

Section DedupeMore.
Context {A : Type} (key : A -> jsstring).

Lemma dedupe_by_distinct (seen : gset (list N)) (l : list A) :
  NoDup (key <$> l) -> (forall x, x ∈ l -> key x ∉ seen) ->
  dedupe_by key seen l = l.
Proof.
  revert seen. induction l as [|a l IH]; intros seen Hnd Hseen; simpl; [done|].
  rewrite fmap_cons in Hnd. apply NoDup_cons in Hnd as [Ha Hnd].
  rewrite decide_False by (apply Hseen; left). f_equal.
  apply IH; [done|]. intros x Hx.
  intros [Hk%elem_of_singleton|Hk]%elem_of_union.
  - apply Ha. rewrite <- Hk. by apply list_elem_of_fmap_2.
  - eapply Hseen; [by right|done].
Qed.

Lemma dedupe_by_fixed (l : list A) :
  dedupe_by key ∅ l = l <-> NoDup (key <$> l).
Proof.
  split.
  - intros <-. apply dedupe_by_NoDup.
  - intros Hnd. apply dedupe_by_distinct; [done|].
    intros x _. apply not_elem_of_empty.
Qed.

Lemma dedupe_by_idemp (l : list A) :
  dedupe_by key ∅ (dedupe_by key ∅ l) = dedupe_by key ∅ l.
Proof. apply dedupe_by_fixed, dedupe_by_NoDup. Qed.
End DedupeMore.

(** ** More on sorting *)

Section SortMore.
Context {A : Type} (ts : A -> Z) (comparefn : A -> A -> option Z).

(** Inserting keeps the records of one time in their order. *)
Lemma sort_insert_stable (t : Z) (x : A) (l : list A) :
  (forall y, y ∈ l -> comparefn x y = Some (ts y - ts x)%Z) ->
  filter (fun j => ts j = t) (sort_insert comparefn x l)
  = filter (fun j => ts j = t) (x :: l).
Proof.
  induction l as [|y l IH]; intros Hcmp; [done|]. simpl.
  unfold sort_compare. rewrite (Hcmp y) by left. simpl.
  destruct (Z.leb_spec (ts y - ts x) 0) as [Hle|Hgt]; [done|].
  rewrite filter_cons, IH by (intros z Hz; apply Hcmp; by right).
  rewrite !filter_cons.
  repeat case_decide; try done; lia.
Qed.

Lemma sort_stable (t : Z) (l : list A) :
  by_ts_on ts comparefn l ->
  filter (fun j => ts j = t) (sort comparefn l)
  = filter (fun j => ts j = t) l.
Proof.
  unfold sort. induction l as [|x l IH]; intros Hcmp; [done|]. simpl.
  rewrite sort_insert_stable.
  - rewrite !filter_cons, IH; [done|].
    intros y z Hy Hz. apply Hcmp; by right.
  - intros y Hy. apply Hcmp; [left|]. right.
    by rewrite <- (sort_perm comparefn l).
Qed.

(** An array that is in order already is left as it is. *)
Lemma sort_sorted_fixed (l : list A) :
  by_ts_on ts comparefn l -> StronglySorted (not_older ts) l ->
  sort comparefn l = l.
Proof.
  unfold sort. intros Hcmp Hl. induction Hl as [|x l Hl IH Hx]; [done|].
  simpl. rewrite IH by (intros y z Hy Hz; apply Hcmp; by right).
  destruct l as [|y l]; [done|]. simpl.
  unfold sort_compare. rewrite (Hcmp x y) by (left || (right; left)). simpl.
  apply Forall_inv in Hx. unfold not_older in Hx.
  by rewrite (proj2 (Z.leb_le _ _)) by lia.
Qed.
End SortMore.

(** ** Single spacing *)

Lemma single_spaced_app (a b : jsstring) :
  single_spaced a -> single_spaced b ->
  (forall c, last a = Some c -> is_space c = false) \/ no_space_first b ->
  single_spaced (a ++ b).
Proof.
  intros Ha Hb Hab. induction a as [|x a IH]; [done|].
  cbn [app single_spaced] in *. destruct Ha as [Hx Ha]. split.
  - destruct a as [|y a]; [|done]. cbn [app].
    destruct b as [|y b]; [done|]. intros Hsp.
    destruct Hab as [Hlast|Hfirst]; [|by apply Hfirst].
    specialize (Hlast x eq_refl). congruence.
  - apply IH; [done|]. destruct Hab as [Hlast|?]; [|by right].
    left. intros c Hc. apply Hlast. by destruct a.
Qed.

Lemma single_spaced_app_l (a b : jsstring) :
  single_spaced (a ++ b) -> single_spaced a.
Proof.
  induction a as [|x a IH]; [done|]. cbn [app single_spaced].
  intros [Hx Hab]. split; [|by apply IH].
  destruct a as [|y a]; [done|]. done.
Qed.

Lemma single_spaced_app_r (a b : jsstring) :
  single_spaced (a ++ b) -> single_spaced b.
Proof.
  induction a as [|x a IH]; [done|]. cbn [app single_spaced].
  intros [_ Hab]. by apply IH.
Qed.

Lemma single_spaced_no_space (s : jsstring) :
  Forall (fun c => is_space c = false) s -> single_spaced s.
Proof.
  induction 1 as [|c s Hc Hs IH]; [done|]. cbn [single_spaced].
  split; [|done]. destruct s; [done|]. congruence.
Qed.

Lemma startsWith_split (s p : jsstring) :
  startsWith s p = true -> s = p ++ drop (length p) s.
Proof.
  revert s. induction p as [|a p IH]; intros [|b s]; simpl; try done.
  intros [->%N.eqb_eq Hs]%andb_true_iff. f_equal. by apply IH.
Qed.

Section Passes.
Context (p rep : jsstring).
Hypothesis rep_no_space : Forall (fun c => is_space c = false) rep.
Hypothesis rep_not_empty : rep <> [].
Hypothesis p_not_empty : p <> [].

(** A literal pass that puts in text without white space. *)
Lemma literal_pass_single_spaced (n : nat) :
  forall (s : jsstring) (prev : option N),
    length s <= n ->
    single_spaced s ->
    single_spaced (replace_scan (lit p) rep prev s 0) /\
    (no_space_first s -> no_space_first (replace_scan (lit p) rep prev s 0)).
Proof.
  induction n as [|n IH]; intros s prev Hn Hs.
  - destruct s; [|simpl in Hn; lia]. cbn [replace_scan].
    rewrite match_here_lit. destruct p; [done|]. done.
  - destruct s as [|c s].
    { cbn [replace_scan]. rewrite match_here_lit. destruct p; done. }
    cbn [replace_scan]. rewrite match_here_lit.
    destruct (startsWith (c :: s) p) eqn:Hp.
    + destruct p as [|a p'] eqn:Heqp; [done|]. cbn [length].
      apply startsWith_split in Hp. cbn [length drop app] in Hp.
      injection Hp as -> Hs'.
      rewrite Hs', replace_scan_skip.
      assert (Hlen : length (drop (length p') s) <= n).
      { rewrite length_drop. simpl in Hn. lia. }
      assert (Hss : single_spaced (drop (length p') s)).
      { rewrite Hs' in Hs. cbn [single_spaced] in Hs. destruct Hs as [_ Hs].
        by apply single_spaced_app_r in Hs. }
      destruct (IH _ (last_seen (Some a) p') Hlen Hss) as [Hout _].
      split.
      * apply single_spaced_app; [by apply single_spaced_no_space|done|].
        left. intros x Hx. rewrite Forall_forall in rep_no_space.
        apply rep_no_space. apply last_Some in Hx as (l & ->).
        apply elem_of_app. right. left.
      * intros _ x Hx. rewrite Forall_forall in rep_no_space.
        apply rep_no_space. destruct rep as [|r0 rep']; [done|].
        injection Hx as <-. left.
    + cbn [single_spaced] in Hs. destruct Hs as [Hc Hs].
      destruct (IH s (Some c) ltac:(simpl in Hn; lia) Hs) as [Hout Hfirst].
      split.
      * cbn [single_spaced]. split; [|done].
        destruct (replace_scan (lit p) rep (Some c) s 0) as [|b o] eqn:Ho;
          [done|].
        intros Hsp. apply Hfirst; [|done].
        intros x Hx. destruct s as [|y s]; [done|].
        injection Hx as <-. by apply Hc.
      * intros Hc' x [= <-]. by apply Hc'.
Qed.
End Passes.

(** The run of white space a string begins with. *)
Lemma leading_run (s : jsstring) :
  exists x t, s = x ++ t /\ Forall (fun c => is_space c = true) x /\
              no_space_first t.
Proof.
  induction s as [|c s (x & t & -> & Hx & Ht)].
  - exists [], []. by repeat split.
  - destruct (is_space c) eqn:Hc.
    + exists (c :: x), t. repeat split; [by constructor|done].
    + exists [], (c :: x ++ t). repeat split; [done|].
      intros a [= <-]. done.
Qed.

Lemma match_here_spaces (prev : option N) (c : N) (x t : jsstring) :
  Forall (fun c => is_space c = true) (c :: x) -> no_space_first t ->
  match_here (plus true space) prev (c :: x ++ t) = Some (S (length x), None).
Proof.
  intros Hx Ht. apply Forall_cons in Hx as [Hc Hx].
  unfold match_here, plus, space.
  change (rmatch (Seq (Chr is_space) (Star true (Chr is_space)))
            (MState prev (c :: x ++ t) None) Some)
    with (if is_space c
          then star_loop true (Chr is_space) Some (length (x ++ t))
                 (MState (Some c) (x ++ t) None)
          else None).
  rewrite Hc.
  rewrite (star_chr_greedy is_space Some
             (MState (last_seen (Some c) x) t None) x t None Hx
             ltac:(destruct t as [|a t']; [done|by apply Ht])
             (length (x ++ t)) (Some c)
             ltac:(rewrite length_app; lia) eq_refl).
  cbn [m_rest m_cap length]. rewrite length_app.
  f_equal; f_equal; lia.
Qed.

Lemma collapse_single_spaced (n : nat) :
  forall (s : jsstring) (prev : option N),
    length s <= n ->
    single_spaced (replace_scan (plus true space) (js " ") prev s 0) /\
    (no_space_first s ->
     no_space_first (replace_scan (plus true space) (js " ") prev s 0)).
Proof.
  induction n as [|n IH]; intros s prev Hn.
  - destruct s; [|simpl in Hn; lia]. cbn [replace_scan].
    by rewrite (match_here_starts_in (plus true space) is_space prev []
                  space_starts I).
  - destruct s as [|c s].
    { cbn [replace_scan].
      by rewrite (match_here_starts_in (plus true space) is_space prev []
                    space_starts I). }
    destruct (is_space c) eqn:Hc.
    + destruct (leading_run s) as (x & t & -> & Hx & Ht).
      cbn [replace_scan].
      rewrite match_here_spaces by (by constructor || done).
      rewrite replace_scan_skip.
      destruct (IH t (last_seen (Some c) x)) as [Hout Hfirst].
      { simpl in Hn. rewrite length_app in Hn. lia. }
      split.
      * apply (single_spaced_app (js " ")); [done|done|]. right.
        by apply Hfirst.
      * intros Hfalse. specialize (Hfalse c eq_refl). congruence.
    + cbn [replace_scan].
      rewrite (match_here_starts_in (plus true space) is_space)
        by (done || apply space_starts).
      destruct (IH s (Some c) ltac:(simpl in Hn; lia)) as [Hout Hfirst].
      split.
      * cbn [single_spaced]. split; [|done].
        destruct (replace_scan _ _ _ s 0); [done|]. congruence.
      * intros _ x [= <-]. done.
Qed.

Lemma trim_single_spaced (s : jsstring) :
  single_spaced s -> single_spaced (trim s).
Proof.
  intros Hs. unfold trim.
  destruct (trimStart_split s) as (pre & Hs1 & _).
  destruct (trimEnd_split (trimStart s)) as (post & Hs2 & _).
  rewrite Hs1, Hs2 in Hs.
  by apply single_spaced_app_r, single_spaced_app_l in Hs.
Qed.

Lemma curated_strip_single_spaced (html : option jsstring) :
  single_spaced (Curated.strip html).
Proof.
  unfold Curated.strip. cbv zeta. apply trim_single_spaced.
  unfold replace_all.
  do 5 (eapply literal_pass_single_spaced;
        [by repeat constructor|done|done|reflexivity|]).
  eapply collapse_single_spaced. reflexivity.
Qed.

(** ** The link of a record *)

Lemma curated_item_link `{Host} (now : Z) (src block : jsstring) (r : Job) :
  Curated.item_of now src block = Some r ->
  source_url r
  = replace_first query []
      (orElse (orElse (Curated.strip (Some (Curated.pick block "link")))
                 (Curated.strip (Some (Curated.pick block "guid")))) []).
Proof.
  unfold Curated.item_of.
  match goal with |- context [if negb ?b then _ else _] =>
    destruct b end; cbn [negb]; [|done].
  match goal with |- context [if ?b || _ then _ else _] =>
    destruct b end; cbn [orb]; [done|].
  match goal with |- context [if ?b then _ else _] =>
    destruct b end; [done|].
  match goal with |- context [if negb ?b then _ else _] =>
    destruct b end; cbn [negb]; [|done].
  by intros [= <-].
Qed.

(** ** The run of the inline-tagging revision *)

Section SimpleRun.
Context `{Host}.

Lemma simple_item_of_Throw (now : Z) (src block : jsstring) (e : exn) :
  Simple.item_of now src block = Throw e <->
  simple_title block <> [] /\ simple_link block <> [] /\
  Date_parse (simple_pubDate now block) = None /\ e = invalid_time.
Proof.
  unfold Simple.item_of. fold (simple_title block) (simple_link block)
    (simple_pubDate now block).
  destruct (decide (simple_title block = [])) as [Ht|Ht].
  - rewrite bool_decide_true by done. cbn [orb]. split; [done|tauto].
  - rewrite (bool_decide_false _ Ht). cbn [orb].
    destruct (decide (simple_link block = [])) as [Hl|Hl].
    + rewrite bool_decide_true by done. split; [done|tauto].
    + rewrite (bool_decide_false _ Hl).
      destruct (Date_parse (simple_pubDate now block)).
      * split; [done|]. by intros (_ & _ & ? & _).
      * split; [by intros [= <-]|by intros (_ & _ & _ & ->)].
Qed.

Lemma simple_items_loop_Throw (now : nat -> Z) (src : jsstring)
  (ms : list rmatch_result) (i k : nat) (m : rmatch_result)
  (acc : list Job) (e : exn) :
  ms !! k = Some m ->
  Simple.item_of (now (i + k)) src (default [] (m_group m)) = Throw e ->
  Simple.items_loop now src i ms acc = Throw invalid_time.
Proof.
  revert i k acc. induction ms as [|m0 ms IH]; intros i k acc;
    [done|].
  cbn [Simple.items_loop]. intros Hm Hthrow.
  destruct k as [|k]; cbn [lookup list_lookup] in Hm.
  - injection Hm as ->. rewrite Nat.add_0_r in Hthrow. rewrite Hthrow.
    apply simple_item_of_Throw in Hthrow as (_ & _ & _ & ->). done.
  - destruct (Simple.item_of (now i) src _) as [[j|]|e0] eqn:H0.
    + eapply (IH (S i) k); [done|]. by rewrite Nat.add_succ_comm.
    + eapply (IH (S i) k); [done|]. by rewrite Nat.add_succ_comm.
    + apply simple_item_of_Throw in H0 as (_ & _ & _ & ->). done.
Qed.

Lemma simple_rssToItems_Throw (now : nat -> Z) (xml src : jsstring)
  (k : nat) (m : rmatch_result) (e : exn) :
  matchAll Simple.itemRe xml !! k = Some m ->
  Simple.item_of (now k) src (default [] (m_group m)) = Throw e ->
  Simple.rssToItems now xml src = Throw invalid_time.
Proof.
  unfold Simple.rssToItems. destruct xml as [|c xml]; [done|].
  intros Hm Hthrow. by eapply (simple_items_loop_Throw now src _ 0 k).
Qed.

Lemma simple_rssToItems_Throw_is (now : nat -> Z) (xml src : jsstring)
  (e : exn) :
  Simple.rssToItems now xml src = Throw e -> e = invalid_time.
Proof.
  unfold Simple.rssToItems. destruct xml as [|c xml]; [done|].
  generalize (matchAll Simple.itemRe (c :: xml)) 0 (@nil Job).
  intros ms. induction ms as [|m0 ms IH]; intros i acc; [done|].
  cbn [Simple.items_loop].
  destruct (Simple.item_of (now i) src _) as [[j|]|e0] eqn:H0; try apply IH.
  apply simple_item_of_Throw in H0 as (_ & _ & _ & ->). by intros [= <-].
Qed.

Lemma simple_collect_Throw (w : Curated.World) (srcs : list Simple.Source)
  (i k : nat) (src : Simple.Source) (body : jsstring) (acc : list Job)
  (e : exn) :
  srcs !! k = Some src ->
  Simple.safeFetch (Curated.fetch w) (Simple.url src) = Some body ->
  Simple.rssToItems (Curated.clock w (i + k)) body (Simple.name src) = Throw e ->
  Simple.collect w i srcs acc = Throw invalid_time.
Proof.
  revert i k acc. induction srcs as [|s0 srcs IH]; intros i k acc; [done|].
  cbn [Simple.collect]. intros Hsrc Hfetch Hthrow.
  destruct k as [|k]; cbn [lookup list_lookup] in Hsrc.
  - injection Hsrc as ->. rewrite Hfetch. rewrite Nat.add_0_r in Hthrow.
    destruct body as [|c body]; [done|]. rewrite Hthrow.
    by apply simple_rssToItems_Throw_is in Hthrow as ->.
  - rewrite <- Nat.add_succ_comm in Hthrow.
    destruct (Simple.safeFetch _ (Simple.url s0)) as [[|c b0]|];
      try by eapply (IH (S i) k).
    destruct (Simple.rssToItems _ (c :: b0) _) as [items|e0] eqn:H0.
    + by eapply (IH (S i) k).
    + by apply simple_rssToItems_Throw_is in H0 as ->.
Qed.

Lemma simple_collect_Normal (w : Curated.World) (srcs : list Simple.Source)
  (i : nat) (acc all : list Job) :
  Simple.collect w i srcs acc = Normal all ->
  (forall r, r ∈ acc -> r ∈ all) /\
  forall k src body items r,
    srcs !! k = Some src ->
    Simple.safeFetch (Curated.fetch w) (Simple.url src) = Some body ->
    Simple.rssToItems (Curated.clock w (i + k)) body (Simple.name src)
    = Normal items ->
    r ∈ items -> r ∈ all.
Proof.
  revert i acc. induction srcs as [|s0 srcs IH]; intros i acc;
    cbn [Simple.collect].
  - intros [= <-]. split; [done|]. by intros.
  - destruct (Simple.safeFetch _ (Simple.url s0)) as [[|c b0]|] eqn:Hf0.
    + intros [Hacc Hsrc]%IH. split; [done|].
      intros [|k] src body items r; cbn [lookup list_lookup].
      * intros [= <-]. rewrite Hf0. intros [= <-].
        cbn [Simple.rssToItems]. intros [= <-]. by intros ?%elem_of_nil.
      * rewrite <- Nat.add_succ_comm. apply Hsrc.
    + destruct (Simple.rssToItems _ (c :: b0) _) as [items0|e0] eqn:H0; [|done].
      intros [Hacc Hsrc]%IH. split.
      * intros r Hr. apply Hacc, elem_of_app. by left.
      * intros [|k] src body items r; cbn [lookup list_lookup].
        -- intros [= <-]. rewrite Hf0. intros [= <-].
           rewrite Nat.add_0_r, H0. intros [= <-] Hr.
           apply Hacc, elem_of_app. by right.
        -- rewrite <- Nat.add_succ_comm. apply Hsrc.
    + intros [Hacc Hsrc]%IH. split; [done|].
      intros [|k] src body items r; cbn [lookup list_lookup].
      * intros [= <-]. by rewrite Hf0.
      * rewrite <- Nat.add_succ_comm. apply Hsrc.
Qed.
End SimpleRun.

Section SimpleTags.
Context `{Host}.

Lemma simple_tags_of_exact (fullText : jsstring) :
  exists ty, ty ∈ JOB_TYPES /\
    Simple.tags_of fullText
    = (if test (Simple.word_of "entry|junior|jr|associate|intern|trainee|graduate|new grad|no experience|beginner") fullText
       then [js "entry-level"] else [])
      ++ (if test (Simple.word_of "junior|jr|1-2 years") fullText
          then [js "junior"] else [])
      ++ (if test (Simple.word_of "senior|sr|lead|principal|staff|experienced|expert") fullText
          then [js "senior"] else [])
      ++ [ty; js "remote"].
Proof.
  unfold Simple.tags_of. cbv zeta.
  generalize (test (Simple.word_of "entry|junior|jr|associate|intern|trainee|graduate|new grad|no experience|beginner") fullText).
  generalize (test (Simple.word_of "junior|jr|1-2 years") fullText).
  generalize (test (Simple.word_of "senior|sr|lead|principal|staff|experienced|expert") fullText).
  generalize (test (Simple.word_of "part.time|parttime") fullText).
  generalize (test (Simple.word_of "contract|freelance|consultant") fullText).
  generalize (test (Simple.word_of "intern|internship") fullText).
  intros b6 b5 b4 b3 b2 b1.
  exists (if b4 then js "part-time" else if b5 then js "contract"
          else if b6 then js "internship" else js "full-time").
  split.
  - unfold JOB_TYPES. cbn [map].
    destruct b4, b5, b6;
      repeat first [apply list_elem_of_here | apply list_elem_of_further].
  - destruct b1, b2, b3, b4, b5, b6; reflexivity.
Qed.

Lemma simple_tags_of_shape (fullText : jsstring) :
  NoDup (Simple.tags_of fullText) /\
  2 <= length (Simple.tags_of fullText) <= 5 /\
  last (Simple.tags_of fullText) = Some (js "remote") /\
  exists ty, ty ∈ JOB_TYPES /\ ty ∈ Simple.tags_of fullText /\
    forall ty', ty' ∈ JOB_TYPES -> ty' ∈ Simple.tags_of fullText -> ty' = ty.
Proof.
  destruct (simple_tags_of_exact fullText) as (ty & Hty & ->).
  destruct (job_types_apart ty Hty) as (Hy1 & Hy2 & Hy3 & Hy4).
  assert (Hsenior : ty <> js "senior").
  { intros ->. revert Hty. apply (bool_decide_unpack _). vm_compute. exact I. }
  split; [|split; [|split]].
  - eapply (sublist_NoDup _ [js "entry-level"; js "junior"; js "senior"; ty;
                             js "remote"]).
    + clear -Hty. unfold JOB_TYPES in Hty. cbn [map] in Hty.
      repeat (apply elem_of_cons in Hty as [->|Hty]);
        try (by apply elem_of_nil in Hty);
        apply (bool_decide_unpack _); vm_compute; exact I.
    + do 3 (match goal with |- context [if ?b then _ else _] =>
              destruct b end); cbn [app];
        repeat first [apply sublist_skip | apply sublist_cons
                     | apply sublist_nil]; done.
  - do 3 (match goal with |- context [if ?b then _ else _] =>
            destruct b end); simpl; lia.
  - rewrite !app_assoc.
    change [ty; js "remote"] with ([ty] ++ [js "remote"]).
    rewrite app_assoc. apply last_snoc.
  - exists ty. split; [done|]. split.
    + rewrite !elem_of_app. do 3 right. left.
    + intros ty' Hty'.
      destruct (job_types_apart ty' Hty') as (? & ? & ? & ?).
      assert (ty' <> js "senior").
      { intros ->. revert Hty'. apply (bool_decide_unpack _).
        vm_compute. exact I. }
      rewrite !elem_of_app.
      do 3 (match goal with |- context [if ?b then _ else _] =>
              destruct b end);
        rewrite ?elem_of_cons, ?elem_of_nil; intuition congruence.
Qed.
End SimpleTags.

(** ** The transport of the revision with per-source parsers *)

Section FetchMore.
Context (URL : jsstring -> option jsstring -> option jsstring).
Context (net : nat -> jsstring -> fetch_outcome).

Lemma last_cons_Some {A} (x u : A) (l : list A) :
  last l = Some u -> last (x :: l) = Some u.
Proof. by destruct l. Qed.

(** A body that is returned was read off a 2xx response, and that response
    answered the last request. *)
Lemma fetchText_Normal (url : jsstring) (depth : nat) (text : jsstring) :
  (Hybrid.fetchText URL net url depth).2 = Normal text ->
  exists d u res,
    depth <= d <= max depth 6 /\ net d u = Responded res /\ ok res = true /\
    body res = Some text /\
    last (requested (Hybrid.fetchText URL net url depth).1) = Some u.
Proof.
  remember (7 - depth) as n eqn:Hn.
  revert url depth Hn. induction n as [n IH] using lt_wf_ind.
  intros url depth ->. rewrite fetchText_unfold.
  destruct (URL url None); [|done].
  destruct (net depth url) as [message|res] eqn:Hnet; [done|].
  destruct (bool_decide (status res ∈ REDIRECTS)).
  - destruct (header_location res) as [[|c loc]|]; try done.
    destruct (URL (c :: loc) (Some url)) as [next|]; [|done].
    destruct (Nat.ltb_spec 5 depth) as [Hd|Hd]; [done|].
    specialize (IH (7 - S depth) ltac:(lia) next (S depth) eq_refl).
    destruct (Hybrid.fetchText URL net next (S depth)) as [evs r].
    cbn [fst snd] in *. intros Hr.
    destruct (IH Hr) as (d & u & res' & ? & ? & ? & ? & Hlast).
    exists d, u, res'. repeat split; try done; try lia.
    by apply last_cons_Some.
  - destruct (bool_decide (status res = 403%Z) && bool_decide (depth = 0)) eqn:Hretry.
    + apply andb_true_iff in Hretry as [_ ->%bool_decide_eq_true].
      specialize (IH 6 ltac:(lia) url 1 eq_refl).
      destruct (Hybrid.fetchText URL net url 1) as [evs r].
      cbn [fst snd] in *. intros Hr.
      destruct (IH Hr) as (d & u & res' & ? & ? & ? & ? & Hlast).
      exists d, u, res'. repeat split; try done; try lia.
      by apply last_cons_Some.
    + destruct (ok res) eqn:Hok; [|done].
      destruct (body res) as [t|] eqn:Hbody; [|done].
      cbn [fst snd]. intros [= <-]. exists depth, url, res.
      repeat split; try done; lia.
Qed.

(** A server that redirects every request is given up on at depth 6. *)
Lemma fetchText_redirect_loop (n : nat) :
  (forall a b, is_Some (URL a b)) ->
  (forall d u, exists res c loc,
     net d u = Responded res /\ status res ∈ REDIRECTS /\
     header_location res = Some (c :: loc)) ->
  forall url depth,
    depth + n = 6 ->
    exists evs u,
      Hybrid.fetchText URL net url depth
      = (evs, Throw (Error (js "Too many redirects for " ++ u))) /\
      length (requested evs) = S n /\ delays evs = [].
Proof.
  intros HURL Hnet. induction n as [|n IH]; intros url depth Hd;
    rewrite fetchText_unfold;
    destruct (HURL url None) as [? ->];
    destruct (Hnet depth url) as (res & c & loc & -> & Hred & ->);
    rewrite bool_decide_true by done;
    destruct (HURL (c :: loc) (Some url)) as [next ->].
  - rewrite (proj2 (Nat.ltb_lt 5 depth)) by lia. by exists [Hybrid.Request url], url.
  - rewrite (proj2 (Nat.ltb_ge 5 depth)) by lia.
    destruct (IH next (S depth) ltac:(lia)) as (evs & u & -> & Hlen & Hdel).
    exists (Hybrid.Request url :: evs), u. simpl. by rewrite Hlen, Hdel.
Qed.
End FetchMore.

(** ** Tags in markup *)

Lemma tagRe_starts : starts_in tagRe (N.eqb 60).
Proof. intros c Hc. exact Hc. Qed.

Lemma match_here_tag (prev : option N) (x t : jsstring) :
  Forall (fun c => negb (c =? 62)%N = true) x ->
  match_here tagRe prev (60%N :: x ++ 62%N :: t)
  = Some (length x + 2, None).
Proof.
  intros Hx. unfold match_here, tagRe.
  change (rmatch (seqs [ch 60; Star true (notch 62); ch 62])
            (MState prev (60%N :: x ++ 62%N :: t) None) Some)
    with (star_loop true (notch 62) (fun st => rmatch (ch 62) st Some)
            (length (x ++ 62%N :: t))
            (MState (Some 60%N) (x ++ 62%N :: t) None)).
  unfold notch.
  rewrite (star_chr_greedy (fun c => negb (c =? 62)%N)
             (fun st => rmatch (ch 62) st Some)
             (MState (Some 62%N) t None) x (62%N :: t) None Hx eq_refl
             (length (x ++ 62%N :: t)) (Some 60%N)
             ltac:(rewrite length_app; lia) eq_refl).
  cbn [m_rest m_cap length]. rewrite length_app. cbn [length].
  f_equal; f_equal; lia.
Qed.

Lemma match_here_tag_none (prev : option N) (s : jsstring) :
  62%N ∉ s -> match_here tagRe prev (60%N :: s) = None.
Proof.
  intros Hs. destruct (match_here tagRe prev (60%N :: s)) as [[n g]|] eqn:Hm;
    [|done].
  exfalso. apply Hs.
  apply match_here_sound in Hm as (st' & Hm & _).
  apply matches_seq_inv in Hm as (st1 & H1 & (st2 & H2 & H3)%matches_seq_inv).
  apply matches_chr_inv in H1 as (c1 & _ & Hr1).
  apply (matches_span (fun _ => True)) in H2 as (y & Hy & _); [|done].
  apply matches_chr_inv in H3 as (c3 & Hc3 & Hr3).
  apply N.eqb_eq in Hc3 as <-.
  cbn [m_rest] in Hr1. injection Hr1 as _ ->.
  rewrite Hy, Hr3. apply elem_of_app. right. left.
Qed.

Lemma stripTags_scan_tag_free (s : jsstring) (prev : option N) (skip : nat) :
  tag_free (replace_scan tagRe [] prev s skip).
Proof.
  revert prev skip. induction s as [|c s IH]; intros prev skip;
    cbn [replace_scan].
  - destruct skip; [|done]. by destruct (match_here tagRe prev []).
  - destruct skip as [|skip]; [|apply IH].
    destruct (match_here tagRe prev (c :: s)) as [[[|n] g]|] eqn:Hm.
    + apply match_here_chr_first in Hm. lia.
    + apply IH.
    + cbn [tag_free]. split; [|apply IH]. intros -> Hin.
      eapply elem_of_sublist in Hin; [|apply replace_scan_sublist].
      destruct (first_occurrence (N.eqb 62) s) as [Hnone|(x & c & t & -> & Hc & Hx)].
      * rewrite Forall_forall in Hnone. apply Hnone in Hin.
        by rewrite N.eqb_refl in Hin.
      * apply N.eqb_eq in Hc as <-.
        rewrite match_here_tag in Hm; [done|].
        eapply Forall_impl; [exact Hx|]. intros a Ha. cbv beta in Ha.
        by rewrite N.eqb_sym, Ha.
Qed.

Lemma tag_free_scan_fixed (s : jsstring) (prev : option N) :
  tag_free s -> replace_scan tagRe [] prev s 0 = s.
Proof.
  revert prev. induction s as [|c s IH]; intros prev;
    cbn [replace_scan tag_free].
  - intros _.
    by rewrite (match_here_starts_in tagRe (N.eqb 60) prev [] tagRe_starts I).
  - intros [Hc Hs].
    assert (Hnone : match_here tagRe prev (c :: s) = None).
    { destruct (N.eqb_spec 60 c) as [<-|Hne].
      - by apply match_here_tag_none, Hc.
      - apply (match_here_starts_in tagRe (N.eqb 60)); [apply tagRe_starts|].
        by apply N.eqb_neq. }
    rewrite Hnone. f_equal. by apply IH.
Qed.

(** ** The labels of [tagJob] *)

Section TagJob.
Context `{Host}.

Lemma dedupe_loop_by (seen : gset (list N)) (deduped all : list Hybrid.Job) :
  Hybrid.dedupe_loop seen deduped all
  = deduped ++ dedupe_by Hybrid.makeHash seen all.
Proof.
  revert seen deduped. induction all as [|j all IH]; intros seen deduped; simpl.
  - by rewrite app_nil_r.
  - destruct (decide _); rewrite IH; [done|]. by rewrite <- app_assoc.
Qed.
End TagJob.

(** ** Entities in [decodeHTML] *)

(** One pass of [decodeHTML] over [x ++ m ++ y], innermost first. *)
Ltac decode_pass x y Hx Hy :=
  lazymatch goal with
  | |- context [replace_all (lit ?p) ?rep (x ++ ?m ++ y)] =>
      let p' := eval vm_compute in (tail p) in
      let m' := eval vm_compute in m in
      let H := fresh "Hpass" in
      lazymatch m' with
      | 38%N :: p' =>
          assert (H : replace_all (lit p) rep (x ++ m ++ y) = x ++ rep ++ y)
            by exact (pass_own x y Hx Hy p' rep)
      | [38%N] =>
          assert (H : replace_all (lit p) rep (x ++ m ++ y) = x ++ m ++ y)
            by (apply (pass_after_amp x y Hx Hy p' rep);
                repeat first [apply list_elem_of_here
                             | apply list_elem_of_further])
      | 38%N :: ?e =>
          assert (H : replace_all (lit p) rep (x ++ m ++ y) = x ++ m ++ y)
            by (apply (pass_other x y Hx Hy p' rep e); vm_compute; reflexivity)
      | _ =>
          assert (H : replace_all (lit p) rep (x ++ m ++ y) = x ++ m ++ y)
            by (apply (pass_no_amp x y p' rep m Hx Hy); vm_compute; reflexivity)
      end;
      rewrite H; clear H
  end.

Lemma decodeHTML_entities (x y : jsstring) :
  plain x -> plain y ->
  Forall (fun ec => Hybrid.decodeHTML (x ++ ec.1 ++ y) = x ++ ec.2 ++ y)
    (take 5 ENTITIES).
Proof.
  intros Hx Hy. unfold ENTITIES, Hybrid.decodeHTML, replaceAll_str.
  cbn [take].
  repeat (apply Forall_cons; split); [..|by apply Forall_nil];
    cbn [fst snd]; repeat decode_pass x y Hx Hy; reflexivity.
Qed.

Section TagJobMore.
Context `{Host}.

Lemma array_from_set_absorb (l t : list jsstring) :
  (forall x, x ∈ t -> x ∈ l) ->
  array_from_set (array_from_set l ++ t) = array_from_set l.
Proof.
  intros Ht. unfold array_from_set at 1. rewrite foldl_app.
  fold (array_from_set (array_from_set l)).
  rewrite (array_from_set_fixed _ (array_from_set_NoDup l)).
  apply foldl_set_add_known. intros x Hx. apply array_from_set_elem. auto.
Qed.

(** The labels depend on the title alone. *)
Lemma tagJob_eq (job : Hybrid.Job) :
  exists t : list jsstring,
    (forall job',
       Hybrid.title job' = Hybrid.title job ->
       Hybrid.tagJob job'
       = {| Hybrid.source := Hybrid.source job';
            Hybrid.source_url := Hybrid.source_url job';
            Hybrid.title := Hybrid.title job';
            Hybrid.company := Hybrid.company job';
            Hybrid.location := Hybrid.location job';
            Hybrid.remote_type := Hybrid.remote_type job';
            Hybrid.tags := array_from_set (Hybrid.tags job' ++ t);
            Hybrid.salary := Hybrid.salary job';
            Hybrid.posted_at := Hybrid.posted_at job' |}) /\
    (js "Virtual Assistant" ∈ t <->
     test (pattern false "assistant|va|virtual assistant")
       (toLowerCase (Hybrid.title job)) = true).
Proof.
  eexists. split.
  - intros job' Htitle. unfold Hybrid.tagJob.
    rewrite orElse_nil_r, Htitle. reflexivity.
  - generalize (toLowerCase (Hybrid.title job)). intros lower.
    destruct (test (pattern false "assistant|va|virtual assistant") lower).
    + split; [done|]. intros _.
      repeat (match goal with |- context [if ?b then _ else _] =>
                destruct b end);
        cbn [app];
        repeat first [apply list_elem_of_here | apply list_elem_of_further].
    + split; [|done]. intros Hin. exfalso. revert Hin.
      repeat (match goal with |- context [if ?b then _ else _] =>
                destruct b end);
        cbn [app]; apply (bool_decide_unpack _); vm_compute; exact I.
Qed.
End TagJobMore.

(** ** The requests of one call *)

Section FetchTrace.
Context (URL : jsstring -> option jsstring -> option jsstring).
Context (net : nat -> jsstring -> fetch_outcome).

(** The first request of a call is for its URL. *)
Lemma fetchText_first_request (url : jsstring) (depth : nat) (u : jsstring) :
  requested (Hybrid.fetchText URL net url depth).1 !! 0 = Some u -> u = url.
Proof.
  rewrite fetchText_unfold.
  destruct (URL url None); [|done].
  destruct (net depth url) as [message|res]; [by intros [= <-]|].
  destruct (bool_decide (status res ∈ REDIRECTS)).
  - destruct (header_location res) as [[|c loc]|]; try by intros [= <-].
    destruct (URL (c :: loc) (Some url)) as [next|]; [|by intros [= <-]].
    destruct (5 <? depth); [by intros [= <-]|].
    destruct (Hybrid.fetchText URL net next (S depth)) as [evs r].
    by intros [= <-].
  - destruct (bool_decide (status res = 403%Z) && bool_decide (depth = 0)).
    + destruct (Hybrid.fetchText URL net url (S depth)) as [evs r].
      by intros [= <-].
    + destruct (ok res); [destruct (body res)|]; by intros [= <-].
Qed.

(** Each further request is the retry of a first request answered with
    403, or goes where the answer before it pointed. *)
Lemma fetchText_next_request (url : jsstring) (depth i : nat)
  (u v : jsstring) :
  requested (Hybrid.fetchText URL net url depth).1 !! i = Some u ->
  requested (Hybrid.fetchText URL net url depth).1 !! S i = Some v ->
  exists res,
    net (depth + i) u = Responded res /\
    ((status res = 403%Z /\ depth + i = 0 /\ v = u) \/
     (status res ∈ REDIRECTS /\
      exists loc, header_location res = Some loc /\
                  URL loc (Some u) = Some v)).
Proof.
  remember (7 - depth) as n eqn:Hn.
  revert url depth i Hn. induction n as [n IH] using lt_wf_ind.
  intros url depth i ->.
  pose proof (fetchText_first_request url depth) as Hfirst.
  revert Hfirst. rewrite fetchText_unfold.
  destruct (URL url None); [|done].
  destruct (net depth url) as [message|res] eqn:Hnet;
    [by destruct i|].
  destruct (bool_decide (status res ∈ REDIRECTS)) eqn:Hred.
  - apply bool_decide_eq_true in Hred.
    destruct (header_location res) as [[|c loc]|] eqn:Hloc;
      try by destruct i.
    destruct (URL (c :: loc) (Some url)) as [next|] eqn:Hnext;
      [|by destruct i].
    destruct (Nat.ltb_spec 5 depth) as [Hd|Hd]; [by destruct i|].
    pose proof (fetchText_first_request next (S depth)) as Hnextfirst.
    specialize (IH (7 - S depth) ltac:(lia) next (S depth)).
    destruct (Hybrid.fetchText URL net next (S depth)) as [evs r].
    cbn [fst] in *.
    change (requested (Hybrid.Request url :: evs)) with (url :: requested evs).
    intros _. destruct i as [|i]; cbn [lookup list_lookup].
    + intros [= <-] Hv. apply Hnextfirst in Hv as ->.
      exists res. rewrite Nat.add_0_r. split; [done|]. right. eauto.
    + intros Hu Hv. rewrite <- Nat.add_succ_comm. by apply IH.
  - destruct (bool_decide (status res = 403%Z) && bool_decide (depth = 0)) eqn:Hretry.
    + apply andb_true_iff in Hretry
        as [H403%bool_decide_eq_true ->%bool_decide_eq_true].
      pose proof (fetchText_first_request url 1) as Hnextfirst.
      specialize (IH 6 ltac:(lia) url 1).
      destruct (Hybrid.fetchText URL net url 1) as [evs r].
      cbn [fst] in *.
      change (requested (Hybrid.Request url :: Hybrid.Sleep 500 :: evs))
        with (url :: requested evs).
      intros _. destruct i as [|i]; cbn [lookup list_lookup].
      * intros [= <-] Hv. apply Hnextfirst in Hv as ->.
        exists res. split; [done|]. by left.
      * intros Hu Hv. change (0 + S i) with (1 + i). by apply IH.
    + destruct (ok res); [destruct (body res)|]; by destruct i.
Qed.
End FetchTrace.

(** ** The block a record was built from *)

Section Blocks.
Context `{Host}.

(** Every record of [rssToItems] was pushed by the loop body for one of
    the item blocks of the feed, at the clock reading of that block. *)
Lemma curated_rssToItems_block (now : nat -> Z) (xml src : jsstring) (r : Job) :
  r ∈ Curated.rssToItems now xml src ->
  exists i block,
    blocks_of Curated.itemRe xml !! i = Some block /\
    Curated.item_of (now i) src block = Some r.
Proof.
  unfold Curated.rssToItems, blocks_of.
  destruct xml as [|c xml]; [by intros ?%elem_of_nil|].
  intros (o & Ho & Hr)%list_elem_of_omap. simpl in Hr. subst o.
  apply elem_of_lookup_imap in Ho as (i & m & Hm & Hi).
  exists i, (default [] (m_group m)). split; [|done].
  change (map ?f ?l) with (f <$> l). by rewrite list_lookup_fmap, Hi.
Qed.

(** The title of a record and the filter it passed, for the block it was
    built from. *)
Lemma curated_item_of_filter (now : Z) (src block : jsstring) (r : Job) :
  Curated.item_of now src block = Some r ->
  title r = curated_title block /\
  Curated.isBeginnerFriendly (curated_title block) (curated_description block)
    (curated_categories block) = true.
Proof.
  unfold Curated.item_of.
  match goal with |- context [if negb ?b then _ else _] =>
    destruct b end; cbn [negb]; [|done].
  match goal with |- context [if ?b || _ then _ else _] =>
    destruct b end; cbn [orb]; [done|].
  match goal with |- context [if ?b then _ else _] =>
    destruct b end; [done|].
  match goal with |- context [if negb ?b then _ else _] =>
    destruct b eqn:Hb end; cbn [negb]; [|done].
  intros [= <-]. split; [reflexivity|exact Hb].
Qed.

Lemma simple_item_of_fields (now : Z) (src block : jsstring) (r : Job) :
  Simple.item_of now src block = Normal (Some r) ->
  title r = simple_title block /\ source_url r = simple_link block.
Proof.
  unfold Simple.item_of.
  destruct (_ || _); [done|].
  destruct (Date_parse _) as [t|]; [|done].
  by intros [= <-].
Qed.

Lemma simple_items_loop_block (now : nat -> Z) (src : jsstring) (i : nat)
  (ms : list rmatch_result) (acc items : list Job) (r : Job) :
  Simple.items_loop now src i ms acc = Normal items ->
  r ∈ items ->
  r ∈ acc \/
  exists k m, ms !! k = Some m /\
    Simple.item_of (now (i + k)) src (default [] (m_group m)) = Normal (Some r).
Proof.
  revert i acc.
  induction ms as [|m ms IH]; intros i acc; cbn [Simple.items_loop].
  - intros [= <-]. by left.
  - destruct (Simple.item_of _ _ _) as [[j|]|e] eqn:Hitem; [| |done].
    + intros Hloop Hr.
      destruct (IH _ _ Hloop Hr) as [Hacc|(k & m' & Hk & Hm')].
      * apply elem_of_app in Hacc as [Hacc|Hj]; [by left|].
        apply list_elem_of_singleton in Hj as ->. right.
        exists 0, m. rewrite Nat.add_0_r. done.
      * right. exists (S k), m'. split; [done|].
        by replace (i + S k) with (S i + k) by lia.
    + intros Hloop Hr.
      destruct (IH _ _ Hloop Hr) as [Hacc|(k & m' & Hk & Hm')]; [by left|].
      right. exists (S k), m'. split; [done|].
      by replace (i + S k) with (S i + k) by lia.
Qed.

Lemma simple_rssToItems_block (now : nat -> Z) (xml src : jsstring)
  (items : list Job) (r : Job) :
  Simple.rssToItems now xml src = Normal items ->
  r ∈ items ->
  exists i block,
    blocks_of Simple.itemRe xml !! i = Some block /\
    Simple.item_of (now i) src block = Normal (Some r).
Proof.
  unfold Simple.rssToItems, blocks_of. destruct xml as [|c xml].
  - intros [= <-]. by intros ?%elem_of_nil.
  - intros Hloop Hr.
    destruct (simple_items_loop_block _ _ _ _ _ _ _ Hloop Hr)
      as [?%elem_of_nil|(k & m & Hk & Hm)]; [done|].
    exists k, (default [] (m_group m)). split; [|done].
    change (map ?f ?l) with (f <$> l). by rewrite list_lookup_fmap, Hk.
Qed.
End Blocks.

Lemma curated_item_of_rejected `{Host} (now : Z) (src block : jsstring) :
  Curated.isBeginnerFriendly (curated_title block) (curated_description block)
    (curated_categories block) = false ->
  Curated.item_of now src block = None.
Proof.
  intros Hb. unfold Curated.item_of.
  match goal with |- context [if negb ?b then _ else _] =>
    destruct b end; cbn [negb]; [|done].
  match goal with |- context [if ?b || _ then _ else _] =>
    destruct b end; cbn [orb]; [done|].
  match goal with |- context [if ?b then _ else _] =>
    destruct b end; [done|].
  fold (curated_title block). fold (curated_description block).
  fold (curated_categories block). by rewrite Hb.
Qed.

Lemma existsb_includes (text : jsstring) (f : jsstring -> jsstring)
  (keywords : list jsstring) :
  existsb (fun keyword => includes text (f keyword)) keywords = true
  <-> exists keyword, keyword ∈ keywords /\ includes text (f keyword) = true.
Proof.
  rewrite existsb_exists. split; intros (k & Hk & Hin); exists k;
    (split; [by apply list_elem_of_In|done]).
Qed.

(** ** Two records *)

(** Two records: the second is dropped exactly when its key is the key of
    the first. *)
Lemma dedupe_by_pair_iff {A : Type} (key : A -> jsstring) (a b : A) :
  dedupe_by key ∅ [a; b] = if decide (key a = key b) then [a] else [a; b].
Proof.
  destruct (decide (key a = key b)) as [Heq|Hne].
  - by apply dedupe_by_pair.
  - change [a; b] with ([a] ++ [b]).
    rewrite dedupe_by_snoc_new.
    + simpl. rewrite decide_False; [done|apply not_elem_of_empty].
    + apply not_elem_of_empty.
    + simpl. intros Hin%list_elem_of_singleton. congruence.
Qed.

(** ** The calendar, and [parse_iso] on what [toISOString] prints *)

Section Calendar.
#[local] Open Scope Z_scope.

Lemma doe_table : doe_ok_from (Z.to_nat 146097) 0 = true.
Proof. vm_compute. reflexivity. Qed.

Lemma doe_ok_from_spec (n : nat) (doe x : Z) :
  doe_ok_from n doe = true -> doe <= x < doe + Z.of_nat n -> doe_ok x = true.
Proof.
  revert doe. induction n as [|n IH]; intros doe; simpl doe_ok_from.
  - lia.
  - intros [H0 Hn]%andb_true_iff Hx.
    destruct (Z.eq_dec x doe) as [->|Hne]; [done|].
    apply (IH (doe + 1)); [done|lia].
Qed.

Lemma doe_ok_all (doe : Z) : 0 <= doe < 146097 -> doe_ok doe = true.
Proof.
  intros Hdoe. apply (doe_ok_from_spec _ 0 doe doe_table).
  rewrite Z2Nat.id; lia.
Qed.

Lemma civil_of_days_era (days : Z) :
  civil_of_days days
  = let era := (days + 719468) / 146097 in
    let '(yoe, m, d) := civil_of_doe (days + 719468 - era * 146097) in
    (yoe + era * 400 + (if m <=? 2 then 1 else 0), m, d).
Proof. reflexivity. Qed.

Lemma days_of_civil_era (era yoe m d : Z) :
  0 <= yoe <= 399 ->
  days_of_civil (yoe + era * 400 + (if m <=? 2 then 1 else 0)) m d
  = era * 146097 + doe_of_civil yoe m d - 719468.
Proof.
  intros Hyoe. unfold days_of_civil, doe_of_civil. cbv zeta.
  assert (Hy : (if m <=? 2
                then yoe + era * 400 + (if m <=? 2 then 1 else 0) - 1
                else yoe + era * 400 + (if m <=? 2 then 1 else 0))
               = yoe + era * 400) by (destruct (m <=? 2); lia).
  rewrite Hy.
  assert (He : (yoe + era * 400) / 400 = era).
  { rewrite Z.div_add by lia. rewrite Z.div_small by lia. lia. }
  rewrite He.
  replace (yoe + era * 400 - era * 400) with yoe by lia. lia.
Qed.

(** The fields of a day number, and the way back. *)
Lemma civil_of_days_spec (days : Z) :
  -719528 <= days <= 2932896 ->
  exists y m d,
    civil_of_days days = (y, m, d) /\
    0 <= y <= 9999 /\ 1 <= m <= 12 /\ 1 <= d <= 31 /\
    days_of_civil y m d = days.
Proof.
  intros Hdays. rewrite civil_of_days_era. cbv zeta.
  set (era := (days + 719468) / 146097).
  assert (Hera : 0 <= days + 719468 - era * 146097 < 146097).
  { unfold era. pose proof (Z.div_mod (days + 719468) 146097 ltac:(lia)).
    pose proof (Z.mod_pos_bound (days + 719468) 146097 ltac:(lia)). lia. }
  assert (Hrange : -1 <= era <= 24).
  { unfold era. split.
    - apply Z.div_le_lower_bound; lia.
    - assert ((days + 719468) / 146097 < 25); [|lia].
      apply Z.div_lt_upper_bound; lia. }
  pose proof (doe_ok_all _ Hera) as Hok. unfold doe_ok in Hok.
  destruct (civil_of_doe _) as [[yoe m] d].
  rewrite !andb_true_iff in Hok.
  destruct Hok as (((((((H1 & H2) & H3) & H4) & H5) & H6) & H7) & H8).
  apply Z.leb_le in H1, H2, H3, H4, H5, H6. apply Z.eqb_eq in H7.
  apply eqb_prop in H8.
  eexists _, m, d. split; [reflexivity|].
  split; [|split; [lia|split; [lia|]]].
  - destruct (Z.leb_spec 146037 (days + 719468 - era * 146097)) as [Hlate|Hearly].
    + symmetry in H8. apply andb_true_iff in H8 as [->%Z.eqb_eq Hm].
      rewrite Hm. lia.
    + symmetry in H8. apply andb_false_iff in H8.
      destruct (Z.leb_spec m 2);
        destruct H8 as [Hy%Z.eqb_neq|Hm]; try discriminate Hm; lia.
  - rewrite days_of_civil_era by lia. lia.
Qed.

Lemma days_of_civil_bounds (y m d : Z) :
  0 <= y <= 9999 -> 1 <= m <= 12 -> 1 <= d <= 31 ->
  -719528 <= days_of_civil y m d <= 2932896.
Proof.
  intros Hy Hm Hd. unfold days_of_civil. cbv zeta.
  destruct (Z.leb_spec m 2), (Z.ltb_spec 2 m); try lia.
  - Z.div_mod_to_equations. lia.
  - Z.div_mod_to_equations. lia.
Qed.

(** Decimal digits, printed and read. *)
Lemma is_digit_spec (c : N) : is_digit c = true <-> 48 <= Z.of_N c <= 57.
Proof.
  unfold is_digit, in_range. rewrite andb_true_iff, !N.leb_le. lia.
Qed.

Lemma number_of_digit (acc d : Z) (s : jsstring) :
  0 <= d <= 9 ->
  number_of acc (Z.to_N (48 + d) :: s) = number_of (10 * acc + d) s.
Proof.
  intros Hd. cbn [number_of].
  assert (Hc : is_digit (Z.to_N (48 + d)) = true) by (apply is_digit_spec; lia).
  rewrite Hc. f_equal. lia.
Qed.

Lemma number_of_cons (acc : Z) (c : N) (s : jsstring) (v : Z) :
  number_of acc (c :: s) = Some v ->
  48 <= Z.of_N c <= 57 /\ number_of (10 * acc + Z.of_N c - 48) s = Some v.
Proof.
  cbn [number_of]. destruct (is_digit c) eqn:Hc; [|done].
  apply is_digit_spec in Hc. done.
Qed.

Lemma number_of_2 (a b : N) (v : Z) :
  number_of 0 [a; b] = Some v -> 0 <= v <= 99.
Proof.
  intros (Ha & (Hb & [= <-])%number_of_cons)%number_of_cons. lia.
Qed.

Lemma number_of_3 (a b c : N) (v : Z) :
  number_of 0 [a; b; c] = Some v -> 0 <= v <= 999.
Proof.
  intros (Ha & (Hb & (Hc & [= <-])%number_of_cons)%number_of_cons)%number_of_cons.
  lia.
Qed.

Lemma number_of_4 (a b c d : N) (v : Z) :
  number_of 0 [a; b; c; d] = Some v -> 0 <= v <= 9999.
Proof.
  intros (Ha & (Hb & (Hc & (Hd & [= <-])%number_of_cons)%number_of_cons)
             %number_of_cons)%number_of_cons.
  lia.
Qed.

Lemma digits_2 (n : Z) :
  digits 2 n = [Z.to_N (48 + n / 10 mod 10); Z.to_N (48 + n mod 10)].
Proof. reflexivity. Qed.

Lemma digits_3 (n : Z) :
  digits 3 n = [Z.to_N (48 + n / 10 / 10 mod 10); Z.to_N (48 + n / 10 mod 10);
                Z.to_N (48 + n mod 10)].
Proof. reflexivity. Qed.

Lemma digits_4 (n : Z) :
  digits 4 n = [Z.to_N (48 + n / 10 / 10 / 10 mod 10);
                Z.to_N (48 + n / 10 / 10 mod 10);
                Z.to_N (48 + n / 10 mod 10); Z.to_N (48 + n mod 10)].
Proof. reflexivity. Qed.

Lemma mod_10_digit (x : Z) : 0 <= x mod 10 <= 9.
Proof. pose proof (Z.mod_pos_bound x 10). lia. Qed.

Lemma number_of_digits_2 (n : Z) :
  0 <= n <= 99 -> number_of 0 (digits 2 n) = Some n.
Proof.
  intros Hn. rewrite digits_2.
  rewrite !number_of_digit by apply mod_10_digit.
  cbn [number_of]. f_equal. Z.div_mod_to_equations. lia.
Qed.

Lemma number_of_digits_3 (n : Z) :
  0 <= n <= 999 -> number_of 0 (digits 3 n) = Some n.
Proof.
  intros Hn. rewrite digits_3.
  rewrite !number_of_digit by apply mod_10_digit.
  cbn [number_of]. f_equal. Z.div_mod_to_equations. lia.
Qed.

Lemma number_of_digits_4 (n : Z) :
  0 <= n <= 9999 -> number_of 0 (digits 4 n) = Some n.
Proof.
  intros Hn. rewrite digits_4.
  rewrite !number_of_digit by apply mod_10_digit.
  cbn [number_of]. f_equal. Z.div_mod_to_equations. lia.
Qed.

(** [parse_iso] on a string in the format, by its fields. *)
Lemma parse_iso_fields (y m d h n sec f : Z) :
  0 <= y <= 9999 -> 0 <= m <= 99 -> 0 <= d <= 99 -> 0 <= h <= 99 ->
  0 <= n <= 99 -> 0 <= sec <= 99 -> 0 <= f <= 999 ->
  parse_iso (digits 4 y ++ js "-" ++ digits 2 m ++ js "-" ++ digits 2 d
             ++ js "T" ++ digits 2 h ++ js ":" ++ digits 2 n ++ js ":"
             ++ digits 2 sec ++ js "." ++ digits 3 f ++ js "Z")
  = if (1 <=? m) && (m <=? 12) && (1 <=? d) && (d <=? 31) && (h <=? 23)
       && (n <=? 59) && (sec <=? 59)
    then Some (days_of_civil y m d * ms_per_day + h * 3600000
               + n * 60000 + sec * 1000 + f)
    else None.
Proof.
  intros Hy Hm Hd Hh Hn Hs Hf.
  pose proof (number_of_digits_4 y Hy) as Ey.
  pose proof (number_of_digits_2 m Hm) as Em.
  pose proof (number_of_digits_2 d Hd) as Ed.
  pose proof (number_of_digits_2 h Hh) as Eh.
  pose proof (number_of_digits_2 n Hn) as En.
  pose proof (number_of_digits_2 sec Hs) as Es.
  pose proof (number_of_digits_3 f Hf) as Ef.
  rewrite digits_4 in *. rewrite digits_3 in *. rewrite !digits_2 in *.
  change (js "-") with [45%N]. change (js "T") with [84%N].
  change (js ":") with [58%N]. change (js ".") with [46%N].
  change (js "Z") with [90%N].
  cbn [app]. unfold parse_iso.
  change (js "--T::.Z") with [45%N; 45%N; 84%N; 58%N; 58%N; 46%N; 90%N].
  rewrite bool_decide_true by reflexivity.
  rewrite Ey, Em, Ed, Eh, En, Es, Ef. reflexivity.
Qed.

(** The fields of a string [parse_iso] reads. *)
Lemma parse_iso_Some (s : jsstring) (t : Z) :
  parse_iso s = Some t ->
  exists y m d tod,
    0 <= y <= 9999 /\ 1 <= m <= 12 /\ 1 <= d <= 31 /\
    0 <= tod < ms_per_day /\
    t = days_of_civil y m d * ms_per_day + tod.
Proof.
  destruct s as [|y1 s]; [discriminate|].
  destruct s as [|y2 s]; [discriminate|].
  destruct s as [|y3 s]; [discriminate|].
  destruct s as [|y4 s]; [discriminate|].
  destruct s as [|k1 s]; [discriminate|].
  destruct s as [|m1 s]; [discriminate|].
  destruct s as [|m2 s]; [discriminate|].
  destruct s as [|k2 s]; [discriminate|].
  destruct s as [|a1 s]; [discriminate|].
  destruct s as [|a2 s]; [discriminate|].
  destruct s as [|k3 s]; [discriminate|].
  destruct s as [|h1 s]; [discriminate|].
  destruct s as [|h2 s]; [discriminate|].
  destruct s as [|k4 s]; [discriminate|].
  destruct s as [|i1 s]; [discriminate|].
  destruct s as [|i2 s]; [discriminate|].
  destruct s as [|k5 s]; [discriminate|].
  destruct s as [|s1 s]; [discriminate|].
  destruct s as [|s2 s]; [discriminate|].
  destruct s as [|k6 s]; [discriminate|].
  destruct s as [|f1 s]; [discriminate|].
  destruct s as [|f2 s]; [discriminate|].
  destruct s as [|f3 s]; [discriminate|].
  destruct s as [|k7 s]; [discriminate|].
  destruct s; [|discriminate].
  unfold parse_iso. destruct (bool_decide _); [|discriminate].
  destruct (number_of 0 [_; _; _; _]) as [y|] eqn:Ey; [|discriminate].
  cbn [mbind option_bind].
  destruct (number_of 0 [m1; m2]) as [m|] eqn:Em; [|discriminate].
  cbn [mbind option_bind].
  destruct (number_of 0 [a1; a2]) as [d|] eqn:Ed; [|discriminate].
  cbn [mbind option_bind].
  destruct (number_of 0 [h1; h2]) as [h|] eqn:Eh; [|discriminate].
  cbn [mbind option_bind].
  destruct (number_of 0 [i1; i2]) as [n|] eqn:En; [|discriminate].
  cbn [mbind option_bind].
  destruct (number_of 0 [s1; s2]) as [sec|] eqn:Es; [|discriminate].
  cbn [mbind option_bind].
  destruct (number_of 0 [f1; f2; f3]) as [f|] eqn:Ef; [|discriminate].
  cbn [mbind option_bind].
  destruct (_ && _) eqn:Hok; [|discriminate].
  intros [= <-].
  rewrite !andb_true_iff, !Z.leb_le in Hok.
  apply number_of_4 in Ey. apply number_of_2 in Em, Ed, Eh, En, Es.
  apply number_of_3 in Ef.
  exists y, m, d, (h * 3600000 + n * 60000 + sec * 1000 + f).
  unfold ms_per_day. repeat split; lia.
Qed.

(** [parse_iso] reads back what [toISOString] prints for a time value it
    has returned. *)
Lemma parse_iso_reads_back (s : jsstring) (t : Z) :
  parse_iso s = Some t -> parse_iso (toISOString t) = Some t.
Proof.
  intros (y0 & m0 & d0 & tod & Hy0 & Hm0 & Hd0 & Htod & ->)%parse_iso_Some.
  pose proof (days_of_civil_bounds y0 m0 d0 Hy0 Hm0 Hd0) as Hdays.
  set (days := days_of_civil y0 m0 d0) in *.
  unfold toISOString.
  assert (Hdiv : (days * ms_per_day + tod) / ms_per_day = days).
  { unfold ms_per_day in *. rewrite Z.add_comm, Z.div_add by lia.
    rewrite Z.div_small; lia. }
  assert (Hmod : (days * ms_per_day + tod) mod ms_per_day = tod).
  { unfold ms_per_day in *. rewrite Z.add_comm, Z.mod_add by lia.
    apply Z.mod_small; lia. }
  rewrite Hdiv, Hmod.
  destruct (civil_of_days_spec days Hdays)
    as (y & m & d & -> & Hy & Hm & Hd & Hback).
  assert (Hyear : (0 <=? y) && (y <=? 9999) = true)
    by (apply andb_true_iff; split; apply Z.leb_le; lia).
  rewrite Hyear.
  unfold ms_per_day in Htod.
  rewrite parse_iso_fields; try lia;
    try (Z.div_mod_to_equations; lia).
  assert (Hok : (1 <=? m) && (m <=? 12) && (1 <=? d) && (d <=? 31)
                && (tod / 3600000 <=? 23) && (tod / 60000 mod 60 <=? 59)
                && (tod / 1000 mod 60 <=? 59) = true).
  { rewrite !andb_true_iff, !Z.leb_le.
    repeat split; try lia; Z.div_mod_to_equations; lia. }
  rewrite Hok, Hback. f_equal. unfold ms_per_day.
  Z.div_mod_to_equations. lia.
Qed.

End Calendar.

(** ** The dates of the records *)

Section Dates.
Context `{Host}.

Lemma curated_item_date (now : Z) (src block : jsstring) (r : Job) :
  Curated.item_of now src block = Some r ->
  posted_at r = Curated.parseDate now (curated_pubDate block).
Proof.
  unfold Curated.item_of.
  match goal with |- context [if negb ?b then _ else _] =>
    destruct b end; cbn [negb]; [|done].
  match goal with |- context [if ?b || _ then _ else _] =>
    destruct b end; cbn [orb]; [done|].
  match goal with |- context [if ?b then _ else _] =>
    destruct b end; [done|].
  match goal with |- context [if negb ?b then _ else _] =>
    destruct b end; cbn [negb]; [|done].
  by intros [= <-].
Qed.

(** What [parseDate] prints is read back. *)
Lemma parseDate_parses (now : Z) (s : jsstring) :
  (forall s t, Date_parse s = Some t -> reads_iso t) ->
  reads_iso now ->
  Date_parse (Curated.parseDate now s)
  = Some (match s with
          | [] => now
          | _ :: _ => default now (Date_parse s)
          end).
Proof.
  intros Hiso Hnow. unfold Curated.parseDate. destruct s as [|c s]; [done|].
  destruct (Date_parse (c :: s)) as [t|] eqn:Ht; [|done].
  exact (Hiso _ _ Ht).
Qed.

(** Every record the sources contribute has a date that parses. *)
Lemma contributions_parse (w : Curated.World) :
  (forall s t, Date_parse s = Some t -> reads_iso t) ->
  (forall i k, reads_iso (Curated.clock w i k)) ->
  Forall (fun j => is_Some (Date_parse (posted_at j)))
    (concat (imap (contribution w) Curated.SOURCES)).
Proof.
  intros Hiso Hclock. apply Forall_forall. intros r Hr.
  apply list_elem_of_In, in_concat in Hr as (l & Hl & Hr).
  apply list_elem_of_In in Hl, Hr.
  apply elem_of_lookup_imap in Hl as (i & src & -> & Hsrc).
  unfold contribution in Hr.
  destruct (Curated.safeFetch _ _) as [[|c body]|];
    try (by apply elem_of_nil in Hr).
  destruct (bool_decide _); [|by apply elem_of_nil in Hr].
  apply curated_rssToItems_elem in Hr as (k & block & Hitem).
  rewrite (curated_item_date _ _ _ _ Hitem).
  rewrite (parseDate_parses _ _ Hiso (Hclock i k)). eauto.
Qed.

(** [sortAndLimit] on records whose dates parse. *)
Lemma sortAndLimit_descending (jobs : list Job) :
  Forall (fun j => is_Some (Date_parse (posted_at j))) jobs ->
  let out := Curated.sortAndLimit jobs in
  (forall i a b, out !! i = Some a -> out !! S i = Some b ->
     (time_of b <= time_of a)%Z) /\
  length out = min 2000 (length jobs) /\
  (exists dropped,
     out ++ dropped ≡ₚ jobs /\
     forall a b, a ∈ out -> b ∈ dropped -> (time_of b <= time_of a)%Z).
Proof.
  intros Hvalid out.
  pose proof (sort_sorted time_of Curated.by_date_desc jobs
                (by_date_desc_on jobs Hvalid)) as Hsorted.
  assert (Hsplit : sort Curated.by_date_desc jobs
                   = out ++ drop 2000 (sort Curated.by_date_desc jobs)).
  { unfold out, Curated.sortAndLimit, slice0. by rewrite take_drop. }
  split; [|split].
  - intros i a b Ha Hb. rewrite Hsplit in Hsorted.
    apply StronglySorted_app_1_l in Hsorted.
    exact (sorted_adjacent time_of out i a b Hsorted Ha Hb).
  - unfold out, Curated.sortAndLimit, slice0.
    rewrite length_take. f_equal. apply Permutation_length, sort_perm.
  - exists (drop 2000 (sort Curated.by_date_desc jobs)). split.
    + rewrite <- Hsplit. apply sort_perm.
    + intros a b Ha Hb. rewrite Hsplit in Hsorted.
      exact (StronglySorted_app_1_elem_of _ _ _ a b Hsorted Ha Hb).
Qed.
End Dates.

(** ** Occurrences *)

Lemma includes_startsWith (s p : jsstring) :
  startsWith s p = true -> includes s p = true.
Proof. destruct s; simpl; intros ->; done. Qed.

Lemma includes_app_r (x t p : jsstring) :
  includes (x ++ t) p = false -> includes t p = false.
Proof.
  induction x as [|c x IH]; [done|]. cbn [app includes].
  intros [_ Hx]%orb_false_iff. by apply IH.
Qed.

Lemma startsWith_app_l (p q t : jsstring) :
  startsWith t q = true -> startsWith (p ++ t) (p ++ q) = true.
Proof.
  intros Ht. induction p as [|a p IH]; [done|]. simpl.
  by rewrite N.eqb_refl.
Qed.

(** A scan that finds no match anywhere changes nothing. *)
Lemma replace_scan_fixed (r : regex) (rep s : jsstring) (prev : option N) :
  (forall prev' x t, s = x ++ t -> match_here r prev' t = None) ->
  replace_scan r rep prev s 0 = s.
Proof.
  revert prev. induction s as [|c s IH]; intros prev Hno.
  - cbn [replace_scan]. by rewrite (Hno prev [] []).
  - cbn [replace_scan]. rewrite (Hno prev [] (c :: s)) by done.
    f_equal. apply IH. intros prev' x t ->. by apply (Hno prev' (c :: x) t).
Qed.

(** ** The markup passes on text without markup *)

Lemma cdata_pass_fixed (s : jsstring) :
  60%N ∉ s -> includes s (js "]]>") = false ->
  replace_all (Alt (lit (js "<![CDATA[")) (lit (js "]]>"))) [] s = s.
Proof.
  intros Hlt Hend. apply replace_scan_fixed. intros prev x t ->.
  unfold match_here. cbn [rmatch]. rewrite !rmatch_lit. cbn [m_rest].
  destruct (startsWith t (js "<![CDATA[")) eqn:H1.
  { exfalso. apply Hlt. apply elem_of_app. right.
    apply (startsWith_elem _ _ 60%N) in H1; [done|]. apply list_elem_of_here. }
  destruct (startsWith t (js "]]>")) eqn:H2; [|done].
  apply includes_startsWith in H2. apply includes_app_r in Hend. congruence.
Qed.

Lemma tag_pass_fixed (s : jsstring) :
  60%N ∉ s ->
  replace_all (seqs [ch 60; plus true (notch 62); ch 62]) (js " ") s = s.
Proof.
  intros Hlt. apply (replace_all_none _ (N.eqb 60)).
  - intros c Hc. exact Hc.
  - apply Forall_forall. intros c Hc.
    destruct (N.eqb_spec 60 c) as [<-|]; done.
Qed.

Lemma collapse_fixed (s : jsstring) (prev : option N) :
  plain_spaces s -> single_spaced s ->
  replace_scan (plus true space) (js " ") prev s 0 = s.
Proof.
  revert prev. induction s as [|c s IH]; intros prev Hp Hs.
  - cbn [replace_scan].
    by rewrite (match_here_starts_in (plus true space) is_space prev []
                  space_starts I).
  - apply Forall_cons in Hp as [Hc Hp]. destruct Hs as [Hnext Hs].
    cbn [replace_scan]. destruct (is_space c) eqn:Hsp.
    + assert (Hm : match_here (plus true space) prev (c :: s)
                     = Some (1, None)).
      { apply (match_here_spaces prev c [] s); [by repeat constructor|].
        intros b Hb. destruct s as [|b' s']; [done|].
        injection Hb as ->. by apply Hnext. }
      rewrite Hm. specialize (Hc eq_refl). subst c. cbn [app].
      f_equal. by apply IH.
    + rewrite (match_here_starts_in (plus true space) is_space prev (c :: s)
                 space_starts Hsp).
      f_equal. by apply IH.
Qed.

(** ** The pass of one entity *)

Lemma decode_scan_skip (ents : list (jsstring * jsstring)) (u t : jsstring) :
  decode_scan ents (u ++ t) (length u) = decode_scan ents t 0.
Proof.
  induction u as [|c u IH]; [|exact IH].
  destruct t; reflexivity.
Qed.

Lemma decode_scan_nil (s : jsstring) : decode_scan [] s 0 = s.
Proof. induction s as [|c s IH]; [done|]. cbn. by rewrite IH. Qed.

Lemma find_snoc {A} (f : A -> bool) (l : list A) (x : A) :
  find f (l ++ [x])
  = match find f l with
    | Some y => Some y
    | None => if f x then Some x else None
    end.
Proof.
  induction l as [|a l IH]; simpl; [done|]. by destruct (f a).
Qed.

Section EntityPass.
Context (decoded : list (jsstring * jsstring)) (body rep : jsstring).
Hypothesis body_name : forallb name_char body = true.
Hypothesis decoded_shape : entities_shaped decoded = true.
Hypothesis decoded_apart : entities_apart decoded (38%N :: body) = true.

Lemma decoded_entry (s : jsstring) (ec : jsstring * jsstring) :
  find (fun ec => startsWith s ec.1) decoded = Some ec ->
  exists b y r,
    ec.1 = 38%N :: b /\ ec.2 = y :: r /\
    s = (38%N :: b) ++ drop (length (38%N :: b)) s /\
    name_char y = false /\
    (ec.2 = [38%N] \/ Forall (fun c => (38 =? c)%N = false) ec.2) /\
    startsWith s (38%N :: body) = false /\
    ec ∈ decoded.
Proof.
  intros [Hin Hs]%find_some.
  pose proof decoded_shape as Hok. unfold entities_shaped in Hok.
  rewrite forallb_forall in Hok. specialize (Hok _ Hin).
  pose proof decoded_apart as Hm. unfold entities_apart in Hm.
  rewrite forallb_forall in Hm. specialize (Hm _ Hin).
  destruct ec as [e c]. cbn [fst snd] in *.
  destruct e as [|a b]; [done|]. destruct c as [|y r]; [done|].
  rewrite !andb_true_iff in Hok.
  destruct Hok as (((Ha%N.eqb_eq & Hb) & Hy) & Hc). subst a.
  exists b, y, r. split; [done|]. split; [done|].
  pose proof (startsWith_split _ _ Hs) as Hsplit.
  split; [exact Hsplit|].
  split; [by apply negb_true_iff|]. split.
  - apply orb_true_iff in Hc as [Hc|Hc].
    + left. by apply bool_decide_eq_true in Hc.
    + right. apply Forall_forall. intros x Hx%list_elem_of_In.
      rewrite forallb_forall in Hc. apply Hc in Hx. by apply negb_true_iff.
  - split; [|by apply list_elem_of_In].
    rewrite Hsplit. by apply startsWith_mismatch.
Qed.

Lemma name_char_amp (x : jsstring) :
  forallb name_char x = true -> Forall (fun c => (38 =? c)%N = false) x.
Proof.
  rewrite forallb_forall. intros Hx. apply Forall_forall.
  intros c Hc%list_elem_of_In. apply Hx in Hc.
  destruct (N.eqb_spec 38 c) as [<-|]; [discriminate Hc|done].
Qed.

Lemma find_decoded_none (c : N) (s : jsstring) :
  (38 =? c)%N = false ->
  find (fun ec => startsWith (c :: s) ec.1) decoded = None.
Proof.
  intros Hc. destruct (find _ decoded) as [ec|] eqn:Hf; [|done]. exfalso.
  apply decoded_entry in Hf as (b & y & r & _ & _ & Hs & _).
  injection Hs as ->. by rewrite N.eqb_refl in Hc.
Qed.

(** Text without [&] is kept by the decoding. *)
Lemma decode_scan_plain (x t : jsstring) :
  Forall (fun c => (38 =? c)%N = false) x ->
  decode_scan decoded (x ++ t) 0 = x ++ decode_scan decoded t 0.
Proof.
  induction 1 as [|c x Hc Hx IH]; [done|].
  cbn [app decode_scan]. change (c :: ?l) with ([c] ++ l) at 1.
  cbn [app]. rewrite find_decoded_none by done. by rewrite IH.
Qed.

(** What the decoded text begins with, when that is made of name
    characters, the input begins with. *)
Lemma decode_scan_starts (b t : jsstring) :
  forallb name_char b = true ->
  startsWith (decode_scan decoded t 0) b = true -> startsWith t b = true.
Proof.
  revert t. induction b as [|x b IH]; intros t Hb; [by destruct t|].
  cbn [forallb] in Hb. apply andb_true_iff in Hb as [Hx Hb].
  destruct t as [|c t]; [done|]. cbn [decode_scan].
  destruct (find _ decoded) as [ec|] eqn:Hf.
  - apply decoded_entry in Hf as (b0 & y & r & _ & -> & _ & Hy & _).
    cbn [app startsWith].
    destruct (N.eqb_spec x y) as [->|]; [congruence|done].
  - cbn [startsWith]. intros [-> Ht]%andb_true_iff.
    by rewrite (IH _ Hb Ht).
Qed.

Lemma pass_decodes (n : nat) (s : jsstring) (prev : option N) :
  length s <= n ->
  (forall ec, ec ∈ decoded -> ec.2 = [38%N] ->
     includes s (ec.1 ++ body) = false) ->
  replace_scan (lit (38%N :: body)) rep prev (decode_scan decoded s 0) 0
  = decode_scan (decoded ++ [(38%N :: body, rep)]) s 0.
Proof.
  revert s prev. induction n as [|n IH]; intros s prev Hn Hesc.
  { destruct s; [|simpl in Hn; lia]. cbn [decode_scan replace_scan].
    by rewrite match_here_lit. }
  destruct s as [|c s]; [cbn [decode_scan replace_scan];
                         by rewrite match_here_lit|].
  cbn [decode_scan]. rewrite find_snoc. cbn [fst snd].
  destruct (find _ decoded) as [ec|] eqn:Hf.
  - apply decoded_entry in Hf
      as (b & y & r & He & Hc & Hsplit & Hy & Hamp & _ & Hin).
    rewrite He. cbn [length pred].
    injection Hsplit as -> Hs. cbn [length drop] in Hs.
    set (t := drop (length b) s) in *.
    rewrite Hs, !decode_scan_skip.
    assert (Ht : length t <= n).
    { apply (f_equal length) in Hs. rewrite length_app in Hs.
      simpl in Hn. lia. }
    assert (Hesc' : forall ec', ec' ∈ decoded -> ec'.2 = [38%N] ->
              includes t (ec'.1 ++ body) = false).
    { intros ec' Hin' Hc'. specialize (Hesc ec' Hin' Hc').
      rewrite Hs in Hesc.
      by apply (includes_app_r (38%N :: b) t) in Hesc. }
    destruct Hamp as [Hone|Hnone].
    + rewrite Hone. cbn [app replace_scan]. rewrite match_here_lit.
      cbn [startsWith]. rewrite N.eqb_refl. cbn [andb].
      destruct (startsWith (decode_scan decoded t 0) body) eqn:Hstart.
      * exfalso. apply decode_scan_starts in Hstart; [|exact body_name].
        specialize (Hesc ec Hin Hone). rewrite He, Hs in Hesc.
        assert (Hall : startsWith (38%N :: b ++ t) ((38%N :: b) ++ body) = true)
          by (change (38%N :: b ++ t) with ((38%N :: b) ++ t);
              by apply startsWith_app_l).
        apply includes_startsWith in Hall. congruence.
      * f_equal. by apply IH.
    + rewrite (replace_scan_prefix _ (N.eqb 38)) by (done || apply starts_in_lit).
      f_equal. by apply IH.
  - destruct (startsWith (c :: s) (38%N :: body)) eqn:Hstart.
    + apply startsWith_split in Hstart. injection Hstart as -> Hs.
      cbn [length pred]. set (t := drop (length body) s) in *.
      rewrite Hs, decode_scan_skip.
      rewrite decode_scan_plain by (by apply name_char_amp).
      cbn [replace_scan]. rewrite match_here_lit.
      change (38%N :: body ++ ?l) with ((38%N :: body) ++ l).
      rewrite startsWith_app. cbn [length].
      rewrite replace_scan_skip. f_equal. apply IH.
      * apply (f_equal length) in Hs. rewrite length_app in Hs.
        simpl in Hn. lia.
      * intros ec' Hin' Hc'. specialize (Hesc ec' Hin' Hc').
        rewrite Hs in Hesc.
        by apply (includes_app_r (38%N :: body) t) in Hesc.
    + cbn [replace_scan]. rewrite match_here_lit.
      assert (Hmiss : startsWith (c :: decode_scan decoded s 0) (38%N :: body)
                      = false).
      { cbn [startsWith] in *.
        destruct (N.eqb_spec 38 c) as [<-|]; [|done]. cbn [andb] in *.
        destruct (startsWith (decode_scan decoded s 0) body) eqn:Hd; [|done].
        apply decode_scan_starts in Hd; [|exact body_name]. congruence. }
      rewrite Hmiss. f_equal. apply IH.
      * simpl in Hn. lia.
      * intros ec' Hin' Hc'. specialize (Hesc ec' Hin' Hc').
        by apply (includes_app_r [c] s) in Hesc.
Qed.
End EntityPass.

(** ** The entity passes of [strip] *)

Lemma escaped_entity_none (ents : list (jsstring * jsstring)) (s : jsstring)
  (j : nat) (e c : jsstring) :
  ents !! S j = Some (e, c) ->
  escaped_entity ents s = false ->
  includes s (js "&amp;" ++ tail e) = false.
Proof.
  intros Hj Hesc. unfold escaped_entity in Hesc.
  destruct ents as [|first ents]; [done|]. cbn [tail lookup list_lookup] in *.
  destruct (includes s (js "&amp;" ++ tail e)) eqn:Hinc; [|done].
  assert (Hex : existsb (fun ec => includes s (js "&amp;" ++ tail ec.1)) ents
                = true); [|congruence].
  apply existsb_exists. exists (e, c). split; [|done].
  apply list_elem_of_In. by eapply list_elem_of_lookup_2.
Qed.

(** The pass of the entity numbered [j] decodes it, the entities before it
    being decoded already. *)
Lemma entity_pass (n j : nat) (e c s : jsstring) :
  take n ENTITIES !! j = Some (e, c) ->
  escaped_entity (take n ENTITIES) s = false ->
  replace_all (lit e) c (decode_entities (take j ENTITIES) s)
  = decode_entities (take (S j) ENTITIES) s.
Proof.
  intros Hj Hesc.
  pose proof Hj as [Hall Hlt]%lookup_take_Some.
  assert (Hnine : j < 9).
  { apply lookup_lt_Some in Hall. exact Hall. }
  assert (Hnone : forall j', j = S j' ->
            includes s (js "&amp;" ++ tail e) = false).
  { intros j' ->. exact (escaped_entity_none _ _ _ _ _ Hj Hesc). }
  clear Hj Hesc Hlt. unfold replace_all, decode_entities.
  do 9 (destruct j as [|j];
        [ vm_compute in Hall; injection Hall as <- <-;
          match goal with
          | |- replace_scan (lit (38%N :: ?body)) ?rep None
                 (decode_scan ?before s 0) 0 = _ =>
              apply (pass_decodes before body rep eq_refl eq_refl eq_refl (length s) s
                       None (le_n _))
          end;
          intros ec Hin Hc;
          repeat (apply elem_of_cons in Hin as [->|Hin];
                  [try discriminate Hc|]);
          try (by apply elem_of_nil in Hin);
          exact (Hnone _ eq_refl)
        | ]).
  lia.
Qed.

(** Text without markup, in which white space is single spaces, is what
    the first three passes leave as it is. *)
Lemma without_markup_fixed (s : jsstring) :
  60%N ∉ s -> includes s (js "]]>") = false ->
  plain_spaces s -> single_spaced s ->
  without_markup s = s.
Proof.
  intros Hlt Hend Hp Hs. unfold without_markup.
  rewrite cdata_pass_fixed, tag_pass_fixed by done.
  by apply collapse_fixed.
Qed.

Lemma first_pass (n : nat) (e c t : jsstring) :
  take n ENTITIES !! 0 = Some (e, c) ->
  escaped_entity (take n ENTITIES) t = false ->
  replace_all (lit e) c t = decode_entities (take 1 ENTITIES) t.
Proof.
  intros Hj Hesc. rewrite <- (entity_pass n 0 e c t Hj Hesc).
  unfold decode_entities. cbn [take]. by rewrite decode_scan_nil.
Qed.

Lemma simple_strip_decodes (s : jsstring) :
  escaped_entity ENTITIES (without_markup s) = false ->
  Simple.strip (Some s) = trim (decode_entities ENTITIES (without_markup s)).
Proof.
  intros Hesc. unfold Simple.strip. cbv zeta. cbn [default from_option id].
  fold (without_markup s). set (t := without_markup s) in *.
  rewrite (first_pass 9 _ _ t eq_refl Hesc).
  rewrite (entity_pass 9 1 (js "&lt;") (js "<") t eq_refl Hesc).
  rewrite (entity_pass 9 2 (js "&gt;") (js ">") t eq_refl Hesc).
  rewrite (entity_pass 9 3 (js "&quot;") [34%N] t eq_refl Hesc).
  rewrite (entity_pass 9 4 (js "&#39;") (js "'") t eq_refl Hesc).
  rewrite (entity_pass 9 5 (js "&nbsp;") (js " ") t eq_refl Hesc).
  rewrite (entity_pass 9 6 (js "&mdash;") [8212%N] t eq_refl Hesc).
  rewrite (entity_pass 9 7 (js "&ndash;") [8211%N] t eq_refl Hesc).
  rewrite (entity_pass 9 8 (js "&hellip;") (js "...") t eq_refl Hesc).
  reflexivity.
Qed.

Lemma curated_strip_decodes (s : jsstring) :
  escaped_entity (take 5 ENTITIES) (without_markup s) = false ->
  Curated.strip (Some s)
  = trim (decode_entities (take 5 ENTITIES) (without_markup s)).
Proof.
  intros Hesc. unfold Curated.strip. cbv zeta. cbn [default from_option id].
  fold (without_markup s). set (t := without_markup s) in *.
  rewrite (first_pass 5 _ _ t eq_refl Hesc).
  rewrite (entity_pass 5 1 (js "&lt;") (js "<") t eq_refl Hesc).
  rewrite (entity_pass 5 2 (js "&gt;") (js ">") t eq_refl Hesc).
  rewrite (entity_pass 5 3 (js "&quot;") [34%N] t eq_refl Hesc).
  rewrite (entity_pass 5 4 (js "&#39;") (js "'") t eq_refl Hesc).
  reflexivity.
Qed.

(** ** What the decoding does, piece by piece *)

Lemma find_shaped_none (ents : list (jsstring * jsstring)) (c : N)
  (s : jsstring) :
  entities_shaped ents = true -> (38 =? c)%N = false ->
  find (fun ec => startsWith (c :: s) ec.1) ents = None.
Proof.
  intros Hents Hc. induction ents as [|[e x] ents IH]; [done|].
  cbn [entities_shaped forallb fst snd] in Hents.
  apply andb_true_iff in Hents as [He Hents].
  cbn [find fst]. destruct e as [|a b]; [done|]. destruct x as [|y r]; [done|].
  rewrite !andb_true_iff in He. destruct He as (((->%N.eqb_eq & _) & _) & _).
  cbn [startsWith]. rewrite Hc. cbn [andb]. by apply IH.
Qed.

(** A code unit other than [&] is kept. *)
Lemma decode_entities_other (ents : list (jsstring * jsstring)) (c : N)
  (t : jsstring) :
  entities_shaped ents = true -> c <> 38%N ->
  decode_entities ents (c :: t) = c :: decode_entities ents t.
Proof.
  intros Hents Hc. unfold decode_entities. cbn [decode_scan].
  rewrite find_shaped_none; [done|done|].
  by destruct (N.eqb_spec 38 c).
Qed.

Lemma find_entity (ents : list (jsstring * jsstring)) (j : nat)
  (e c t : jsstring) :
  ents !! j = Some (e, c) ->
  forallb (fun ec => mismatch e ec.1) (take j ents) = true ->
  find (fun ec => startsWith (e ++ t) ec.1) ents = Some (e, c).
Proof.
  revert j. induction ents as [|ec ents IH]; intros j Hj Hm; [done|].
  destruct j as [|j].
  - injection Hj as ->. cbn [find fst]. by rewrite startsWith_app.
  - cbn [take forallb] in Hm. apply andb_true_iff in Hm as [Hec Hm].
    cbn [find]. rewrite (startsWith_mismatch e ec.1 t Hec).
    by apply (IH j).
Qed.

(** An occurrence of an entity is replaced by its text. *)
Lemma decode_entities_entity (n : nat) (e c t : jsstring) :
  (e, c) ∈ take n ENTITIES ->
  decode_entities (take n ENTITIES) (e ++ t)
  = c ++ decode_entities (take n ENTITIES) t.
Proof.
  intros Hin. apply list_elem_of_lookup_1 in Hin as [j Hj].
  pose proof Hj as [Hall Hlt]%lookup_take_Some.
  assert (Hnine : j < 9) by (apply lookup_lt_Some in Hall; exact Hall).
  assert (Hapart : forallb (fun ec => mismatch e ec.1)
                     (take j (take n ENTITIES)) = true /\ e <> []).
  { rewrite take_take. replace (j `min` n) with j by lia. clear Hj Hlt.
    do 9 (destruct j as [|j];
          [vm_compute in Hall; injection Hall as <- <-; by split|]).
    lia. }
  destruct Hapart as [Hapart Hne].
  pose proof (find_entity _ _ _ _ t Hj Hapart) as Hfind.
  unfold decode_entities. destruct e as [|a b]; [done|].
  cbn [app decode_scan]. change (a :: b ++ t) with ((a :: b) ++ t).
  rewrite Hfind. cbn [fst snd length pred]. by rewrite decode_scan_skip.
Qed.

(** * The claims *)

(** C1, as the code has it.  In the filtered revision every record
    [rssToItems] emits, and so every record of the final collection of
    [main], has a non-empty title, a link that starts with http, a
    [posted_at] that is the ISO rendering of a time value, and at most six
    tags, no two equal: an item that fails the title or link check is not
    pushed. *)
Theorem filtered_records_are_valid `{Host} :
  (forall (now : nat -> Z) (xml src : jsstring) (r : Job),
     r ∈ Curated.rssToItems now xml src -> valid_record r) /\
  (forall (w : Curated.World) (r : Job),
     r ∈ jobs (Curated.main w) -> valid_record r).
Proof.
  split.
  - apply curated_rssToItems_valid.
  - intros w r (i & src & text & _ & _ & Hr)%main_jobs_elem.
    by eapply curated_rssToItems_valid.
Qed.

Lemma filtered_records_are_valid_witness :
  support_record ∈ jobs (@Curated.main node_ascii sample_world) /\
  valid_record support_record.
Proof.
  assert (Hin : support_record ∈ jobs (@Curated.main node_ascii sample_world))
    by (vm_compute; apply list_elem_of_here).
  split; [exact Hin|].
  exact (proj2 (@filtered_records_are_valid node_ascii) _ _ Hin).
Defined.

(** C1 fails on the revision with per-source parsers: [parseGenericRSS]
    checks nothing and returns a record for every item block, here one with
    empty title, link and date. *)
Lemma generic_parser_emits_untitled_record :
  Hybrid.parseGenericRSS untitled_feed (js "Working Nomads - All")
  = [ {| Hybrid.source := js "Working Nomads - All";
         Hybrid.source_url := [];
         Hybrid.title := [];
         Hybrid.company := [];
         Hybrid.location := [];
         Hybrid.remote_type := js "remote";
         Hybrid.tags := [];
         Hybrid.salary := [];
         Hybrid.posted_at := [] |} ].
Proof. vm_compute. reflexivity. Qed.

(** C2, as the code has it.  Both revisions of [dedupe] keep the first
    record of every key and drop the later ones, in the original order; a
    record is dropped exactly when its key, an MD5 digest, is the key of a
    record before it.  The filtered revision hashes the lower-cased,
    whitespace-collapsed title and company and the link as it is, joined
    with [|]; the inline-tagging revision hashes title and link as they
    are, joined with [|].  Records that agree on the text hashed are
    merged: those that agree on the fields, and also those whose fields
    differ but give the same text when joined. *)
Theorem dedupe_keeps_first `{Host} :
  keeps_first_of_each_key Curated.dedupe_key Curated.dedupe /\
  keeps_first_of_each_key Simple.dedupe_key Simple.dedupe /\
  (forall a b : Job,
     normalized (title a) = normalized (title b) ->
     normalized (default [] (company a)) = normalized (default [] (company b)) ->
     source_url a = source_url b ->
     Curated.dedupe [a; b] = [a]) /\
  (forall a b : Job,
     title a = title b -> source_url a = source_url b ->
     Simple.dedupe [a; b] = [a]) /\
  (forall a b : Job,
     Curated.dedupe [a; b]
     = if decide (Curated.dedupe_key a = Curated.dedupe_key b)
       then [a] else [a; b]) /\
  (forall a b : Job,
     Simple.dedupe [a; b]
     = if decide (Simple.dedupe_key a = Simple.dedupe_key b)
       then [a] else [a; b]) /\
  (forall a b : Job,
     Curated.dedupe_text a = Curated.dedupe_text b ->
     Curated.dedupe [a; b] = [a]) /\
  (forall a b : Job,
     Simple.dedupe_text a = Simple.dedupe_text b ->
     Simple.dedupe [a; b] = [a]) /\
  (forall (a b : Job) (t u v : jsstring),
     title a = t ++ js "|" ++ u -> source_url a = v ->
     title b = t -> source_url b = u ++ js "|" ++ v ->
     Simple.dedupe [a; b] = [a]).
Proof.
  assert (Hc : forall a b : Job,
            Curated.dedupe_key a = Curated.dedupe_key b ->
            Curated.dedupe [a; b] = [a]).
  { intros a b Hk. unfold Curated.dedupe.
    rewrite curated_dedupe_by. by apply dedupe_by_pair. }
  assert (Hs : forall a b : Job,
            Simple.dedupe_key a = Simple.dedupe_key b ->
            Simple.dedupe [a; b] = [a]).
  { intros a b Hk. unfold Simple.dedupe.
    rewrite simple_dedupe_by. by apply dedupe_by_pair. }
  refine (conj _ (conj _ (conj _ (conj _ (conj _ (conj _ (conj _ (conj _ _)))))))).
  - eapply keeps_first_ext; [|apply dedupe_by_keeps_first].
    intros l. apply curated_dedupe_by.
  - eapply keeps_first_ext; [|apply dedupe_by_keeps_first].
    intros l. apply simple_dedupe_by.
  - intros a b Ht Hco Hu. apply Hc.
    unfold Curated.dedupe_key, Curated.dedupe_text.
    unfold normalized in Ht, Hco. by rewrite Ht, Hco, Hu.
  - intros a b Ht Hu. apply Hs.
    unfold Simple.dedupe_key, Simple.dedupe_text. by rewrite Ht, Hu.
  - intros a b. unfold Curated.dedupe. rewrite curated_dedupe_by.
    apply dedupe_by_pair_iff.
  - intros a b. unfold Simple.dedupe. rewrite simple_dedupe_by.
    apply dedupe_by_pair_iff.
  - intros a b Ht. apply Hc. unfold Curated.dedupe_key. by rewrite Ht.
  - intros a b Ht. apply Hs. unfold Simple.dedupe_key. by rewrite Ht.
  - intros a b t u v Ha Hav Hb Hbv. apply Hs.
    unfold Simple.dedupe_key, Simple.dedupe_text.
    rewrite Ha, Hav, Hb, Hbv. by rewrite <- !app_assoc.
Qed.

Lemma dedupe_keeps_first_witness :
  let a := assistant_record (js "Virtual Assistant") "Jobicy"
             "https://jobs.example/va" in
  let b := assistant_record (js "virtual   ASSISTANT ") "Himalayas"
             "https://jobs.example/va" in
  let c := assistant_record (js "Assistant|https://jobs.example") "Jobicy"
             "/va" in
  let d := assistant_record (js "Assistant") "Himalayas"
             "https://jobs.example|/va" in
  @normalized node_ascii (title a) = @normalized node_ascii (title b) /\
  @Curated.dedupe node_ascii [a; b] = [a] /\
  Simple.dedupe [c; d] = [c].
Proof.
  intros a b c d.
  assert (Ht : @normalized node_ascii (title a)
               = @normalized node_ascii (title b))
    by (vm_compute; reflexivity).
  destruct (@dedupe_keeps_first node_ascii)
    as (_ & _ & Hfields & _ & _ & _ & _ & _ & Hjoin).
  split; [exact Ht|]. split.
  - exact (Hfields a b Ht eq_refl eq_refl).
  - exact (Hjoin c d (js "Assistant") (js "https://jobs.example") (js "/va")
             eq_refl eq_refl eq_refl eq_refl).
Defined.

(** C2 fails as stated.  The inline-tagging revision hashes the title as it
    is, so two postings whose titles differ in case both survive; the
    filtered revision hashes the link as it is, so two postings whose links
    differ in case both survive. *)
Lemma dedupe_keeps_case_variants :
  (let a := assistant_record (js "Virtual Assistant") "Jobicy"
              "https://jobs.example/va" in
   let b := assistant_record (js "virtual assistant") "Himalayas"
              "https://jobs.example/va" in
   Simple.dedupe [a; b] = [a; b]) /\
  (let a := assistant_record (js "Virtual Assistant") "Jobicy"
              "https://jobs.example/va" in
   let b := assistant_record (js "Virtual Assistant") "Himalayas"
              "https://jobs.example/VA" in
   @Curated.dedupe node_ascii [a; b] = [a; b]).
Proof. split; vm_compute; reflexivity. Qed.




(** C4.  In the filtered revision [main] always builds its payload: a
    source whose request is rejected, whose status is not 2xx or whose body
    cannot be read makes [safeFetch] return null and adds no record, every
    other source adds the records [rssToItems] finds in its body, [sources]
    lists the names of all of [SOURCES], and [total_jobs] is the length of
    [jobs]. *)
Theorem source_failure_is_contained `{Host} (w : Curated.World) :
  sources (Curated.main w) = name <$> Curated.SOURCES /\
  total_jobs (Curated.main w) = length (jobs (Curated.main w)) /\
  jobs (Curated.main w)
  = Curated.sortAndLimit
      (Curated.dedupe (concat (imap (contribution w) Curated.SOURCES))) /\
  forall (i : nat) (src : Source),
    Curated.SOURCES !! i = Some src ->
    ((forall message, Curated.fetch w (url src) = Rejected message ->
        contribution w i src = []) /\
     (forall res, Curated.fetch w (url src) = Responded res ->
        ok res = false \/ body res = None -> contribution w i src = []) /\
     (forall res text, Curated.fetch w (url src) = Responded res ->
        ok res = true -> body res = Some text ->
        contribution w i src
        = Curated.rssToItems (Curated.clock w i) text (name src))).
Proof.
  split; [reflexivity|]. split; [reflexivity|]. split; [apply main_jobs|].
  intros i src Hsrc. unfold contribution, Curated.safeFetch.
  split; [|split].
  - by intros message ->.
  - intros res -> [->| Hb]; [done|]. rewrite Hb. by destruct (ok res).
  - intros res text -> -> ->.
    assert (Hrss : type src = js "rss").
    { apply list_elem_of_lookup_2 in Hsrc. unfold Curated.SOURCES in Hsrc.
      repeat (apply elem_of_cons in Hsrc as [->|Hsrc]); try reflexivity.
      by apply elem_of_nil in Hsrc. }
    rewrite Hrss. destruct text; [done|]. by rewrite bool_decide_true.
Qed.

Lemma source_failure_is_contained_witness :
  let w := sample_world in
  let src := {| name := js "Jobicy - All"; type := js "rss";
                url := js "https://jobicy.com/feed" |} in
  Curated.SOURCES !! 2 = Some src /\
  Curated.fetch w (url src) = Responded response_500 /\
  ok response_500 = false /\
  @contribution node_ascii w 2 src = [] /\
  jobs (@Curated.main node_ascii w)
  = [support_record; acme_record "1" "Answer tickets."].
Proof.
  intros w src.
  destruct (@source_failure_is_contained node_ascii w)
    as (_ & _ & Hjobs & Hsrc).
  destruct (Hsrc 2 src eq_refl) as (_ & Hfail & _).
  split; [reflexivity|]. split; [reflexivity|]. split; [reflexivity|].
  split.
  - exact (Hfail response_500 eq_refl (or_introl eq_refl)).
  - rewrite Hjobs. vm_compute. reflexivity.
Defined.




(** C6, as the code has it.  [strip] is total and maps a missing or empty
    argument to the empty string.  Its first three passes remove the CDATA
    markers, replace every tag by a space and collapse every run of white
    space; text without markup whose white space is single spaces they
    leave as it is.  In what they leave, the sanitizer of the
    inline-tagging revision decodes the nine entities: every occurrence of
    one of them is replaced by its text, every other code unit is kept, and
    the result is trimmed.  The sanitizer of the filtered revision does so
    for the first five, [&amp;], [&lt;], [&gt;], [&quot;] and [&#39;], and
    keeps the other four as they are.  Because [&amp;] is decoded first, in
    a pass of its own, this holds when no entity stands escaped behind
    [&amp;]: [&amp;lt;] is decoded twice and becomes [<]. *)
Theorem strip_decodes_entities :
  Simple.strip None = [] /\ Simple.strip (Some []) = [] /\
  Curated.strip None = [] /\ Curated.strip (Some []) = [] /\
  (forall x y e c : jsstring,
     plain x -> plain y -> (e, c) ∈ ENTITIES ->
     Simple.strip (Some (x ++ e ++ y)) = trim (x ++ c ++ y)) /\
  (forall x y e c : jsstring,
     plain x -> plain y -> (e, c) ∈ take 5 ENTITIES ->
     Curated.strip (Some (x ++ e ++ y)) = trim (x ++ c ++ y)) /\
  (forall x y e c : jsstring,
     plain x -> plain y -> (e, c) ∈ ENTITIES -> c <> js " " ->
     trim (x ++ c ++ y) = x ++ c ++ y) /\
  (forall s : jsstring,
     escaped_entity ENTITIES (without_markup s) = false ->
     Simple.strip (Some s)
     = trim (decode_entities ENTITIES (without_markup s))) /\
  (forall s : jsstring,
     escaped_entity (take 5 ENTITIES) (without_markup s) = false ->
     Curated.strip (Some s)
     = trim (decode_entities (take 5 ENTITIES) (without_markup s))) /\
  (forall s : jsstring,
     60%N ∉ s -> includes s (js "]]>") = false ->
     plain_spaces s -> single_spaced s ->
     without_markup s = s) /\
  (forall (n : nat) (e c t : jsstring),
     (e, c) ∈ take n ENTITIES ->
     decode_entities (take n ENTITIES) (e ++ t)
     = c ++ decode_entities (take n ENTITIES) t) /\
  (forall (n : nat) (a : N) (t : jsstring),
     a <> 38%N ->
     decode_entities (take n ENTITIES) (a :: t)
     = a :: decode_entities (take n ENTITIES) t) /\
  Simple.strip (Some (js "&amp;lt;")) = js "<" /\
  Curated.strip (Some (js "&amp;lt;")) = js "<".
Proof.
  repeat (split; [vm_compute; reflexivity|]).
  split; [|split; [|split; [|split; [|split; [|split; [|split; [|split; [|split]]]]]]]].
  - intros x y e c Hx Hy Hec.
    pose proof (simple_strip_entities x y Hx Hy) as Hall.
    rewrite Forall_forall in Hall. exact (Hall (e, c) Hec).
  - intros x y e c Hx Hy Hec.
    pose proof (curated_strip_entities x y Hx Hy) as Hall.
    rewrite Forall_forall in Hall. exact (Hall (e, c) Hec).
  - intros x y e c Hx Hy Hec Hc. apply trim_no_space.
    assert (Hplain : forall s, plain s ->
              Forall (fun a => is_space a = false) s).
    { intros s. apply (plain_avoids is_space).
      intros a ->. by rewrite !orb_true_r. }
    rewrite !Forall_app. repeat split; auto.
    unfold ENTITIES in Hec.
    repeat (apply elem_of_cons in Hec as [[= -> ->]|Hec]);
      try (by apply elem_of_nil in Hec); try done;
      apply Forall_forall; intros a Ha%list_elem_of_In;
      vm_compute in Ha;
      repeat (destruct Ha as [<-|Ha]; [vm_compute; reflexivity|]);
      destruct Ha.
  - apply simple_strip_decodes.
  - apply curated_strip_decodes.
  - apply without_markup_fixed.
  - apply decode_entities_entity.
  - intros n a t Ha. apply decode_entities_other; [|done].
    assert (Hall : entities_shaped ENTITIES = true) by reflexivity.
    unfold entities_shaped in *. rewrite forallb_forall in *.
    intros ec Hec. apply Hall. apply list_elem_of_In.
    eapply elem_of_sublist; [by apply list_elem_of_In|apply sublist_take].
  - vm_compute. reflexivity.
  - vm_compute. reflexivity.
Qed.

Lemma strip_decodes_entities_witness :
  let s := js "Tom &amp; Jerry &lt;3 &mdash; R&amp;D&hellip;" in
  (60%N ∉ s) /\ plain_spaces s /\ single_spaced s /\
  without_markup s = s /\
  escaped_entity ENTITIES (without_markup s) = false /\
  Simple.strip (Some s) = js "Tom & Jerry <3 " ++ [8212%N] ++ js " R&D..." /\
  Curated.strip (Some s) = js "Tom & Jerry <3 &mdash; R&D&hellip;".
Proof.
  intros s.
  assert (Hlt : 60%N ∉ s) by (apply (bool_decide_unpack _); vm_compute; exact I).
  assert (Hp : plain_spaces s).
  { apply Forall_forall. intros c Hc%list_elem_of_In. vm_compute in Hc.
    repeat (destruct Hc as [<-|Hc]; [intros Hsp; try reflexivity;
                                      vm_compute in Hsp; discriminate Hsp|]).
    destruct Hc. }
  assert (Hs : single_spaced s)
    by (vm_compute; repeat split; intros; try reflexivity; discriminate).
  destruct strip_decodes_entities
    as (_ & _ & _ & _ & _ & _ & _ & Hsimple & Hcurated & Hfixed & _).
  pose proof (Hfixed s Hlt eq_refl Hp Hs) as Hsame.
  assert (Hesc : escaped_entity ENTITIES (without_markup s) = false)
    by (rewrite Hsame; vm_compute; reflexivity).
  assert (Hesc5 : escaped_entity (take 5 ENTITIES) (without_markup s) = false)
    by (rewrite Hsame; vm_compute; reflexivity).
  split; [exact Hlt|]. split; [exact Hp|]. split; [exact Hs|].
  split; [exact Hsame|]. split; [exact Hesc|]. split.
  - rewrite (Hsimple s Hesc), Hsame. vm_compute. reflexivity.
  - rewrite (Hcurated s Hesc5), Hsame. vm_compute. reflexivity.
Defined.

(** C6 fails on the filtered revision: its sanitizer has no pass for
    [&nbsp;], [&mdash;], [&ndash;] and [&hellip;] and leaves them as they
    are. *)
Lemma filtered_strip_keeps_four_entities :
  Curated.strip (Some (js "Tom&nbsp;&mdash;&ndash;Jerry&hellip;"))
  = js "Tom&nbsp;&mdash;&ndash;Jerry&hellip;".
Proof. vm_compute. reflexivity. Qed.

(** C7, as the code has it.  Every record [rssToItems] emits was built
    from one of the item blocks of the feed, and its excerpt is cut from the
    description of that block.  In the inline-tagging revision the excerpt
    is the sanitized description, its white space collapsed and trimmed, cut
    to 150 code units, with three dots appended when the description is
    longer than 150 code units, so whenever something was cut off.  In the
    filtered revision it is the first 200 code units of the sanitized
    description, without a marker. *)
Theorem excerpt_is_cut_description `{Host} :
  (forall (now : nat -> Z) (xml src : jsstring) (items : list Job) (r : Job),
     Simple.rssToItems now xml src = Normal items ->
     r ∈ items ->
     exists i block,
       blocks_of Simple.itemRe xml !! i = Some block /\
       Simple.item_of (now i) src block = Normal (Some r) /\
       title r = simple_title block /\
       source_url r = simple_link block /\
       let description := simple_description block in
       let clean :=
         trim (replace_all (plus true space) (js " ") description) in
       excerpt r
       = take 150 clean
         ++ (if 150 <? length description then js "..." else []) /\
       (150 < length clean -> excerpt r = take 150 clean ++ js "...") /\
       length (excerpt r) <= 153) /\
  (forall (now : nat -> Z) (xml src : jsstring) (r : Job),
     r ∈ Curated.rssToItems now xml src ->
     exists i block,
       blocks_of Curated.itemRe xml !! i = Some block /\
       Curated.item_of (now i) src block = Some r /\
       title r = curated_title block /\
       excerpt r = take 200 (curated_description block) /\
       length (excerpt r) <= 200).
Proof.
  split.
  - intros now xml src items r Hitems Hr.
    destruct (simple_rssToItems_block _ _ _ _ _ Hitems Hr)
      as (i & block & Hblock & Hitem).
    exists i, block. split; [exact Hblock|]. split; [exact Hitem|].
    destruct (simple_item_of_fields _ _ _ _ Hitem) as [Ht Hl].
    split; [exact Ht|]. split; [exact Hl|].
    apply simple_item_of_Some in Hitem as (_ & _ & _ & _ & Hex).
    cbv zeta. rewrite Hex. unfold Simple.excerpt_of, slice0.
    set (description := simple_description block).
    set (clean := trim (replace_all (plus true space) (js " ") description)).
    assert (Hclean : length clean <= length description).
    { unfold clean. etrans; [apply trim_length|apply collapse_length]. }
    destruct (Nat.ltb_spec 150 (length description)) as [Hlong|Hshort].
    + split; [done|]. split; [done|].
      rewrite length_app, length_take.
      change (length (js "...")) with 3. lia.
    + rewrite app_nil_r. split; [done|]. split; [lia|].
      rewrite length_take. lia.
  - intros now xml src r (i & block & Hblock & Hitem)%curated_rssToItems_block.
    exists i, block. split; [exact Hblock|]. split; [exact Hitem|].
    destruct (curated_item_of_filter _ _ _ _ Hitem) as [Ht _].
    split; [exact Ht|].
    apply curated_item_of_Some in Hitem
      as (_ & _ & _ & _ & cats & _ & _ & _ & _ & Hex).
    rewrite Hex. unfold slice0. split; [done|].
    rewrite length_take. lia.
Qed.

Lemma excerpt_is_cut_description_witness :
  let r := clerk_record (repeat 97%N 150 ++ js "...") in
  @Simple.rssToItems node_ascii (fun _ => noon) (long_feed 160) (js "Jobicy")
  = Normal [r] /\
  exists i block,
    blocks_of Simple.itemRe (long_feed 160) !! i = Some block /\
    @Simple.item_of node_ascii noon (js "Jobicy") block = Normal (Some r) /\
    length (excerpt r) <= 153.
Proof.
  intros r.
  assert (Hrun : @Simple.rssToItems node_ascii (fun _ => noon)
                   (long_feed 160) (js "Jobicy") = Normal [r])
    by (vm_compute; reflexivity).
  split; [exact Hrun|].
  destruct (proj1 (@excerpt_is_cut_description node_ascii) _ _ _ _ r Hrun
              (list_elem_of_here _ _))
    as (i & block & Hblock & Hitem & _ & _ & _ & _ & Hlen).
  exists i, block. split; [exact Hblock|]. split; [exact Hitem|exact Hlen].
Defined.

(** C7 fails on the filtered revision: a description of 201 letters is cut
    to its first 200, and nothing marks the cut. *)
Lemma filtered_excerpt_has_no_ellipsis :
  excerpt <$> @Curated.rssToItems node_ascii (fun _ => noon) (long_feed 201)
                (js "Jobicy - All")
  = [repeat 97%N 200].
Proof. vm_compute. reflexivity. Qed.

(** C8, as the code has it.  [fetchText] treats 301, 302, 307 and 308 as
    redirects.  Such a response without a Location fails with the
    no-Location error; with a Location it is followed while the depth is at
    most 5 and fails with the too-many-redirects error at a greater depth.
    The depth counts the requests already issued by the call, so no call
    issues more than seven requests, and it always returns. *)
Theorem fetchText_redirects (URL : jsstring -> option jsstring -> option jsstring)
  (net : nat -> jsstring -> fetch_outcome) (url : jsstring) (depth : nat)
  (res : Response) :
  is_Some (URL url None) ->
  net depth url = Responded res ->
  status res ∈ REDIRECTS ->
  (header_location res = None \/ header_location res = Some [] ->
   Hybrid.fetchText URL net url depth
   = ([Hybrid.Request url],
      Throw (Error (js "Redirect with no Location header for " ++ url)))) /\
  (forall loc next,
     header_location res = Some loc -> loc <> [] ->
     URL loc (Some url) = Some next ->
     (5 < depth ->
      Hybrid.fetchText URL net url depth
      = ([Hybrid.Request url],
         Throw (Error (js "Too many redirects for " ++ url)))) /\
     (depth <= 5 ->
      Hybrid.fetchText URL net url depth
      = (Hybrid.Request url :: (Hybrid.fetchText URL net next (S depth)).1,
         (Hybrid.fetchText URL net next (S depth)).2))) /\
  (forall url' depth',
     length (requested (Hybrid.fetchText URL net url' depth').1)
     <= max 1 (7 - depth')).
Proof.
  intros [l Hurl] Hnet Hstatus.
  split; [|split].
  - intros Hloc. rewrite fetchText_unfold, Hurl, Hnet.
    rewrite bool_decide_true by done.
    by destruct Hloc as [-> | ->].
  - intros loc next Hloc Hne Hnext.
    rewrite fetchText_unfold, Hurl, Hnet, Hloc.
    rewrite bool_decide_true by done.
    destruct loc as [|c loc]; [done|]. rewrite Hnext. split; intros Hd.
    + by rewrite (proj2 (Nat.ltb_lt 5 depth)).
    + rewrite (proj2 (Nat.ltb_ge 5 depth)) by done.
      by destruct (Hybrid.fetchText URL net next (S depth)).
  - intros url' depth'. apply fetchText_requests.
Qed.

Lemma fetchText_redirects_witness :
  let url := js "https://feed.example/rss" in
  let next := js "https://mirror.example/feed" in
  let res := response_of 302 (Some next) in
  is_Some (absolute url None) /\
  moved_then_forbidden 0 url = Responded res /\
  status res ∈ REDIRECTS /\
  Hybrid.fetchText absolute moved_then_forbidden url 0
  = (Hybrid.Request url
       :: (Hybrid.fetchText absolute moved_then_forbidden next 1).1,
     (Hybrid.fetchText absolute moved_then_forbidden next 1).2) /\
  length (requested
            (Hybrid.fetchText absolute moved_then_forbidden url 0).1) <= 7.
Proof.
  intros url next res.
  assert (Hurl : is_Some (absolute url None)) by (by eexists).
  assert (Hred : status res ∈ REDIRECTS)
    by (unfold REDIRECTS; apply list_elem_of_further, list_elem_of_here).
  destruct (fetchText_redirects absolute moved_then_forbidden url 0 res
              Hurl eq_refl Hred) as (_ & Hfollow & Hbound).
  split; [exact Hurl|]. split; [reflexivity|]. split; [exact Hred|]. split.
  - exact (proj2 (Hfollow next next eq_refl ltac:(discriminate) eq_refl)
             ltac:(lia)).
  - exact (Hbound url 0).
Defined.

(** C8 fails as stated.  Six redirects in a row are followed and the
    seventh request succeeds; and a 303 without a Location header fails as
    a plain bad status. *)
Lemma fetchText_follows_six_redirects :
  Hybrid.fetchText absolute six_redirects (js "https://feed.example/rss") 0
  = ([Hybrid.Request (js "https://feed.example/rss");
      Hybrid.Request (js "https://mirror.example/1");
      Hybrid.Request (js "https://mirror.example/2");
      Hybrid.Request (js "https://mirror.example/3");
      Hybrid.Request (js "https://mirror.example/4");
      Hybrid.Request (js "https://mirror.example/5");
      Hybrid.Request (js "https://mirror.example/6")],
     Normal (js "<rss></rss>")) /\
  Hybrid.fetchText absolute see_other (js "https://feed.example/rss") 0
  = ([Hybrid.Request (js "https://feed.example/rss")],
     Throw (Error (js "Fetch failed https://feed.example/rss: 303"))).
Proof. split; vm_compute; reflexivity. Qed.

(** C9, as the code has it.  A 403 answer to the first request of a call
    (depth 0) is followed by one delay of 500 ms and one more request for
    the same URL; no later request of the call is delayed or retried.  When
    the retry is answered with 403, or with any status that is neither 2xx
    nor one of the followed redirects, the call fails with that status. *)
Theorem fetchText_retries_once
  (URL : jsstring -> option jsstring -> option jsstring)
  (net : nat -> jsstring -> fetch_outcome) (url : jsstring) (res : Response) :
  is_Some (URL url None) ->
  net 0 url = Responded res ->
  status res = 403%Z ->
  Hybrid.fetchText URL net url 0
  = (Hybrid.Request url :: Hybrid.Sleep 500
       :: (Hybrid.fetchText URL net url 1).1,
     (Hybrid.fetchText URL net url 1).2) /\
  delays (Hybrid.fetchText URL net url 0).1 = [500%Z] /\
  (forall res',
     net 1 url = Responded res' ->
     status res' ∉ REDIRECTS -> ok res' = false ->
     Hybrid.fetchText URL net url 0
     = ([Hybrid.Request url; Hybrid.Sleep 500; Hybrid.Request url],
        Throw (Error (js "Fetch failed " ++ url ++ js ": "
                      ++ decimal (status res'))))).
Proof.
  intros [l Hurl] Hnet Hstatus.
  assert (Htop : Hybrid.fetchText URL net url 0
                 = (Hybrid.Request url :: Hybrid.Sleep 500
                      :: (Hybrid.fetchText URL net url 1).1,
                    (Hybrid.fetchText URL net url 1).2)).
  { rewrite (fetchText_unfold URL net url 0), Hurl, Hnet, Hstatus.
    rewrite bool_decide_false
      by (unfold REDIRECTS; intros Hin;
          repeat (apply elem_of_cons in Hin as [Heq|Hin]);
          try discriminate Heq; by apply elem_of_nil in Hin).
    simpl. by destruct (Hybrid.fetchText URL net url 1). }
  split; [exact Htop|]. split.
  - rewrite Htop. simpl. by rewrite fetchText_no_delay.
  - intros res' Hnet' Hred Hok. rewrite Htop.
    rewrite (fetchText_unfold URL net url 1), Hurl, Hnet'.
    rewrite bool_decide_false by done.
    rewrite (bool_decide_eq_false_2 (1 = 0)) by lia.
    by rewrite andb_false_r, Hok.
Qed.

Lemma fetchText_retries_once_witness :
  let url := js "https://feed.example/rss" in
  is_Some (absolute url None) /\
  always_forbidden 0 url = Responded (response_of 403 None) /\
  Hybrid.fetchText absolute always_forbidden url 0
  = ([Hybrid.Request url; Hybrid.Sleep 500; Hybrid.Request url],
     Throw (Error (js "Fetch failed https://feed.example/rss: 403"))).
Proof.
  intros url.
  split; [by eexists|]. split; [reflexivity|].
  refine (proj2 (proj2
            (fetchText_retries_once absolute always_forbidden url
               (response_of 403 None) (ex_intro _ url eq_refl)
               eq_refl eq_refl))
            (response_of 403 None) eq_refl _ eq_refl).
  unfold REDIRECTS. intros Hin.
  repeat (apply elem_of_cons in Hin as [Heq|Hin]); try discriminate Heq.
  by apply elem_of_nil in Hin.
Defined.

(** C9 fails as stated.  A retry that is answered with a redirect is not
    surfaced as an error but followed; and a 403 answer to the first request
    for a URL reached through a redirect is not retried. *)
Lemma fetchText_retry_exceptions :
  Hybrid.fetchText absolute forbidden_then_moved
    (js "https://feed.example/rss") 0
  = ([Hybrid.Request (js "https://feed.example/rss");
      Hybrid.Sleep 500;
      Hybrid.Request (js "https://feed.example/rss");
      Hybrid.Request (js "https://mirror.example/feed")],
     Normal (js "<rss></rss>")) /\
  Hybrid.fetchText absolute moved_then_forbidden
    (js "https://feed.example/rss") 0
  = ([Hybrid.Request (js "https://feed.example/rss");
      Hybrid.Request (js "https://mirror.example/feed")],
     Throw (Error (js "Fetch failed https://mirror.example/feed: 403"))).
Proof. split; vm_compute; reflexivity. Qed.

(** C10. In the filtered revision the company is inferred from the title
    alone: [extractCompany] returns the same company whatever description it
    is given, and two records [rssToItems] emits with equal titles have
    equal companies. *)
Theorem extractCompany_title_only `{Host} :
  (forall t d1 d2 : jsstring,
     Curated.extractCompany t d1 = Curated.extractCompany t d2) /\
  (forall (now1 now2 : nat -> Z) (xml1 xml2 src1 src2 : jsstring) (r1 r2 : Job),
     r1 ∈ Curated.rssToItems now1 xml1 src1 ->
     r2 ∈ Curated.rssToItems now2 xml2 src2 ->
     title r1 = title r2 -> company r1 = company r2).
Proof.
  split; [reflexivity|].
  intros now1 now2 xml1 xml2 src1 src2 r1 r2 H1 H2 Ht.
  apply curated_rssToItems_elem in H1 as (i1 & b1 & H1).
  apply curated_rssToItems_elem in H2 as (i2 & b2 & H2).
  apply curated_item_of_Some in H1 as (_ & _ & _ & _ & c1 & _ & -> & _).
  apply curated_item_of_Some in H2 as (_ & _ & _ & _ & c2 & _ & -> & _).
  by rewrite Ht.
Qed.

Lemma extractCompany_title_only_witness :
  let r1 := acme_record "1" "Answer tickets." in
  let r2 := acme_record "2" "Work for Globex on chat." in
  r1 ∈ @Curated.rssToItems node_ascii (fun _ => noon) acme_feed_1
         (js "Remote.co - All") /\
  r2 ∈ @Curated.rssToItems node_ascii (fun _ => noon) acme_feed_2
         (js "Remote.co - All") /\
  title r1 = title r2 /\
  company r1 = company r2.
Proof.
  intros r1 r2.
  assert (H1 : r1 ∈ @Curated.rssToItems node_ascii (fun _ => noon)
                      acme_feed_1 (js "Remote.co - All"))
    by (vm_compute; apply list_elem_of_here).
  assert (H2 : r2 ∈ @Curated.rssToItems node_ascii (fun _ => noon)
                      acme_feed_2 (js "Remote.co - All"))
    by (vm_compute; apply list_elem_of_here).
  split; [exact H1|]. split; [exact H2|]. split; [reflexivity|].
  exact (proj2 (@extractCompany_title_only node_ascii)
           _ _ _ _ _ _ r1 r2 H1 H2 eq_refl).
Defined.

(** * The further theorems *)

(** X1.  Neither sanitizer ever returns a string longer than its
    argument: every pass of [strip] replaces a match by text that is not
    longer, and [trim] only removes. *)
Theorem strip_never_lengthens (html : option jsstring) :
  length (Curated.strip html) <= length (default [] html) /\
  length (Simple.strip html) <= length (default [] html).
Proof. split; [apply curated_strip_length|apply simple_strip_length]. Qed.

(** X2.  The white space of a sanitized string.  What [strip] of the
    filtered revision returns has the space U+0020 as its only white space,
    never two in a row, and none at either end.  What [strip] of the
    inline-tagging revision returns has U+0020 as its only white space and
    none at either end, but it can hold several spaces in a row, because
    [&nbsp;] is decoded after the runs of white space were collapsed. *)
Theorem strip_normalises_white_space (html : option jsstring) :
  plain_spaces (Curated.strip html) /\ trimmed (Curated.strip html) /\
  single_spaced (Curated.strip html) /\
  plain_spaces (Simple.strip html) /\ trimmed (Simple.strip html) /\
  Simple.strip (Some (js "a &nbsp; b")) = js "a   b".
Proof.
  split; [apply curated_strip_plain_spaces|].
  split; [apply trim_trimmed|].
  split; [apply curated_strip_single_spaced|].
  split; [apply simple_strip_plain_spaces|].
  split; [apply trim_trimmed|]. vm_compute. reflexivity.
Qed.

(** X3.  In the filtered revision no record [rssToItems] emits has a [?]
    in its [source_url]: the sanitized link holds no line terminator, so
    [/\?.*$/] cuts everything from the first [?] on. *)
Theorem link_has_no_query `{Host} (now : nat -> Z) (xml src : jsstring)
  (r : Job) :
  r ∈ Curated.rssToItems now xml src -> 63%N ∉ source_url r.
Proof.
  intros (i & block & Hitem)%curated_rssToItems_elem.
  rewrite (curated_item_link _ _ _ _ Hitem).
  apply replace_first_query.
  destruct (Curated.strip (Some (Curated.pick block "link"))) eqn:Hlink;
    cbn [orElse].
  - rewrite orElse_nil_r. apply curated_strip_plain_spaces.
  - rewrite <- Hlink. apply curated_strip_plain_spaces.
Qed.

Lemma link_has_no_query_witness :
  support_record ∈ @Curated.rssToItems node_ascii (fun _ => noon) support_feed
                     (js "Remote OK - All") /\
  63%N ∉ source_url support_record.
Proof.
  assert (Hin : support_record
                ∈ @Curated.rssToItems node_ascii (fun _ => noon) support_feed
                    (js "Remote OK - All"))
    by (vm_compute; apply list_elem_of_here).
  split; [exact Hin|].
  exact (@link_has_no_query node_ascii _ _ _ _ Hin).
Defined.

(** X4.  A company [extractCompany] returns begins with an ASCII letter,
    consists of ASCII letters, white space, [&] and [.] only, is shorter
    than 50 code units, and neither begins nor ends with white space. *)
Theorem extractCompany_shape (title description co : jsstring) :
  Curated.extractCompany title description = Some co ->
  (exists c rest, co = c :: rest /\ is_alpha c = true) /\
  Forall (fun c => company_char c = true) co /\
  length co < 50 /\
  trimmed co.
Proof.
  unfold Curated.extractCompany.
  assert (Hall : forall patterns,
            (forall r, r ∈ patterns -> r ∈ Curated.company_patterns) ->
            Curated.first_company patterns title = Some co ->
            exists c g, co = trim (c :: g) /\ is_alpha c = true /\
                        Forall (fun c => company_char c = true) (c :: g) /\
                        length (c :: g) < 50).
  { induction patterns as [|r patterns IH]; intros Hsub; [done|].
    cbn [Curated.first_company].
    assert (Hrest : Curated.first_company patterns title = Some co ->
              exists c g, co = trim (c :: g) /\ is_alpha c = true /\
                          Forall (fun c => company_char c = true) (c :: g) /\
                          length (c :: g) < 50).
    { apply IH. intros r' Hr'. apply Hsub. by right. }
    destruct (match1 r title) as [[|c g]|] eqn:Hm; try done.
    destruct (Nat.ltb_spec (length (c :: g)) 50) as [Hlt|Hge]; [|done].
    intros [= <-].
    destruct (company_pattern_capture r title (c :: g)) as (c' & g' & Heq & Hc & Hcls);
      [apply Hsub; left|done|].
    injection Heq as <- <-. by exists c, g. }
  intros (c & g & -> & Hc & Hcls & Hlen)%Hall; [|done].
  split; [|split; [|split]].
  - destruct (trim_company c g Hc) as (rest & ->). eauto.
  - by apply trim_Forall.
  - pose proof (trim_length (c :: g)). lia.
  - apply trim_trimmed.
Qed.

Lemma extractCompany_shape_witness :
  Curated.extractCompany (js "Support Agent at Acme") [] = Some (js "Acme") /\
  length (js "Acme") < 50.
Proof.
  assert (Hco : Curated.extractCompany (js "Support Agent at Acme") []
                = Some (js "Acme")) by (vm_compute; reflexivity).
  split; [exact Hco|].
  exact (proj1 (proj2 (proj2 (extractCompany_shape _ _ _ Hco)))).
Defined.

(** X5.  The tags [generateTags] returns for the category [categorizeJob]
    infers: [slice(0, 6)] never cuts a tag off.  Exactly one of the four
    job types is among the tags; the category is among them exactly when it
    is not [other], and no other category is; [no-experience], the tag
    pushed last, is among them exactly when the text matches its pattern. *)
Theorem generateTags_slots_filled `{Host} (t d : jsstring)
  (cats : list jsstring) :
  let text := toLowerCase (t ++ js " " ++ d) in
  let c := Curated.categorizeJob t d cats in
  let tags := Curated.generateTags t d c in
  (exists ty, ty ∈ JOB_TYPES /\ ty ∈ tags /\
     forall ty', ty' ∈ JOB_TYPES -> ty' ∈ tags -> ty' = ty) /\
  (c ∈ tags <-> c <> js "other") /\
  (forall c', c' ∈ CATEGORIES -> c' ∈ tags -> c' = c) /\
  (js "no-experience" ∈ tags
   <-> test (pattern true "no.experience|entry.level|beginner") text = true).
Proof.
  intros text c tags.
  pose proof (categorizeJob_closed t d cats) as Hc. fold c in Hc.
  destruct (categories_apart c Hc) as (Hc1 & Hc2 & Hc3 & Hc4 & Hc5).
  destruct (generateTags_elem t d c) as (ty & Hty & Hin).
  fold text tags in Hin.
  destruct (job_types_apart ty Hty) as (Hy1 & Hy2 & Hy3 & Hy4).
  split; [|split; [|split]].
  - exists ty. split; [done|]. split; [apply Hin; do 2 right; by left|].
    intros ty' Hty' Hin'. apply Hin in Hin'.
    destruct (job_types_apart ty' Hty') as (? & ? & ? & ?).
    destruct Hin' as [[_ ?]|[[_ ?]|[?|[[_ ?]|[[_ ->]|[_ ?]]]]]]; done.
  - rewrite Hin. split; [|intros Hne; do 4 right; left; done].
    intros [[_ ?]|[[_ ?]|[->|[[_ ?]|[[? _]|[_ ?]]]]]]; done.
  - intros c' Hc' Hin'. apply Hin in Hin'.
    destruct (categories_apart c' Hc') as (? & ? & ? & ? & ?).
    destruct Hin' as [[_ ?]|[[_ ?]|[->|[[_ ?]|[[_ ->]|[_ ?]]]]]]; done.
  - rewrite Hin. split; [|intros Hne; do 5 right; done].
    intros [[_ ?]|[[_ ?]|[?|[[_ ?]|[[_ ?]|[? _]]]]]]; done.
Qed.

(** X6.  Both revisions of [dedupe] are idempotent, and they return their
    argument unchanged exactly when no two of its records have the same
    key. *)
Theorem dedupe_is_idempotent `{Host} (items : list Job) :
  Curated.dedupe (Curated.dedupe items) = Curated.dedupe items /\
  (Curated.dedupe items = items <-> NoDup (Curated.dedupe_key <$> items)) /\
  Simple.dedupe (Simple.dedupe items) = Simple.dedupe items /\
  (Simple.dedupe items = items <-> NoDup (Simple.dedupe_key <$> items)).
Proof.
  unfold Curated.dedupe, Simple.dedupe.
  rewrite !curated_dedupe_by, !simple_dedupe_by.
  split; [apply dedupe_by_idemp|]. split; [apply dedupe_by_fixed|].
  split; [apply dedupe_by_idemp|apply dedupe_by_fixed].
Qed.

(** X7.  On at most 2000 records [sortAndLimit] loses and adds nothing:
    its result is a permutation of its argument.  When the dates parse, the
    records of one date come out in the order they went in. *)
Theorem sortAndLimit_stable `{Host} (jobs : list Job) :
  length jobs <= 2000 ->
  Curated.sortAndLimit jobs ≡ₚ jobs /\
  (Forall (fun j => is_Some (Date_parse (posted_at j))) jobs ->
   forall t : Z,
     filter (fun j => time_of j = t) (Curated.sortAndLimit jobs)
     = filter (fun j => time_of j = t) jobs).
Proof.
  intros Hlen. unfold Curated.sortAndLimit, slice0.
  rewrite take_ge by (by rewrite (Permutation_length (sort_perm _ jobs))).
  split; [apply sort_perm|].
  intros Hvalid t. apply sort_stable. by apply by_date_desc_on.
Qed.

Lemma sortAndLimit_stable_witness :
  let a := dated_record "a" "2024-02-01T00:00:00.000Z" in
  let b := dated_record "b" "2024-03-01T00:00:00.000Z" in
  let c := dated_record "c" "2024-02-01T00:00:00.000Z" in
  length [a; b; c] <= 2000 /\
  @Curated.sortAndLimit node_ascii [a; b; c] = [b; a; c] /\
  filter (fun j => @time_of node_ascii j = 1706745600000%Z)
    (@Curated.sortAndLimit node_ascii [a; b; c]) = [a; c].
Proof.
  intros a b c.
  assert (Hlen : length [a; b; c] <= 2000) by (simpl; lia).
  assert (Hvalid : Forall (fun j => is_Some (@Date_parse node_ascii (posted_at j)))
                     [a; b; c])
    by (repeat constructor; vm_compute; eauto).
  split; [exact Hlen|]. split; [vm_compute; reflexivity|].
  rewrite (proj2 (@sortAndLimit_stable node_ascii [a; b; c] Hlen) Hvalid).
  vm_compute. reflexivity.
Defined.

(** X8.  When the dates parse, [sortAndLimit] leaves its own result as
    it is. *)
Theorem sortAndLimit_idempotent `{Host} (jobs : list Job) :
  Forall (fun j => is_Some (Date_parse (posted_at j))) jobs ->
  Curated.sortAndLimit (Curated.sortAndLimit jobs) = Curated.sortAndLimit jobs.
Proof.
  intros Hvalid. unfold Curated.sortAndLimit, slice0.
  pose proof (sort_sorted time_of Curated.by_date_desc jobs
                (by_date_desc_on jobs Hvalid)) as Hsorted.
  rewrite <- (take_drop 2000 (sort Curated.by_date_desc jobs)) in Hsorted.
  apply StronglySorted_app_1_l in Hsorted.
  rewrite (sort_sorted_fixed time_of); [apply take_idemp| |done].
  apply by_date_desc_on. rewrite Forall_forall in *. intros j Hj.
  apply Hvalid. rewrite <- (sort_perm Curated.by_date_desc jobs).
  eapply elem_of_sublist; [exact Hj|apply sublist_take].
Qed.

Lemma sortAndLimit_idempotent_witness :
  let a := dated_record "a" "2024-01-01T00:00:00.000Z" in
  let b := dated_record "b" "2024-03-01T00:00:00.000Z" in
  @Curated.sortAndLimit node_ascii (@Curated.sortAndLimit node_ascii [a; b])
  = [b; a].
Proof.
  intros a b.
  assert (Hvalid : Forall (fun j => is_Some (@Date_parse node_ascii (posted_at j)))
                     [a; b])
    by (repeat constructor; vm_compute; eauto).
  rewrite (@sortAndLimit_idempotent node_ascii [a; b] Hvalid).
  vm_compute. reflexivity.
Defined.

(** X9.  In the payload of [main] of the filtered revision no two records
    have the same [dedupe] key, and there are at most 2000 of them. *)
Theorem main_collection_distinct `{Host} (w : Curated.World) :
  NoDup (Curated.dedupe_key <$> jobs (Curated.main w)) /\
  total_jobs (Curated.main w) <= 2000 /\
  jobs (Curated.main w)
  `sublist_of` sort Curated.by_date_desc
                 (Curated.dedupe
                    (concat (imap (contribution w) Curated.SOURCES))).
Proof.
  rewrite main_jobs. unfold Curated.main. cbn [total_jobs].
  rewrite collect_concat. cbn [app].
  unfold Curated.sortAndLimit, slice0.
  split; [|split].
  - eapply sublist_NoDup; [|apply fmap_sublist, sublist_take].
    rewrite (sort_perm Curated.by_date_desc).
    unfold Curated.dedupe. rewrite curated_dedupe_by. apply dedupe_by_NoDup.
  - rewrite length_take. lia.
  - apply sublist_take.
Qed.

(** X10.  In the inline-tagging revision every record [rssToItems] returns
    has a title and a link that are not empty and a [posted_at] that
    [toISOString] printed; its tags are pairwise different, between two and
    five, the last one is [remote], and exactly one is a job type. *)
Theorem simple_records_are_formed `{Host} (now : nat -> Z)
  (xml src : jsstring) (items : list Job) (r : Job) :
  Simple.rssToItems now xml src = Normal items ->
  r ∈ items ->
  title r <> [] /\ source_url r <> [] /\
  (exists t, posted_at r = toISOString t) /\
  NoDup (tags r) /\ 2 <= length (tags r) <= 5 /\
  last (tags r) = Some (js "remote") /\
  exists ty, ty ∈ JOB_TYPES /\ ty ∈ tags r /\
    forall ty', ty' ∈ JOB_TYPES -> ty' ∈ tags r -> ty' = ty.
Proof.
  intros Hitems Hr.
  destruct (simple_rssToItems_elem _ _ _ _ _ Hitems Hr) as (k & block & Hitem).
  apply simple_item_of_Some in Hitem as (Ht & Hl & Hp & Htags & _).
  rewrite Htags.
  destruct (simple_tags_of_shape
              (toLowerCase (title r ++ js " " ++ simple_description block)))
    as (? & ? & ? & ?).
  done.
Qed.

Lemma simple_records_are_formed_witness :
  @Simple.rssToItems node_ascii (fun _ => noon) support_feed_iso
    (js "Example") = Normal [simple_support_record] /\
  NoDup (tags simple_support_record) /\
  last (tags simple_support_record) = Some (js "remote").
Proof.
  assert (Hrun : @Simple.rssToItems node_ascii (fun _ => noon)
                   support_feed_iso (js "Example")
                 = Normal [simple_support_record])
    by (vm_compute; reflexivity).
  split; [exact Hrun|].
  destruct (@simple_records_are_formed node_ascii _ _ _ _ _ Hrun
              (list_elem_of_here _ _)) as (_ & _ & _ & Hnd & _ & Hlast & _).
  split; [exact Hnd|exact Hlast].
Defined.

(** X11.  In the inline-tagging revision one item with a title, a link and
    a date that does not parse ends the run: [toISOString] throws,
    [rssToItems] passes the exception on, [main] does not catch it, and no
    payload is built, whatever the other items and sources hold. *)
Theorem invalid_date_aborts `{Host} (w : Curated.World) (i k : nat)
  (src : Simple.Source) (body : jsstring) (m : rmatch_result) :
  Simple.SOURCES !! i = Some src ->
  Simple.safeFetch (Curated.fetch w) (Simple.url src) = Some body ->
  matchAll Simple.itemRe body !! k = Some m ->
  let block := default [] (m_group m) in
  simple_title block <> [] ->
  simple_link block <> [] ->
  Date_parse (simple_pubDate (Curated.clock w i k) block) = None ->
  Simple.rssToItems (Curated.clock w i) body (Simple.name src)
  = Throw invalid_time /\
  Simple.main w = Throw invalid_time.
Proof.
  intros Hsrc Hfetch Hm block Ht Hl Hdate.
  assert (Hitem : Simple.item_of (Curated.clock w i k) (Simple.name src) block
                  = Throw invalid_time)
    by (by apply simple_item_of_Throw).
  assert (Hrss : Simple.rssToItems (Curated.clock w i) body (Simple.name src)
                 = Throw invalid_time)
    by (by eapply simple_rssToItems_Throw).
  split; [done|]. unfold Simple.main.
  by rewrite (simple_collect_Throw w Simple.SOURCES 0 i src body []
                invalid_time Hsrc Hfetch Hrss).
Qed.

Lemma invalid_date_aborts_witness :
  @Simple.main node_ascii (same_feed_world undated_feed) = Throw invalid_time.
Proof.
  refine (proj2 (@invalid_date_aborts node_ascii (same_feed_world undated_feed)
                   0 0 {| Simple.name := js "Remote OK";
                          Simple.url := js "https://remoteok.com/rss" |}
                   undated_feed
                   (Match 0 107
                      (Some (js "<title>Office Clerk</title><link>https://jobs.example/clerk</link><pubDate>next week</pubDate>")))
                   eq_refl eq_refl _ _ _ _)).
  - vm_compute. reflexivity.
  - vm_compute. discriminate.
  - vm_compute. discriminate.
  - vm_compute. reflexivity.
Defined.

(** X12.  When [main] of the inline-tagging revision builds its payload,
    [total_jobs] is the number of records, [sources] lists all of
    [SOURCES], no two records have the same [dedupe] key, and the key of
    every record any source contributed is there: nothing is cut off. *)
Theorem simple_main_keeps_all `{Host} (w : Curated.World) (p : Payload) :
  Simple.main w = Normal p ->
  total_jobs p = length (jobs p) /\
  sources p = Simple.name <$> Simple.SOURCES /\
  NoDup (Simple.dedupe_key <$> jobs p) /\
  forall i src body items r,
    Simple.SOURCES !! i = Some src ->
    Simple.safeFetch (Curated.fetch w) (Simple.url src) = Some body ->
    Simple.rssToItems (Curated.clock w i) body (Simple.name src)
    = Normal items ->
    r ∈ items ->
    Simple.dedupe_key r ∈ Simple.dedupe_key <$> jobs p.
Proof.
  unfold Simple.main.
  destruct (Simple.collect w 0 Simple.SOURCES []) as [all|e] eqn:Hall; [|done].
  intros [= <-]. cbn [total_jobs sources jobs].
  split; [done|]. split; [done|].
  unfold Simple.dedupe. rewrite simple_dedupe_by.
  split.
  - rewrite (sort_perm Simple.by_date_desc). apply dedupe_by_NoDup.
  - intros i src body items r Hsrc Hfetch Hitems Hr.
    rewrite (sort_perm Simple.by_date_desc).
    destruct (simple_collect_Normal _ _ _ _ _ Hall) as [_ Hin].
    specialize (Hin i src body items r Hsrc Hfetch Hitems Hr).
    by destruct (dedupe_by_covers Simple.dedupe_key ∅ all r Hin)
      as [?%elem_of_empty|?].
Qed.

Lemma simple_main_keeps_all_witness :
  exists p,
    @Simple.main node_ascii (same_feed_world support_feed_iso) = Normal p /\
    total_jobs p = 1 /\ total_jobs p = length (jobs p).
Proof.
  eexists. split; [vm_compute; reflexivity|]. split; [reflexivity|].
  refine (proj1 (@simple_main_keeps_all node_ascii
                   (same_feed_world support_feed_iso) _ _)).
  vm_compute. reflexivity.
Defined.

(** X13.  A text [fetchText] returns is the body of a response with a 2xx
    status; that response answered the last request of the call, which is
    at most the seventh. *)
Theorem fetchText_returns_ok_body
  (URL : jsstring -> option jsstring -> option jsstring)
  (net : nat -> jsstring -> fetch_outcome) (url text : jsstring) :
  (Hybrid.fetchText URL net url 0).2 = Normal text ->
  exists d u res,
    d <= 6 /\ net d u = Responded res /\ ok res = true /\
    body res = Some text /\
    last (requested (Hybrid.fetchText URL net url 0).1) = Some u /\
    length (requested (Hybrid.fetchText URL net url 0).1) <= 7.
Proof.
  intros Hr.
  destruct (fetchText_Normal URL net url 0 text Hr)
    as (d & u & res & Hd & Hnet & Hok & Hbody & Hlast).
  pose proof (fetchText_requests URL net url 0) as Hlen.
  exists d, u, res. repeat split; try done; simpl in *; lia.
Qed.

Lemma fetchText_returns_ok_body_witness :
  let url := js "https://feed.example/rss" in
  (Hybrid.fetchText absolute six_redirects url 0).2
  = Normal (js "<rss></rss>") /\
  exists d u res,
    d <= 6 /\ six_redirects d u = Responded res /\ ok res = true /\
    body res = Some (js "<rss></rss>").
Proof.
  intros url.
  assert (Hr : (Hybrid.fetchText absolute six_redirects url 0).2
               = Normal (js "<rss></rss>")) by (vm_compute; reflexivity).
  split; [exact Hr|].
  destruct (fetchText_returns_ok_body absolute six_redirects url _ Hr)
    as (d & u & res & Hd & Hnet & Hok & Hbody & _).
  by exists d, u, res.
Defined.

(** X14.  When every request is answered by a redirect with a Location,
    [fetchText] issues seven requests, waits for none, and fails with the
    too-many-redirects error. *)
Theorem fetchText_redirect_loop_ends
  (URL : jsstring -> option jsstring -> option jsstring)
  (net : nat -> jsstring -> fetch_outcome) (url : jsstring) :
  (forall a b, is_Some (URL a b)) ->
  (forall d u, exists res c loc,
     net d u = Responded res /\ status res ∈ REDIRECTS /\
     header_location res = Some (c :: loc)) ->
  exists evs u,
    Hybrid.fetchText URL net url 0
    = (evs, Throw (Error (js "Too many redirects for " ++ u))) /\
    length (requested evs) = 7 /\ delays evs = [].
Proof.
  intros HURL Hnet.
  exact (fetchText_redirect_loop URL net 6 HURL Hnet url 0 eq_refl).
Qed.

Lemma fetchText_redirect_loop_ends_witness :
  exists evs u,
    Hybrid.fetchText absolute always_moved (js "https://feed.example/rss") 0
    = (evs, Throw (Error (js "Too many redirects for " ++ u))) /\
    length (requested evs) = 7 /\ delays evs = [].
Proof.
  apply fetchText_redirect_loop_ends.
  - intros a b. by eexists.
  - intros d u. eexists _, _, _. split; [reflexivity|]. split; [|reflexivity].
    unfold REDIRECTS. apply list_elem_of_further, list_elem_of_here.
Defined.

(** X15.  [fetchText] waits at most once, for 500 ms, and it does so
    exactly when the URL is valid and the first request is answered with
    status 403. *)
Theorem fetchText_waits_once
  (URL : jsstring -> option jsstring -> option jsstring)
  (net : nat -> jsstring -> fetch_outcome) (url : jsstring) :
  let evs := (Hybrid.fetchText URL net url 0).1 in
  (delays evs = [] \/ delays evs = [500%Z]) /\
  (delays evs = [500%Z] <->
   is_Some (URL url None) /\
   exists res, net 0 url = Responded res /\ status res = 403%Z).
Proof.
  cbv zeta. rewrite fetchText_unfold.
  destruct (URL url None) as [u|] eqn:Hurl.
  2:{ split; [by left|]. split; [done|]. by intros [[? ?] _]. }
  destruct (net 0 url) as [message|res] eqn:Hnet.
  { split; [by left|]. split; [done|]. by intros (_ & ? & ? & _). }
  destruct (decide (status res ∈ REDIRECTS)) as [Hred|Hred].
  - rewrite (bool_decide_true _ Hred).
    assert (H403 : status res <> 403%Z).
    { intros Heq. rewrite Heq in Hred. unfold REDIRECTS in Hred.
      repeat (apply elem_of_cons in Hred as [?|Hred]); try done.
      by apply elem_of_nil in Hred. }
    assert (Hnone : forall evs : list Hybrid.event,
              delays evs = [] ->
              (delays evs = [] \/ delays evs = [500%Z]) /\
              (delays evs = [500%Z] <->
               is_Some (Some u) /\
               exists res0, Responded res = Responded res0
                            /\ status res0 = 403%Z)).
    { intros evs ->. split; [by left|]. split; [done|].
      by intros (_ & ? & [= <-] & ?). }
    destruct (header_location res) as [[|c loc]|]; try by apply Hnone.
    destruct (URL (c :: loc) (Some url)) as [next|]; [|by apply Hnone].
    cbn [Nat.ltb Nat.leb].
    pose proof (fetchText_no_delay URL net next 1 (le_n 1)) as Hdel.
    destruct (Hybrid.fetchText URL net next 1) as [evs r].
    apply Hnone. exact Hdel.
  - rewrite (bool_decide_false _ Hred).
    destruct (decide (status res = 403%Z)) as [H403|H403].
    + rewrite (bool_decide_true _ H403). cbn [andb bool_decide].
      rewrite bool_decide_true by done. cbn [andb].
      pose proof (fetchText_no_delay URL net url 1 (le_n 1)) as Hdel.
      destruct (Hybrid.fetchText URL net url 1) as [evs r].
      cbn [fst] in *.
      change (delays (Hybrid.Request url :: Hybrid.Sleep 500 :: evs))
        with (500%Z :: delays evs).
      rewrite Hdel.
      split; [by right|]. split; [|done]. intros _. split; [done|]. eauto.
    + rewrite (bool_decide_false _ H403). cbn [andb].
      assert (Hnone : forall evs : list Hybrid.event,
                delays evs = [] ->
                (delays evs = [] \/ delays evs = [500%Z]) /\
                (delays evs = [500%Z] <->
                 is_Some (Some u) /\
                 exists res0, Responded res = Responded res0
                              /\ status res0 = 403%Z)).
      { intros evs ->. split; [by left|]. split; [done|].
        by intros (_ & ? & [= <-] & ?). }
      destruct (ok res); [destruct (body res)|]; by apply Hnone.
Qed.

Lemma fetchText_waits_once_witness :
  delays (Hybrid.fetchText absolute always_forbidden
            (js "https://feed.example/rss") 0).1 = [500%Z].
Proof.
  apply (fetchText_waits_once absolute always_forbidden
           (js "https://feed.example/rss")).
  split; [by eexists|]. by eexists.
Defined.

(** X16.  On a first answer that is neither a redirect nor a 403,
    [fetchText] does what [fetchJSON] does; [fetchJSON] issues one request
    at most and never waits. *)
Theorem fetchText_plain_as_fetchJSON
  (URL : jsstring -> option jsstring -> option jsstring)
  (net : nat -> jsstring -> fetch_outcome) (url : jsstring) :
  (forall res, net 0 url = Responded res ->
     (status res ∉ REDIRECTS) /\ status res <> 403%Z) ->
  Hybrid.fetchText URL net url 0 = Hybrid.fetchJSON URL (net 0) url /\
  length (requested (Hybrid.fetchJSON URL (net 0) url).1) <= 1 /\
  delays (Hybrid.fetchJSON URL (net 0) url).1 = [].
Proof.
  intros Hplain. rewrite fetchText_unfold. unfold Hybrid.fetchJSON.
  destruct (URL url None); [|by repeat split; simpl; lia].
  destruct (net 0 url) as [message|res]; [by repeat split; simpl; lia|].
  destruct (Hplain res eq_refl) as [Hred H403].
  rewrite (bool_decide_false _ Hred), (bool_decide_false _ H403).
  cbn [andb].
  destruct (ok res); [destruct (body res)|]; by repeat split; simpl; lia.
Qed.

Lemma fetchText_plain_as_fetchJSON_witness :
  let url := js "https://feed.example/rss" in
  Hybrid.fetchText absolute see_other url 0
  = Hybrid.fetchJSON absolute (see_other 0) url.
Proof.
  intros url.
  refine (proj1 (fetchText_plain_as_fetchJSON absolute see_other url _)).
  intros res [= <-]. split; [|done].
  unfold REDIRECTS. intros Hin.
  repeat (apply elem_of_cons in Hin as [Heq|Hin]); try discriminate Heq.
  by apply elem_of_nil in Hin.
Defined.

(** X17.  What [stripTags] returns holds no [<] with a [>] after it, so no
    tag is left and applying [stripTags] again changes nothing; the result
    is the argument with code units removed. *)
Theorem stripTags_removes_tags (s : jsstring) :
  tag_free (Hybrid.stripTags s) /\
  Hybrid.stripTags (Hybrid.stripTags s) = Hybrid.stripTags s /\
  Hybrid.stripTags s `sublist_of` s.
Proof.
  unfold Hybrid.stripTags, replace_all. fold tagRe.
  split; [apply stripTags_scan_tag_free|].
  split; [apply tag_free_scan_fixed, stripTags_scan_tag_free|].
  apply replace_scan_sublist.
Qed.

(** X18.  [decodeHTML] never lengthens a string and leaves one without
    [&] as it is.  Between stretches of plain text it decodes [&amp;],
    [&lt;], [&gt;], [&quot;] and [&#39;]; and because [&amp;] is decoded
    first, the escaped entity [&amp;lt;] comes out as [<]. *)
Theorem decodeHTML_decodes :
  (forall s, length (Hybrid.decodeHTML s) <= length s) /\
  (forall s, 38%N ∉ s -> Hybrid.decodeHTML s = s) /\
  (forall x y e c : jsstring,
     plain x -> plain y -> (e, c) ∈ take 5 ENTITIES ->
     Hybrid.decodeHTML (x ++ e ++ y) = x ++ c ++ y) /\
  (forall x y : jsstring,
     plain x -> plain y ->
     Hybrid.decodeHTML (x ++ js "&amp;lt;" ++ y) = x ++ js "<" ++ y).
Proof.
  split; [|split; [|split]].
  - intros s. unfold Hybrid.decodeHTML, replaceAll_str.
    repeat (etrans; [apply replace_lit_length; vm_compute; lia|]). done.
  - intros s Hs. unfold Hybrid.decodeHTML, replaceAll_str.
    assert (Hno : Forall (fun c => (38 =? c)%N = false) s).
    { apply Forall_forall. intros c Hc. apply N.eqb_neq. by intros <-. }
    repeat match goal with
           | |- context [replace_all (lit ?p) ?rep s] =>
               rewrite (replace_all_none (lit p) (N.eqb 38) rep s
                          (starts_in_lit 38 (tail p)) Hno)
           end.
    reflexivity.
  - intros x y e c Hx Hy Hec.
    pose proof (decodeHTML_entities x y Hx Hy) as Hall.
    rewrite Forall_forall in Hall. exact (Hall (e, c) Hec).
  - intros x y Hx Hy.
    unfold Hybrid.decodeHTML, replaceAll_str.
    change (x ++ js "&amp;lt;" ++ y)
      with (x ++ (38%N :: js "amp;") ++ (js "lt;" ++ y)).
    change (lit (js "&amp;")) with (lit (38%N :: js "amp;")).
    rewrite (replace_lit_hit 38 (js "amp;") (js "&") x (js "lt;" ++ y)).
    + change (x ++ js "&" ++ js "lt;" ++ y) with (x ++ js "&lt;" ++ y).
      repeat decode_pass x y Hx Hy. reflexivity.
    + by apply plain_no_amp.
    + apply Forall_app. split; [by repeat constructor|by apply plain_no_amp].
Qed.

Lemma decodeHTML_decodes_witness :
  plain (js "Tom") /\ plain (js "Jerry") /\
  Hybrid.decodeHTML (js "Tom&amp;lt;Jerry") = js "Tom<Jerry".
Proof.
  assert (Hx : plain (js "Tom")) by (repeat constructor).
  assert (Hy : plain (js "Jerry")) by (repeat constructor).
  split; [exact Hx|]. split; [exact Hy|].
  exact (proj2 (proj2 (proj2 decodeHTML_decodes)) _ _ Hx Hy).
Defined.

(** X19.  After [tagJob] the tags of a record are pairwise different and
    include every tag it had; tags that were pairwise different before
    stay in front, in their order.  Applying [tagJob] again changes
    nothing, and [makeHash] does not see the tags. *)
Theorem tagJob_labels `{Host} (job : Hybrid.Job) :
  NoDup (Hybrid.tags (Hybrid.tagJob job)) /\
  (forall x, x ∈ Hybrid.tags job -> x ∈ Hybrid.tags (Hybrid.tagJob job)) /\
  (NoDup (Hybrid.tags job) ->
   Hybrid.tags job `prefix_of` Hybrid.tags (Hybrid.tagJob job)) /\
  Hybrid.tagJob (Hybrid.tagJob job) = Hybrid.tagJob job /\
  Hybrid.makeHash (Hybrid.tagJob job) = Hybrid.makeHash job.
Proof.
  destruct (tagJob_eq job) as (t & Heq & _).
  pose proof (Heq job eq_refl) as Hjob.
  split; [|split; [|split; [|split]]].
  - rewrite Hjob. cbn [Hybrid.tags]. apply array_from_set_NoDup.
  - intros x Hx. rewrite Hjob. cbn [Hybrid.tags].
    apply array_from_set_elem, elem_of_app. by left.
  - intros Hnd. rewrite Hjob. cbn [Hybrid.tags].
    unfold array_from_set. rewrite foldl_app.
    fold (array_from_set (Hybrid.tags job)).
    rewrite (array_from_set_fixed _ Hnd). apply foldl_set_add_prefix.
  - rewrite (Heq (Hybrid.tagJob job)) by (by rewrite Hjob).
    rewrite Hjob.
    cbn [Hybrid.source Hybrid.source_url Hybrid.title Hybrid.company
         Hybrid.location Hybrid.remote_type Hybrid.tags Hybrid.salary
         Hybrid.posted_at].
    f_equal. apply array_from_set_absorb.
    intros x Hx. apply elem_of_app. by right.
  - rewrite Hjob. reflexivity.
Qed.

Lemma tagJob_labels_witness :
  NoDup (Hybrid.tags java_job) /\
  Hybrid.tags (@Hybrid.tagJob node_ascii java_job)
  = [js "backend"; js "Virtual Assistant"] /\
  Hybrid.tags java_job
  `prefix_of` Hybrid.tags (@Hybrid.tagJob node_ascii java_job).
Proof.
  assert (Hnd : NoDup (Hybrid.tags java_job))
    by (apply (bool_decide_unpack _); vm_compute; exact I).
  split; [exact Hnd|]. split; [vm_compute; reflexivity|].
  exact (proj1 (proj2 (proj2 (@tagJob_labels node_ascii java_job))) Hnd).
Defined.

(** X20.  [tagJob] gives a record the label Virtual Assistant exactly when
    it had the label already or its lower-cased title contains
    [assistant], [va] or [virtual assistant] as a substring, so a title
    such as Java Developer gets it. *)
Theorem tagJob_virtual_assistant `{Host} (job : Hybrid.Job) :
  let title := toLowerCase (Hybrid.title job) in
  js "Virtual Assistant" ∈ Hybrid.tags (Hybrid.tagJob job) <->
  js "Virtual Assistant" ∈ Hybrid.tags job \/
  includes title (js "assistant") = true \/
  includes title (js "va") = true \/
  includes title (js "virtual assistant") = true.
Proof.
  intros title. destruct (tagJob_eq job) as (t & Heq & Hva).
  rewrite (Heq job eq_refl). cbn [Hybrid.tags].
  rewrite array_from_set_elem, elem_of_app, Hva. fold title.
  change (pattern false "assistant|va|virtual assistant")
    with (Alt (lit (js "assistant"))
            (Alt (lit (js "va")) (lit (js "virtual assistant")))).
  rewrite !test_alt, !test_lit, !orb_true_iff. reflexivity.
Qed.

Lemma tagJob_virtual_assistant_witness :
  includes (@toLowerCase node_ascii (Hybrid.title java_job)) (js "va") = true /\
  js "Virtual Assistant" ∈ Hybrid.tags (@Hybrid.tagJob node_ascii java_job).
Proof.
  assert (Hva : includes (@toLowerCase node_ascii (Hybrid.title java_job))
                  (js "va") = true) by (vm_compute; reflexivity).
  split; [exact Hva|].
  apply (@tagJob_virtual_assistant node_ascii java_job).
  right. right. left. exact Hva.
Defined.

(** X21.  The loop of [main] that removes duplicates keeps the first
    record of every hash, in the original order.  Two records are merged
    as soon as the concatenations of title, company and link agree up to
    case, wherever the three fields are divided. *)
Theorem hybrid_dedupe_merges `{Host} :
  keeps_first_of_each_key Hybrid.makeHash (Hybrid.dedupe_loop ∅ []) /\
  (forall a b : Hybrid.Job,
     toLowerCase (Hybrid.title a ++ Hybrid.company a ++ Hybrid.source_url a)
     = toLowerCase (Hybrid.title b ++ Hybrid.company b ++ Hybrid.source_url b) ->
     Hybrid.dedupe_loop ∅ [] [a; b] = [a]).
Proof.
  split.
  - eapply keeps_first_ext; [|apply dedupe_by_keeps_first].
    intros l. by rewrite dedupe_loop_by.
  - intros a b Heq. rewrite dedupe_loop_by. cbn [app].
    apply dedupe_by_pair. unfold Hybrid.makeHash.
    rewrite !orElse_nil_r. by rewrite Heq.
Qed.

Lemma hybrid_dedupe_merges_witness :
  let a := java_job in
  let b := {| Hybrid.source := js "Remote.co - Customer Service";
              Hybrid.source_url := js "S://JOBS.EXAMPLE/JAVA";
              Hybrid.title := js "JAVA DEVELOPERA";
              Hybrid.company := js "cmehttp";
              Hybrid.location := [];
              Hybrid.remote_type := js "remote";
              Hybrid.tags := [];
              Hybrid.salary := [];
              Hybrid.posted_at := [] |} in
  @Hybrid.dedupe_loop node_ascii ∅ [] [a; b] = [a].
Proof.
  intros a b.
  apply (proj2 (@hybrid_dedupe_merges node_ascii) a b).
  vm_compute. reflexivity.
Defined.

(** X22.  The sort of [main] in the revision with per-source parsers
    returns a permutation of the records, and records with the same [toTs]
    time keep their order. *)
Theorem newest_first_stable `{Host} (now : Z) (deduped : list Hybrid.Job) :
  Hybrid.newest_first now deduped ≡ₚ deduped /\
  forall t : Z,
    filter (fun j => Hybrid.toTs now (Hybrid.posted_at j) = t)
      (Hybrid.newest_first now deduped)
    = filter (fun j => Hybrid.toTs now (Hybrid.posted_at j) = t) deduped.
Proof.
  unfold Hybrid.newest_first. split; [apply sort_perm|].
  intros t.
  apply (sort_stable (fun j => Hybrid.toTs now (Hybrid.posted_at j))).
  by intros a b _ _.
Qed.

(** X23.  The requests of a call of [fetchText]: the first one is for the
    URL given; every further one either repeats a first request that was
    answered with 403, or goes to the address the answer before it gave in
    its Location header, resolved against the URL just requested. *)
Theorem fetchText_follows_locations
  (URL : jsstring -> option jsstring -> option jsstring)
  (net : nat -> jsstring -> fetch_outcome) (url : jsstring) :
  let urls := requested (Hybrid.fetchText URL net url 0).1 in
  (forall u, urls !! 0 = Some u -> u = url) /\
  forall (i : nat) (u v : jsstring),
    urls !! i = Some u -> urls !! S i = Some v ->
    exists res,
      net i u = Responded res /\
      ((status res = 403%Z /\ i = 0 /\ v = u) \/
       (status res ∈ REDIRECTS /\
        exists loc, header_location res = Some loc /\
                    URL loc (Some u) = Some v)).
Proof.
  split; [apply fetchText_first_request|].
  intros i u v Hu Hv.
  exact (fetchText_next_request URL net url 0 i u v Hu Hv).
Qed.

Lemma fetchText_follows_locations_witness :
  let url := js "https://feed.example/rss" in
  let next := js "https://mirror.example/feed" in
  requested (Hybrid.fetchText absolute forbidden_then_moved url 0).1
  = [url; url; next] /\
  exists res,
    forbidden_then_moved 1 url = Responded res /\
    ((status res = 403%Z /\ 1 = 0 /\ next = url) \/
     (status res ∈ REDIRECTS /\
      exists loc, header_location res = Some loc /\
                  absolute loc (Some url) = Some next)).
Proof.
  intros url next. split; [vm_compute; reflexivity|].
  exact (proj2 (fetchText_follows_locations absolute forbidden_then_moved url)
           1 url next eq_refl eq_refl).
Defined.

(** X24.  What the beginner filter lets through.  Every record
    [rssToItems] of the filtered revision emits was built from an item block
    of the feed whose text (title, description and categories, lower-cased)
    contains a beginner keyword or contains no senior keyword; a block whose
    text has a senior keyword and no beginner keyword gives no record; and
    a beginner keyword anywhere in the text, be it inside another word,
    outweighs every senior keyword. *)
Theorem filter_guarantee `{Host} :
  (forall (now : nat -> Z) (xml src : jsstring) (r : Job),
     r ∈ Curated.rssToItems now xml src ->
     exists i block,
       blocks_of Curated.itemRe xml !! i = Some block /\
       Curated.item_of (now i) src block = Some r /\
       title r = curated_title block /\
       ((exists keyword, keyword ∈ Curated.BEGINNER_KEYWORDS /\
           includes (curated_text block) (toLowerCase keyword) = true) \/
        (forall keyword, keyword ∈ Curated.SENIOR_KEYWORDS ->
           includes (curated_text block) (toLowerCase keyword) = false))) /\
  (forall (now : Z) (src block keyword : jsstring),
     keyword ∈ Curated.SENIOR_KEYWORDS ->
     includes (curated_text block) (toLowerCase keyword) = true ->
     (forall b, b ∈ Curated.BEGINNER_KEYWORDS ->
        includes (curated_text block) (toLowerCase b) = false) ->
     Curated.item_of now src block = None) /\
  (forall (t d : jsstring) (tags : list jsstring) (keyword : jsstring),
     keyword ∈ Curated.BEGINNER_KEYWORDS ->
     includes (toLowerCase (t ++ js " " ++ d ++ js " " ++ join (js " ") tags))
       (toLowerCase keyword) = true ->
     Curated.isBeginnerFriendly t d tags = true).
Proof.
  split; [|split].
  - intros now xml src r (i & block & Hblock & Hitem)%curated_rssToItems_block.
    exists i, block. split; [exact Hblock|]. split; [exact Hitem|].
    destruct (curated_item_of_filter _ _ _ _ Hitem) as [Ht Hok].
    split; [exact Ht|].
    unfold Curated.isBeginnerFriendly in Hok. fold (curated_text block) in Hok.
    cbv zeta in Hok.
    apply orb_true_iff in Hok as [Hb|Hs].
    + left. by apply existsb_includes.
    + right. intros keyword Hin. apply negb_true_iff in Hs.
      destruct (includes _ (toLowerCase keyword)) eqn:Hk; [|done].
      assert (existsb (fun keyword => includes (curated_text block)
                (toLowerCase keyword)) Curated.SENIOR_KEYWORDS = true);
        [|congruence].
      apply existsb_includes. by exists keyword.
  - intros now src block keyword Hin Hk Hnone.
    apply curated_item_of_rejected.
    unfold Curated.isBeginnerFriendly. fold (curated_text block). cbv zeta.
    apply orb_false_iff. split.
    + destruct (existsb _ Curated.BEGINNER_KEYWORDS) eqn:Hb; [|done].
      apply existsb_includes in Hb as (b & Hb & Hinc).
      by rewrite (Hnone b Hb) in Hinc.
    + apply negb_false_iff. apply existsb_includes. by exists keyword.
  - intros t d tags keyword Hin Hk. unfold Curated.isBeginnerFriendly.
    apply orb_true_iff. left. apply existsb_includes. by exists keyword.
Qed.

Lemma filter_guarantee_witness :
  let t := js "Senior International Sales Director" in
  js "intern" ∈ Curated.BEGINNER_KEYWORDS /\
  js "senior" ∈ Curated.SENIOR_KEYWORDS /\
  @Curated.isBeginnerFriendly node_ascii t [] [] = true.
Proof.
  intros t.
  assert (Hin : js "intern" ∈ Curated.BEGINNER_KEYWORDS)
    by (unfold Curated.BEGINNER_KEYWORDS; cbn [map];
        repeat first [apply list_elem_of_here | apply list_elem_of_further]).
  split; [exact Hin|]. split.
  - unfold Curated.SENIOR_KEYWORDS. cbn [map]. apply list_elem_of_here.
  - apply (proj2 (proj2 (@filter_guarantee node_ascii)) t [] [] (js "intern") Hin).
    vm_compute. reflexivity.
Defined.

(** X25.  [categorizeJob] returns one of the ten categories, and every
    record [rssToItems] of the filtered revision emits carries such a
    category, which is [other] or one of its tags. *)
Theorem category_is_known `{Host} :
  (forall (t d : jsstring) (tags : list jsstring),
     Curated.categorizeJob t d tags ∈ CATEGORIES) /\
  (forall (now : nat -> Z) (xml src : jsstring) (r : Job),
     r ∈ Curated.rssToItems now xml src ->
     exists c, category r = Some c /\ c ∈ CATEGORIES /\
               (c = js "other" \/ c ∈ tags r)).
Proof.
  split; [apply categorizeJob_closed|].
  intros now xml src r (i & block & Hitem)%curated_rssToItems_elem.
  apply curated_item_of_Some in Hitem
    as (_ & _ & _ & _ & cats & _ & _ & Hcat & Htags & _).
  cbv zeta in *. eexists. split; [exact Hcat|].
  split; [apply categorizeJob_closed|].
  rewrite Htags.
  destruct (generateTags_elem (title r) (curated_description block)
              (Curated.categorizeJob (title r) (curated_description block) cats))
    as (ty & _ & Hin).
  destruct (decide (Curated.categorizeJob (title r)
                      (curated_description block) cats = js "other"))
    as [Hother|Hother]; [by left|].
  right. apply Hin. do 4 right. left. done.
Qed.

Lemma category_is_known_witness :
  support_record ∈ @Curated.rssToItems node_ascii (fun _ => noon) support_feed
                     (js "Remote OK - All") /\
  exists c, category support_record = Some c /\ c ∈ CATEGORIES.
Proof.
  assert (Hin : support_record
                ∈ @Curated.rssToItems node_ascii (fun _ => noon) support_feed
                    (js "Remote OK - All"))
    by (vm_compute; apply list_elem_of_here).
  split; [exact Hin|].
  destruct (proj2 (@category_is_known node_ascii) _ _ _ _ Hin)
    as (c & Hc & Hknown & _).
  by exists c.
Defined.
